(** * Photo-intelligence pipeline (dpovey/bottb, scripts/photo-intelligence)

    A shallow embedding of the perceptual-hash helpers, the smart-crop
    geometry solver, the three clustering passes and the batch
    orchestrator, followed by the properties the specification states
    about them; then of the face and person detectors, the face
    encodings, the search for image files and the entries of
    clusters.json, with further properties of all of these.

    Conventions.
    - Python [int] is [Z]; a Python [str] is a [string] whose characters
      are read as code points below 256.
    - A Python [float] is an IEEE-754 binary64 value.  Finite doubles are
      rationals ([Q]); every float operation is the exact operation
      followed by rounding to nearest, ties to even (module [Float64]);
      module [Float64Check] compares the model with Rocq's primitive
      doubles on sample computations.
    - [try/except] blocks and raising builtins are modelled with [option]:
      [None] is the exceptional outcome. *)

From Stdlib Require Import ZArith QArith Qround Qabs Qpower Lia Lqa.
From Stdlib Require Import String Ascii List Permutation DecimalString.
From Stdlib Require Floats.
From stdpp Require Import base option list gmap strings.

Local Open Scope Z_scope.

(* ================================================================== *)
(** * Part I: definitions *)
(* ================================================================== *)

(** ** ml_services/perceptual_hash.py *)

Module PerceptualHash.

Local Open Scope string_scope.
Local Open Scope Z_scope.

Definition code (c : ascii) : Z := Z.of_N (N_of_ascii c).

(** White space as [int()] sees it: the ASCII blanks, and the two
    Latin-1 spaces U+0085 and U+00A0 that the conversion to ASCII maps
    to a blank before parsing. *)
Definition is_space (c : ascii) : bool :=
  let n := code c in
  ((9 <=? n) && (n <=? 13)) || (n =? 32) || (n =? 133) || (n =? 160).

(** Digit value of a character; 37 stands for "not a digit in any base". *)
Definition digit_value (c : ascii) : Z :=
  let n := code c in
  if (48 <=? n) && (n <=? 57) then n - 48
  else if (97 <=? n) && (n <=? 122) then n - 87
  else if (65 <=? n) && (n <=? 90) then n - 55
  else 37.

Definition is_underscore (c : ascii) : bool := code c =? 95.

Fixpoint skip_spaces (s : string) : string :=
  match s with
  | String c s' => if is_space c then skip_spaces s' else s
  | EmptyString => s
  end.

(** The digit loop of [int(s, 16)]: hexadecimal digits, with single
    underscores allowed between digits. *)
Fixpoint scan_digits (s : string) (prev_underscore : bool) (acc : Z)
  : option (Z * string) :=
  match s with
  | String c s' =>
      if is_underscore c then
        if prev_underscore then None else scan_digits s' true acc
      else if digit_value c <? 16 then
        scan_digits s' false (acc * 16 + digit_value c)
      else if prev_underscore then None else Some (acc, s)
  | EmptyString => if prev_underscore then None else Some (acc, s)
  end.

Definition strip_sign (s : string) : Z * string :=
  match s with
  | String c s' =>
      if code c =? 43 then (1, s')
      else if code c =? 45 then (-1, s')
      else (1, s)
  | EmptyString => (1, s)
  end.

Definition strip_0x (s : string) : string :=
  match s with
  | String c0 (String c1 s') =>
      if (code c0 =? 48) && ((code c1 =? 120) || (code c1 =? 88)) then
        match s' with
        | String c2 s'' => if is_underscore c2 then s'' else s'
        | EmptyString => s'
        end
      else s
  | _ => s
  end.

(** [int(s, 16)]; [None] is [ValueError]. *)
Definition int_base16 (s : string) : option Z :=
  let '(sign, s1) := strip_sign (skip_spaces s) in
  let s2 := strip_0x s1 in
  match s2 with
  | String c _ =>
      if digit_value c <? 16 then
        match scan_digits s2 false 0 with
        | Some (v, rest) =>
            match skip_spaces rest with
            | EmptyString => Some (sign * v)
            | String _ _ => None
            end
        | None => None
        end
      else None
  | EmptyString => None
  end.

Fixpoint bits_of_pos (p : positive) (acc : string) : string :=
  match p with
  | xH => String "1" acc
  | xO p' => bits_of_pos p' (String "0" acc)
  | xI p' => bits_of_pos p' (String "1" acc)
  end.

(** [bin(z)] *)
Definition bin (z : Z) : string :=
  match z with
  | Z0 => "0b0"
  | Zpos p => "0b" ++ bits_of_pos p ""
  | Zneg p => "-0b" ++ bits_of_pos p ""
  end.

(** [s.count(c)] for a one-character pattern. *)
Fixpoint count (c : ascii) (s : string) : Z :=
  match s with
  | String c' s' => (if Ascii.eqb c' c then 1 else 0) + count c s'
  | EmptyString => 0
  end.

Record Hashes := { phash : string; dhash : string }.

(** [compute_hashes]: the two hex strings of the external hasher, or a
    pair of empty strings when opening or hashing the image raised. *)
Definition compute_hashes (hashed : option (string * string)) : Hashes :=
  match hashed with
  | Some (p, d) => {| phash := p; dhash := d |}
  | None => {| phash := ""; dhash := "" |}
  end.

Definition hamming_distance (hash1 hash2 : string) : Z :=
  match int_base16 hash1 with
  | Some int1 =>
      match int_base16 hash2 with
      | Some int2 =>
          let xor_result := Z.lxor int1 int2 in
          count "1" (bin xor_result)
      | None => 999
      end
  | None => 999
  end.

Definition are_similar (hash1 hash2 : string) (threshold : Z)
    (hash_type : string) : bool :=
  let distance := hamming_distance hash1 hash2 in
  distance <=? threshold.

Definition default_threshold : Z := 10.

End PerceptualHash.

(** ** Python floats: IEEE-754 binary64 *)

Module Float64.

Local Open Scope Q_scope.

(** A finite double, as the rational it denotes. *)
Definition float : Type := Q.

Definition prec : Z := 53.
Definition emax : Z := 1024.
Definition emin : Z := (3 - emax - prec)%Z.

Definition pow2 (e : Z) : Q := 2 ^ e.

(** [ilog2 x] is the integer [k] with [2^k <= |x| < 2^(k+1)], for [x]
    other than zero. *)
Definition ilog2 (x : Q) : Z :=
  let k := (Z.log2 (Z.abs (Qnum x)) - Z.log2 (Zpos (Qden x)))%Z in
  if Qle_bool (pow2 k) (Qabs x) then k else (k - 1)%Z.

(** Exponent of the unit in the last place of the binade of [x]; the
    lower bound [emin] gives gradual underflow. *)
Definition ulp_exp (x : Q) : Z := Z.max (ilog2 x + 1 - prec) emin.

(** Nearest integer, ties to the even one. *)
Definition round_half_even (x : Q) : Z :=
  let f := Qfloor x in
  match Qcompare (x - inject_Z f) (1 # 2) with
  | Lt => f
  | Gt => (f + 1)%Z
  | Eq => if Z.even f then f else (f + 1)%Z
  end.

(** Rounding to nearest-even onto the binary64 grid, exponent unbounded
    above. *)
Definition round_ne (x : Q) : Q :=
  if Qeq_bool x 0 then 0
  else
    let e := ulp_exp x in
    Qred (inject_Z (round_half_even (x / pow2 e)) * pow2 e).

(** The result of a float operation whose exact value is [x]: the
    rounded value, or [None] when it leaves the finite doubles
    (overflow). *)
Definition fl (x : Q) : option float :=
  let r := round_ne x in
  if Qle_bool (pow2 emax) (Qabs r) then None else Some r.

(** A decimal literal of the source, such as [0.15]. *)
Definition lit (q : Q) : float := round_ne q.

(** [float(n)]; [None] is [OverflowError]. *)
Definition of_int (n : Z) : option float := fl (inject_Z n).

Definition fadd (a b : float) : option float := fl (a + b).
Definition fsub (a b : float) : option float := fl (a - b).
Definition fmul (a b : float) : option float := fl (a * b).

(** [a / b] on floats; [None] on a zero divisor is [ZeroDivisionError]. *)
Definition fdiv (a b : float) : option float :=
  if Qeq_bool b 0 then None else fl (a / b).

(** [a / b] on two ints: the correctly rounded quotient. *)
Definition truediv (a b : Z) : option float :=
  if (b =? 0)%Z then None else fl (inject_Z a / inject_Z b).

(** Mixed arithmetic converts the int operand first. *)
Definition int_add_float (n : Z) (b : float) : option float :=
  a ← of_int n; fadd a b.
Definition int_sub_float (n : Z) (b : float) : option float :=
  a ← of_int n; fsub a b.
Definition float_sub_int (a : float) (n : Z) : option float :=
  b ← of_int n; fsub a b.
Definition int_mul_float (n : Z) (b : float) : option float :=
  a ← of_int n; fmul a b.
Definition int_div_float (n : Z) (b : float) : option float :=
  a ← of_int n; fdiv a b.

(** [int(x)]: truncation toward zero. *)
Definition to_int (x : float) : Z :=
  if Qle_bool 0 x then Qfloor x else Qceiling x.

Definition fltb (a b : Q) : bool := negb (Qle_bool b a).
Definition fleb (a b : Q) : bool := Qle_bool a b.

(** Python's two-argument [max] and [min] on numbers: the second
    argument wins only when it is strictly better. *)
Definition max2 (a b : Q) : Q := if fltb a b then b else a.
Definition min2 (a b : Q) : Q := if fltb b a then b else a.

(** The rational that one of Rocq's primitive doubles denotes; [None]
    for infinities and NaN. *)
Definition of_prim (f : PrimFloat.float) : option float :=
  match FloatOps.Prim2SF f with
  | SpecFloat.S754_zero _ => Some 0
  | SpecFloat.S754_finite s m e =>
      Some (Qred ((if s then - (1) else 1) * inject_Z (Zpos m) * pow2 e))
  | _ => None
  end.

(** *** Specification vocabulary *)

(** The smallest positive normal double, and the unit roundoff. *)
Definition min_normal : Q := pow2 (emin + prec - 1).
Definition unit_roundoff : Q := pow2 (- prec).

(** [bounded k x]: the magnitude of [x] is at most [2^k]. *)
Definition bounded (k : Z) (x : Q) : Prop := Qabs x <= pow2 k.

(** An int that converts to a double without rounding. *)
Definition exact_int (n : Z) : Prop := (Z.abs n < 2 ^ 53)%Z.

End Float64.

(** ** Detections *)

Module Box.
Record t := { x : Z; y : Z; width : Z; height : Z }.
End Box.

Module Detection.
(** A face or person detection.  The detectors build [box] with [int()]
    and the two scores with [float()]. *)
Record t := {
  box : Box.t;
  confidence : Float64.float;
  quality_score : Float64.float
}.
End Detection.

(** ** ml_services/crop_calculator.py *)

Module CropCalculator.

Import Float64.
Local Open Scope string_scope.
Local Open Scope Z_scope.

Record CropResult := {
  crop_box : Box.t;
  confidence : float;
  method : string;
  reason : string
}.

(** [str(n)] for an int. *)
Definition str (n : Z) : string := NilZero.string_of_int (Z.to_int n).

(** [max(items, key=key)]: the first item whose key is not exceeded;
    [None] when a key cannot be computed. *)
Fixpoint max_from {A} (key : A -> option float) (best : A) (kbest : float)
    (items : list A) : option A :=
  match items with
  | [] => Some best
  | a :: rest =>
      ka ← key a;
      if fltb kbest ka then max_from key a ka rest
      else max_from key best kbest rest
  end.

Definition max_by_key {A} (key : A -> option float) (items : list A)
  : option A :=
  match items with
  | [] => None
  | a :: rest => ka ← key a; max_from key a ka rest
  end.

(** The key [quality_score * confidence] of both strategies. *)
Definition score (d : Detection.t) : option float :=
  fmul (Detection.quality_score d) (Detection.confidence d).

(** [min(xs)] and [max(xs)] over a list of ints; [None] is the
    [ValueError] of an empty list. *)
Definition min_list (xs : list Z) : option Z :=
  match xs with
  | [] => None
  | a :: rest => Some (fold_left Z.min rest a)
  end.
Definition max_list (xs : list Z) : option Z :=
  match xs with
  | [] => None
  | a :: rest => Some (fold_left Z.max rest a)
  end.

(** Lines 39-55: the maximal crop dimensions for the target ratio. *)
Definition crop_dimensions (aspect_ratio : Z * Z)
    (image_width image_height : Z) : option (Z * Z) :=
  let '(target_width_ratio, target_height_ratio) := aspect_ratio in
  target_aspect ← truediv target_width_ratio target_height_ratio;
  image_aspect ← truediv image_width image_height;
  if fltb target_aspect image_aspect then
    let crop_height := image_height in
    w ← int_mul_float crop_height target_aspect;
    let crop_width := to_int w in
    let crop_width := Z.min crop_width image_width in
    Some (crop_width, crop_height)
  else
    let crop_width := image_width in
    h ← int_div_float crop_width target_aspect;
    let crop_height := to_int h in
    let crop_height := Z.min crop_height image_height in
    Some (crop_width, crop_height).

(** Lines 60-132: strategy 1, crop around the faces. *)
Definition face_crop (faces : list Detection.t)
    (image_width image_height crop_width crop_height : Z)
    (headroom_ratio : float) : option CropResult :=
  best_face ← max_by_key score faces;
  let face_box := Detection.box best_face in
  half_width ← truediv (Box.width face_box) 2;
  face_center_x ← int_add_float (Box.x face_box) half_width;
  half_height ← truediv (Box.height face_box) 2;
  face_center_y ← int_add_float (Box.y face_box) half_height;
  scaled ← int_mul_float (Box.height face_box) headroom_ratio;
  let headroom := to_int scaled in
  adjusted_center_y ← float_sub_int face_center_y headroom;
  half_crop_width ← truediv crop_width 2;
  half_crop_height ← truediv crop_height 2;
  ideal_crop_x ← fsub face_center_x half_crop_width;
  ideal_crop_y ← fsub adjusted_center_y half_crop_height;
  '(ideal_crop_x, ideal_crop_y) ←
    (if 1 <? Z.of_nat (length faces) then
       let all_face_x := map (fun f => Box.x (Detection.box f)) faces in
       let all_face_y := map (fun f => Box.y (Detection.box f)) faces in
       let all_face_right :=
         map (fun f => Box.x (Detection.box f) + Box.width (Detection.box f))
             faces in
       let all_face_bottom :=
         map (fun f => Box.y (Detection.box f) + Box.height (Detection.box f))
             faces in
       min_x ← min_list all_face_x;
       max_x ← max_list all_face_right;
       min_y ← min_list all_face_y;
       max_y ← max_list all_face_bottom;
       group_center_x ← truediv (min_x + max_x) 2;
       mid_y ← truediv (min_y + max_y) 2;
       scaled' ← int_mul_float (Box.height face_box) headroom_ratio;
       group_center_y ← float_sub_int mid_y (to_int scaled');
       half_crop_width' ← truediv crop_width 2;
       ideal_crop_x' ← fsub group_center_x half_crop_width';
       half_crop_height' ← truediv crop_height 2;
       ideal_crop_y' ← fsub group_center_y half_crop_height';
       Some (ideal_crop_x', ideal_crop_y')
     else Some (ideal_crop_x, ideal_crop_y));
  let crop_x :=
    Z.max 0 (Z.min (image_width - crop_width) (to_int ideal_crop_x)) in
  let face_top_with_headroom := Box.y face_box - headroom in
  tenth ← int_mul_float crop_height (lit (1 # 10));
  lowered ← int_sub_float face_top_with_headroom tenth;
  let min_crop_y_for_face := max2 0 lowered in
  let face_bottom := Box.y face_box + Box.height face_box in
  nine_tenths ← int_mul_float crop_height (lit (9 # 10));
  raised ← int_sub_float face_bottom nine_tenths;
  let max_crop_y_for_face :=
    min2 (inject_Z (image_height - crop_height)) raised in
  let ideal_crop_y_int := to_int ideal_crop_y in
  let crop_y :=
    if fltb (inject_Z ideal_crop_y_int) min_crop_y_for_face then
      to_int min_crop_y_for_face
    else if fltb max_crop_y_for_face (inject_Z ideal_crop_y_int) then
      to_int max_crop_y_for_face
    else ideal_crop_y_int in
  let crop_y := Z.max 0 (Z.min (image_height - crop_height) crop_y) in
  confidence ← fmul (Detection.confidence best_face)
                    (Detection.quality_score best_face);
  Some {| crop_box := {| Box.x := crop_x; Box.y := crop_y;
                         Box.width := crop_width;
                         Box.height := crop_height |};
          confidence := confidence;
          method := "face";
          reason := "Cropped around " ++ str (Z.of_nat (length faces))
                    ++ " face(s), centered on highest quality face" |}.

(** Lines 135-190: strategy 2, crop around the best person. *)
Definition person_crop (persons : list Detection.t)
    (image_width image_height crop_width crop_height : Z)
  : option CropResult :=
  best_person ← max_by_key score persons;
  let person_box := Detection.box best_person in
  half_width ← truediv (Box.width person_box) 2;
  person_center_x ← int_add_float (Box.x person_box) half_width;
  head_offset ← int_mul_float (Box.height person_box) (lit (2 # 10));
  person_head_y ← int_add_float (Box.y person_box) head_offset;
  scaled ← int_mul_float (Box.height person_box) (lit (15 # 100));
  let headroom_for_person := to_int scaled in
  half_crop_width ← truediv crop_width 2;
  ideal_crop_x ← fsub person_center_x half_crop_width;
  let crop_x :=
    Z.max 0 (Z.min (image_width - crop_width) (to_int ideal_crop_x)) in
  let person_top := Box.y person_box in
  fifth ← int_mul_float crop_height (lit (20 # 100));
  let head_target_y_in_crop := to_int fifth in
  let ideal_crop_y := person_top - head_target_y_in_crop in
  let crop_y := Z.max 0 (Z.min (image_height - crop_height) ideal_crop_y) in
  crop_y ←
    (if person_top <=? crop_y then
       twentieth ← int_mul_float crop_height (lit (5 # 100));
       let crop_y := Z.max 0 (person_top - to_int twentieth) in
       Some (Z.min crop_y (image_height - crop_height))
     else Some crop_y);
  crop_y ←
    (if negb ((crop_y <=? person_top) && (person_top <=? crop_y + crop_height))
     then
       tenth ← int_mul_float crop_height (lit (1 # 10));
       let crop_y := Z.max 0 (person_top - to_int tenth) in
       Some (Z.min crop_y (image_height - crop_height))
     else Some crop_y);
  confidence ← fmul (Detection.confidence best_person)
                    (Detection.quality_score best_person);
  Some {| crop_box := {| Box.x := crop_x; Box.y := crop_y;
                         Box.width := crop_width;
                         Box.height := crop_height |};
          confidence := confidence;
          method := "person";
          reason := "Cropped around person (no faces detected)" |}.

(** Lines 192-206: strategy 3, the centre crop. *)
Definition center_crop (image_width image_height crop_width crop_height : Z)
  : CropResult :=
  let crop_x := (image_width - crop_width) / 2 in
  let crop_y := (image_height - crop_height) / 2 in
  {| crop_box := {| Box.x := crop_x; Box.y := crop_y;
                    Box.width := crop_width; Box.height := crop_height |};
     confidence := lit (3 # 10);
     method := "saliency";
     reason := "No faces or persons detected, using center crop" |}.

Definition default_headroom_ratio : float := lit (15 # 100).

(** *** Specification vocabulary: the ranges of the inputs *)

(** Image sides are positive C ints, aspect-ratio terms small positive
    ints, box coordinates C ints, scores and ratios numbers of [0, 1]. *)
Definition image_dimension (n : Z) : Prop := 0 < n < 2 ^ 31.
Definition aspect_term (n : Z) : Prop := 0 < n < 2 ^ 16.
Definition pixel (n : Z) : Prop := Z.abs n < 2 ^ 31.
Definition unit_interval (s : float) : Prop := (0 <= s <= 1)%Q.

Definition box_in_range (b : Box.t) : Prop :=
  pixel (Box.x b) /\ pixel (Box.y b) /\
  pixel (Box.width b) /\ pixel (Box.height b).

Definition detection_in_range (d : Detection.t) : Prop :=
  box_in_range (Detection.box d) /\
  unit_interval (Detection.confidence d) /\
  unit_interval (Detection.quality_score d).

(** A box that lies inside the image. *)
Definition box_inside (b : Box.t) (image_width image_height : Z) : Prop :=
  0 <= Box.x b /\ 0 <= Box.y b /\
  0 <= Box.width b /\ 0 <= Box.height b /\
  Box.x b + Box.width b <= image_width /\
  Box.y b + Box.height b <= image_height.

(** A box that lies inside the rectangle of a crop. *)
Definition box_within (b crop : Box.t) : Prop :=
  Box.x crop <= Box.x b /\
  Box.x b + Box.width b <= Box.x crop + Box.width crop /\
  Box.y crop <= Box.y b /\
  Box.y b + Box.height b <= Box.y crop + Box.height crop.

(** [calculate_smart_crop]; [None] when the Python code raises or a
    float leaves the finite range. *)
Definition calculate_smart_crop (image_path : string)
    (aspect_ratio : Z * Z) (faces persons : list Detection.t)
    (image_width image_height : Z) (headroom_ratio : float)
  : option CropResult :=
  '(crop_width, crop_height) ←
    crop_dimensions aspect_ratio image_width image_height;
  match faces with
  | _ :: _ =>
      face_crop faces image_width image_height crop_width crop_height
                headroom_ratio
  | [] =>
      match persons with
      | _ :: _ =>
          person_crop persons image_width image_height crop_width crop_height
      | [] =>
          Some (center_crop image_width image_height crop_width crop_height)
      end
  end.

(** *** Specification vocabulary: what the results are measured by *)

(** [best] is an item of [items] whose key [quality_score * confidence]
    no item exceeds. *)
Definition maximises_score (best : Detection.t) (items : list Detection.t)
  : Prop :=
  In best items /\
  exists kb, score best = Some kb /\
    forall d, In d items -> exists kd, score d = Some kd /\ (kd <= kb)%Q.

(** A crop that is maximal for the ratio [aw : ah] in an image: it has
    the full height and a width at most one pixel below
    [height * aw / ah], or the full width and a height at most one pixel
    below [width * ah / aw]. *)
Definition maximal_for_ratio (b : Box.t) (aw ah iw ih : Z) : Prop :=
  (Box.height b = ih /\
   Box.width b * ah <= ih * aw <= (Box.width b + 1) * ah) \/
  (Box.width b = iw /\
   Box.height b * aw <= iw * ah <= (Box.height b + 1) * aw).

(** The span of a group of faces fits a width when every right edge is
    within that width of every left edge. *)
Definition span_fits (faces : list Detection.t) (cw : Z) : Prop :=
  forall f g, In f faces -> In g faces ->
    Box.x (Detection.box f) + Box.width (Detection.box f)
      - Box.x (Detection.box g) <= cw.

(** *** Detections of the examples *)

Definition detection (x y w h : Z) (q c : Q) : Detection.t :=
  {| Detection.box := {| Box.x := x; Box.y := y;
                         Box.width := w; Box.height := h |};
     Detection.confidence := c;
     Detection.quality_score := q |}.

Definition closeup_face : Detection.t :=
  detection 500 800 2000 2400 (7 # 8) (3 # 4).
Definition singer_face : Detection.t :=
  detection 1500 900 300 300 (7 # 8) (3 # 4).
Definition drummer_face : Detection.t :=
  detection 2000 1000 300 300 (1 # 2) (3 # 4).
Definition left_face : Detection.t :=
  detection 100 900 300 300 (7 # 8) (3 # 4).
Definition far_face : Detection.t :=
  detection 3600 1000 300 300 (1 # 2) (3 # 4).
Definition tall_face : Detection.t :=
  detection 100 400 400 500 (7 # 8) (3 # 4).
Definition singer : Detection.t :=
  detection 1500 900 300 1300 (7 # 8) (3 # 4).

End CropCalculator.

(** ** pipeline.py *)

Module FaceEncoding.
Record t := {
  embedding : list Float64.float;
  box : Box.t;
  confidence : Float64.float;
  quality_score : Float64.float
}.
End FaceEncoding.

(** An entry of [all_faces] in [cluster_people]. *)
Module Face.
Record t := {
  filename : string;
  embedding : list Float64.float;
  box : Box.t;
  quality_score : Float64.float;
  confidence : Float64.float
}.
End Face.

Module Pipeline.

Import PerceptualHash Float64 CropCalculator.
Local Open Scope string_scope.
Local Open Scope Z_scope.
Local Open Scope list_scope.

Definition ASPECT_RATIOS : list (Z * Z) := [(4, 5); (16, 9); (1, 1)].

Record PhotoRecord := {
  filename : string;
  filepath : string;
  width : Z;
  height : Z;
  hashes : Hashes;
  image_embedding : list float;
  faces : list Detection.t;
  face_encodings : list FaceEncoding.t;
  persons : list Detection.t;
  crops : gmap string CropResult;
  is_monochrome : bool
}.

(** The external collaborators of [process_photo].  [None] stands for a
    raised exception; the detectors, the embedder and the face encoder
    catch their own and return an empty list instead. *)
Record Collaborators := {
  image_size : string -> option (Z * Z);
  basename : string -> string;
  detect_faces : string -> list Detection.t;
  detect_persons : string -> list Detection.t;
  hash_image : string -> option (string * string);
  get_image_embedding : string -> list float;
  get_face_encodings_for_photo : string -> list FaceEncoding.t;
  detect_monochrome : string -> option bool
}.

(** [enumerate(items, start)] *)
Definition enumerate_from {A} (start : nat) (items : list A)
  : list (nat * A) :=
  zip (seq start (length items)) items.

Definition enumerate {A} (items : list A) : list (nat * A) :=
  enumerate_from 0 items.

(** Step 6 of [process_photo]: one crop per target ratio. *)
Definition add_crop (image_path : string) (faces persons : list Detection.t)
    (width height : Z) (crops : option (gmap string CropResult))
    (aspect_ratio : Z * Z) : option (gmap string CropResult) :=
  crops ← crops;
  crop_result ← calculate_smart_crop image_path aspect_ratio faces persons
                  width height default_headroom_ratio;
  let aspect_key :=
    (str (fst aspect_ratio) ++ ":" ++ str (snd aspect_ratio))%string in
  Some (<[aspect_key := crop_result]> crops).

(** [process_photo]: the record of one photo, or [None] when anything in
    the [try] block raised. *)
Definition process_photo (env : Collaborators)
    (image_path output_dir : string) (verbose : bool) : option PhotoRecord :=
  '(width, height) ← image_size env image_path;
  let filename := basename env image_path in
  let faces := detect_faces env image_path in
  let persons :=
    if (length faces =? 0)%nat || (3 <? length faces)%nat
    then detect_persons env image_path else [] in
  let hashes := compute_hashes (hash_image env image_path) in
  let image_embedding := get_image_embedding env image_path in
  let face_encodings := get_face_encodings_for_photo env image_path in
  crops ← fold_left (add_crop image_path faces persons width height)
                    ASPECT_RATIOS (Some ∅);
  is_monochrome ← detect_monochrome env image_path;
  Some {| filename := filename;
          filepath := image_path;
          width := width;
          height := height;
          hashes := hashes;
          image_embedding := image_embedding;
          faces := faces;
          face_encodings := face_encodings;
          persons := persons;
          crops := crops;
          is_monochrome := is_monochrome |}.

(** *** cluster_near_duplicates *)

(** Body of the inner loop, lines 271-284. *)
Definition near_duplicate_scan (hash_threshold : Z) (phash1 dhash1 : string)
    (st : list string * gset string) (photo2 : PhotoRecord)
  : list string * gset string :=
  let '(cluster, processed) := st in
  if bool_decide (filename photo2 ∈ processed) then st
  else
    let phash2 := phash (hashes photo2) in
    let dhash2 := dhash (hashes photo2) in
    let phash_dist := hamming_distance phash1 phash2 in
    let dhash_dist := hamming_distance dhash1 dhash2 in
    if (phash_dist <=? hash_threshold) || (dhash_dist <=? hash_threshold)
    then (cluster ++ [filename photo2], {[filename photo2]} ∪ processed)
    else st.

(** Body of the outer loop, lines 261-287. *)
Definition near_duplicate_seed (hash_threshold : Z)
    (photo_results : list PhotoRecord)
    (st : list (list string) * gset string) (entry : nat * PhotoRecord)
  : list (list string) * gset string :=
  let '(clusters, processed) := st in
  let '(i, photo1) := entry in
  if bool_decide (filename photo1 ∈ processed) then st
  else
    let cluster := [filename photo1] in
    let processed := {[filename photo1]} ∪ processed in
    let phash1 := phash (hashes photo1) in
    let dhash1 := dhash (hashes photo1) in
    let '(cluster, processed) :=
      fold_left (near_duplicate_scan hash_threshold phash1 dhash1)
                (drop (i + 1) photo_results) (cluster, processed) in
    if (1 <? length cluster)%nat then (clusters ++ [cluster], processed)
    else (clusters, processed).

Definition cluster_near_duplicates (photo_results : list PhotoRecord)
    (hash_threshold : Z) : list (list string) :=
  fst (fold_left (near_duplicate_seed hash_threshold photo_results)
                 (enumerate photo_results) ([], ∅)).

Definition default_hash_threshold : Z := 10.

(** The same grouping told the way the specification tells it: walk the
    records in order; a record not yet processed seeds a cluster; the
    later records not yet processed join when one of their two hashes is
    within the threshold of the seed's; a cluster of the seed alone is
    dropped. *)
Definition near_seed (hash_threshold : Z) (seed r : PhotoRecord) : bool :=
  (hamming_distance (phash (hashes seed)) (phash (hashes r)) <=? hash_threshold)
  || (hamming_distance (dhash (hashes seed)) (dhash (hashes r))
      <=? hash_threshold).

Fixpoint joiners (hash_threshold : Z) (seed : PhotoRecord)
    (processed : gset string) (later : list PhotoRecord)
  : list string * gset string :=
  match later with
  | [] => ([], processed)
  | r :: later' =>
      if bool_decide (filename r ∈ processed) then
        joiners hash_threshold seed processed later'
      else if near_seed hash_threshold seed r then
        let '(members, processed') :=
          joiners hash_threshold seed ({[filename r]} ∪ processed) later' in
        (filename r :: members, processed')
      else joiners hash_threshold seed processed later'
  end.

Fixpoint greedy_seed_grouping (hash_threshold : Z) (processed : gset string)
    (records : list PhotoRecord) : list (list string) :=
  match records with
  | [] => []
  | seed :: later =>
      if bool_decide (filename seed ∈ processed) then
        greedy_seed_grouping hash_threshold processed later
      else
        let '(members, processed') :=
          joiners hash_threshold seed ({[filename seed]} ∪ processed) later in
        match members with
        | [] => greedy_seed_grouping hash_threshold processed' later
        | _ :: _ =>
            (filename seed :: members)
            :: greedy_seed_grouping hash_threshold processed' later
        end
  end.

(** *** cluster_scenes *)

(** Truth value of [p.get("image_embedding")]: a non-empty list. *)
Definition has_embedding (p : PhotoRecord) : bool :=
  match image_embedding p with [] => false | _ :: _ => true end.

(** [clusters[label].append(name)], creating the entry on first use; the
    dict keeps insertion order. *)
Fixpoint append_to_label (label : Z) (name : string)
    (clusters : list (Z * list string)) : list (Z * list string) :=
  match clusters with
  | [] => [(label, [name])]
  | (l, names) :: rest =>
      if l =? label then (l, names ++ [name]) :: rest
      else (l, names) :: append_to_label label name rest
  end.

Definition group_label (valid_photos : list PhotoRecord)
    (clusters : option (list (Z * list string))) (entry : nat * Z)
  : option (list (Z * list string)) :=
  clusters ← clusters;
  let '(idx, label) := entry in
  if negb (label =? -1) then
    p ← valid_photos !! idx;
    Some (append_to_label label (filename p) clusters)
  else Some clusters.

(** [fit_predict] is scikit-learn's
    [DBSCAN(eps, min_samples, metric="cosine").fit_predict]. *)
Definition cluster_scenes
    (fit_predict : float -> Z -> list (list float) -> option (list Z))
    (photo_results : list PhotoRecord) (similarity_threshold : float)
  : option (list (list string)) :=
  let valid_photos := List.filter has_embedding photo_results in
  if (length valid_photos <? 2)%nat then Some []
  else
    let embeddings := map image_embedding valid_photos in
    eps ← fsub 1%Q similarity_threshold;
    labels ← fit_predict eps 2 embeddings;
    clusters ← fold_left (group_label valid_photos) (enumerate labels)
                         (Some []);
    Some (map snd clusters).

Definition default_similarity_threshold : float := lit (85 # 100).

(** *** cluster_people *)

Record PersonCluster := {
  person_id : Z;
  photo_filenames : list string;
  cluster_faces : list Face.t;
  representative_face : Face.t
}.

(** Lines 357-366: every face encoding of every photo, in order. *)
Definition collect_faces (photo_results : list PhotoRecord) : list Face.t :=
  flat_map
    (fun photo =>
       map (fun face_encoding =>
              {| Face.filename := filename photo;
                 Face.embedding := FaceEncoding.embedding face_encoding;
                 Face.box := FaceEncoding.box face_encoding;
                 Face.quality_score := FaceEncoding.quality_score face_encoding;
                 Face.confidence := FaceEncoding.confidence face_encoding |})
           (face_encodings photo))
    photo_results.

Section ClusterPeople.

(** [face_distance] of ml_services/face_embeddings.py: numpy's Euclidean
    norm of the difference, or [999.0] when numpy raised. *)
Variable face_distance : list float -> list float -> float.

(** Body of the inner loop, lines 387-399. *)
Definition people_scan (face_distance_threshold : float) (face1 : Face.t)
    (st : PersonCluster * gset nat) (entry : nat * Face.t)
  : PersonCluster * gset nat :=
  let '(cluster, processed) := st in
  let '(j, face2) := entry in
  if bool_decide (j ∈ processed) then st
  else
    let distance :=
      face_distance (Face.embedding face1) (Face.embedding face2) in
    if fleb distance face_distance_threshold then
      let representative :=
        if fltb (Face.quality_score (representative_face cluster))
                (Face.quality_score face2)
        then face2 else representative_face cluster in
      ({| person_id := person_id cluster;
          photo_filenames := photo_filenames cluster ++ [Face.filename face2];
          cluster_faces := cluster_faces cluster ++ [face2];
          representative_face := representative |},
       {[j]} ∪ processed)
    else st.

(** Body of the outer loop, lines 375-402. *)
Definition people_seed (face_distance_threshold : float)
    (all_faces : list Face.t)
    (st : list PersonCluster * gset nat) (entry : nat * Face.t)
  : list PersonCluster * gset nat :=
  let '(clusters, processed) := st in
  let '(i, face1) := entry in
  if bool_decide (i ∈ processed) then st
  else
    let cluster :=
      {| person_id := Z.of_nat (length clusters);
         photo_filenames := [Face.filename face1];
         cluster_faces := [face1];
         representative_face := face1 |} in
    let processed := {[i]} ∪ processed in
    let '(cluster, processed) :=
      fold_left (people_scan face_distance_threshold face1)
                (enumerate_from (i + 1) (drop (i + 1) all_faces))
                (cluster, processed) in
    if (1 <? length (cluster_faces cluster))%nat
    then (clusters ++ [cluster], processed)
    else (clusters, processed).

Definition cluster_people (photo_results : list PhotoRecord)
    (face_distance_threshold : float) : list PersonCluster :=
  let all_faces := collect_faces photo_results in
  if (length all_faces <? 2)%nat then []
  else
    fst (fold_left (people_seed face_distance_threshold all_faces)
                   (enumerate all_faces) ([], ∅)).

End ClusterPeople.

Definition default_face_distance_threshold : float := lit (6 # 10).

(** *** main: the checkpointed batch loop *)

(** What [json.dump] writes to checkpoint.json. *)
Record Checkpoint := {
  processed_files : list string;
  results : list PhotoRecord;
  last_updated : string;
  total_processed : Z
}.

(** What is found at the checkpoint path when the run starts: no file, a
    file that cannot be read as JSON, or a JSON object with its optional
    keys. *)
Inductive CheckpointFile :=
| NoFile
| Unreadable
| Stored (stored_processed : option (list string))
         (stored_results : option (list PhotoRecord)).

(** Lines 449-469: the state the batch loop starts from. *)
Definition load_checkpoint (fresh : bool) (file : CheckpointFile)
  : gset string * list PhotoRecord :=
  if fresh then (∅, [])
  else
    match file with
    | NoFile => (∅, [])
    | Unreadable => (∅, [])
    | Stored stored_processed stored_results =>
        (list_to_set (default [] stored_processed), default [] stored_results)
    end.

(** [range(0, stop, step)] for a positive step. *)
Definition range_step (stop step : nat) : list nat :=
  map (fun k => k * step)%nat (seq 0 ((stop + step - 1) / step)).

Section BatchLoop.

Variable env : Collaborators.
Variable output_dir : string.
Variable verbose : bool.
(** [datetime.now().isoformat()] at the write of a given batch. *)
Variable now : nat -> string.

(** Lines 483-486: one photo of a batch. *)
Definition handle_photo (st : list PhotoRecord * gset string)
    (image_path : string) : list PhotoRecord * gset string :=
  let '(batch_results, processed_files) := st in
  match process_photo env image_path output_dir verbose with
  | Some result => (batch_results ++ [result], {[image_path]} ∪ processed_files)
  | None => st
  end.

(** Lines 474-498: one batch, with its checkpoint write.  The third
    component collects the checkpoints written so far. *)
Definition run_batch (image_files : list string) (batch_size : nat)
    (st : gset string * list PhotoRecord * list Checkpoint)
    (entry : nat * nat) : gset string * list PhotoRecord * list Checkpoint :=
  let '(processed_files, all_results, written) := st in
  let '(batch_idx, i) := entry in
  let batch := take batch_size (drop i image_files) in
  let batch :=
    List.filter (fun f => negb (bool_decide (f ∈ processed_files))) batch in
  match batch with
  | [] => st
  | _ :: _ =>
      let '(batch_results, processed_files) :=
        fold_left handle_photo batch ([], processed_files) in
      let all_results := all_results ++ batch_results in
      let checkpoint_data :=
        {| processed_files := elements processed_files;
           results := all_results;
           last_updated := now batch_idx;
           total_processed := Z.of_nat (length all_results) |} in
      (processed_files, all_results, written ++ [checkpoint_data])
  end.

(** Lines 472-498: the batch loop.  A zero batch size raises
    [ZeroDivisionError]; a negative one gives an empty range. *)
Definition run_batches (image_files : list string) (batch_size : Z)
    (init : gset string * list PhotoRecord)
  : option (gset string * list PhotoRecord * list Checkpoint) :=
  if batch_size =? 0 then None
  else if batch_size <? 0 then Some (init, [])
  else
    let step := Z.to_nat batch_size in
    Some (fold_left (run_batch image_files step)
                    (enumerate (range_step (length image_files) step))
                    (init, [])).

End BatchLoop.

(** *** Specification predicates *)

(** The records of [results] that belong to the path [p]. *)
Definition records_of (p : string) (results : list PhotoRecord)
  : list PhotoRecord :=
  List.filter (fun r => String.eqb (filepath r) p) results.

(** Lock-step of the processed set and the results: every processed path
    has exactly one record, and every record belongs to a processed
    path. *)
Definition lock_step (processed_files : gset string)
    (results : list PhotoRecord) : Prop :=
  (forall p, p ∈ processed_files -> length (records_of p results) = 1%nat) /\
  (forall r, In r results -> filepath r ∈ processed_files).

(** The same for a written checkpoint, whose processed paths are a JSON
    list. *)
Definition checkpoint_lock_step (c : Checkpoint) : Prop :=
  NoDup (processed_files c) /\
  lock_step (list_to_set (processed_files c)) (results c).

(** Invariant of the batch loop. *)
Definition loop_invariant
    (st : gset string * list PhotoRecord * list Checkpoint) : Prop :=
  lock_step st.1.1 st.1.2 /\ Forall checkpoint_lock_step st.2.

(** [representative_face] is a face of the cluster of highest
    [quality_score]. *)
Definition best_of (cluster : PersonCluster) : Prop :=
  In (representative_face cluster) (cluster_faces cluster) /\
  forall f, In f (cluster_faces cluster) ->
            (Face.quality_score f
             <= Face.quality_score (representative_face cluster))%Q.

(** *** Inputs for examples *)

(** Collaborators that fail on the path "bad.jpg" and find nothing in
    any other image. *)
Definition example_env : Collaborators :=
  {| image_size := fun p => if String.eqb p "bad.jpg" then None
                            else Some (640, 480);
     basename := fun p => p;
     detect_faces := fun _ => [];
     detect_persons := fun _ => [];
     hash_image := fun _ => Some ("00ff00ff00ff00ff", "0f0f0f0f0f0f0f0f");
     get_image_embedding := fun _ => [];
     get_face_encodings_for_photo := fun _ => [];
     detect_monochrome := fun _ => Some false |}.

(** A record with the given name, hashes, scene embedding and face
    encodings, and nothing else of interest. *)
Definition example_photo (name p d : string) (embedding : list float)
    (encodings : list FaceEncoding.t) : PhotoRecord :=
  {| filename := name;
     filepath := name;
     width := 1;
     height := 1;
     hashes := {| phash := p; dhash := d |};
     image_embedding := embedding;
     faces := [];
     face_encodings := encodings;
     persons := [];
     crops := ∅;
     is_monochrome := false |}.

Definition photo_with_hashes (name p d : string) : PhotoRecord :=
  example_photo name p d [] [].

(** A face encoding with a one-dimensional embedding and a quality. *)
Definition example_encoding (position quality : Q) : FaceEncoding.t :=
  {| FaceEncoding.embedding := [position];
     FaceEncoding.box := {| Box.x := 0; Box.y := 0;
                            Box.width := 10; Box.height := 10 |};
     FaceEncoding.confidence := 1%Q;
     FaceEncoding.quality_score := quality |}.

(** The distance of one-dimensional embeddings. *)
Definition example_distance (e1 e2 : list float) : float :=
  match e1, e2 with
  | [a], [b] => Qabs (a - b)
  | _, _ => 999%Q
  end.

End Pipeline.

(** ** Vocabulary of the further properties *)

(** Counting bits, to measure what [hamming_distance] returns. *)
Module Bits.

Import PerceptualHash.
Local Open Scope string_scope.
Local Open Scope Z_scope.

(** The number of one bits of a positive number. *)
Fixpoint popcount_pos (p : positive) : Z :=
  match p with
  | xH => 1
  | xO p' => popcount_pos p'
  | xI p' => 1 + popcount_pos p'
  end.

Definition popcount (n : N) : Z :=
  match n with N0 => 0 | Npos p => popcount_pos p end.

(** A string made of hexadecimal digits only. *)
Fixpoint hex_digits (s : string) : bool :=
  match s with
  | EmptyString => true
  | String c s' => (digit_value c <? 16) && hex_digits s'
  end.

(** The number that a string of hexadecimal digits writes. *)
Fixpoint hex_value (acc : Z) (s : string) : Z :=
  match s with
  | EmptyString => acc
  | String c s' => hex_value (acc * 16 + digit_value c) s'
  end.

End Bits.

(** What the passes of pipeline.py are measured by. *)
Module Outcomes.

Import PerceptualHash Float64 CropCalculator Pipeline.
Local Open Scope string_scope.
Local Open Scope Z_scope.
Local Open Scope list_scope.

(** The method that the priority order gives. *)
Definition expected_method (faces persons : list Detection.t) : string :=
  match faces, persons with
  | _ :: _, _ => "face"
  | [], _ :: _ => "person"
  | [], [] => "saliency"
  end.

(** The files that are still to be processed, in order (line 478). *)
Definition pending (processed : gset string) (image_files : list string)
  : list string :=
  List.filter (fun f => negb (bool_decide (f ∈ processed))) image_files.



(** A name of a record of [records] that is near [seed]. *)
Definition near_member (hash_threshold : Z) (seed : PhotoRecord)
    (records : list PhotoRecord) (name : string) : Prop :=
  exists r, In r records /\ filename r = name /\
            near_seed hash_threshold seed r = true.

(** A cluster made of a seed of [records] and of names near it, in the
    order of [records]. *)
Definition seeded_cluster (hash_threshold : Z) (records : list PhotoRecord)
    (cluster : list string) : Prop :=
  cluster `sublist_of` (filename <$> records) /\
  exists seed members,
    cluster = filename seed :: members /\ In seed records /\
    Forall (near_member hash_threshold seed records) members.

(** A cluster of faces gathered around its first face: the filenames
    follow the faces, and every later face is one of [all_faces] within
    the threshold of the first. *)
Definition around_first_face
    (face_distance : list float -> list float -> float) (thr : float)
    (all_faces : list Face.t) (c : PersonCluster) : Prop :=
  photo_filenames c = map Face.filename (cluster_faces c) /\
  exists seed members,
    cluster_faces c = seed :: members /\ In seed all_faces /\
    Forall (fun f => In f all_faces /\
                     (face_distance (Face.embedding seed) (Face.embedding f)
                      <= thr)%Q)
           members.

(** What the inner loop keeps of the cluster of [face1]. *)
Definition gathered
    (face_distance : list float -> list float -> float) (thr : float)
    (all_faces : list Face.t) (pid : Z) (face1 : Face.t)
    (c : PersonCluster) : Prop :=
  person_id c = pid /\
  photo_filenames c = map Face.filename (cluster_faces c) /\
  exists members,
    cluster_faces c = face1 :: members /\
    Forall (fun f => In f all_faces /\
                     (face_distance (Face.embedding face1) (Face.embedding f)
                      <= thr)%Q)
           members.

(** Clusters whose ids are their positions. *)
Definition numbered (clusters : list PersonCluster) : Prop :=
  map person_id clusters = map Z.of_nat (seq 0 (length clusters)).

(** The filenames of the labelled photos that carry the label [l], in
    order. *)
Definition names_with (l : Z) (labelled : list (Z * PhotoRecord))
  : list string :=
  map (fun lp => filename lp.2) (List.filter (fun lp => lp.1 =? l) labelled).

(** The groups of a labelling: one entry per label other than the noise
    label -1, holding the names with that label. *)
Definition grouped (labelled : list (Z * PhotoRecord))
    (clusters : list (Z * list string)) : Prop :=
  NoDup (map fst clusters) /\
  Forall (fun c => c.1 <> -1 /\ c.2 <> [] /\ c.2 = names_with c.1 labelled)
         clusters /\
  (forall lp, In lp labelled -> lp.1 <> -1 -> In lp.1 (map fst clusters)).

(** *** Inputs for examples *)

(** A clustering backend that labels three embeddings. *)
Definition example_labels (eps : float) (min_samples : Z)
    (embeddings : list (list float)) : option (list Z) :=
  Some [0; -1; 0].

End Outcomes.

(** ** pipeline.py: the entries of clusters.json *)

Module ClustersJson.

Import Pipeline.
Local Open Scope Z_scope.
Local Open Scope list_scope.

(** Lines 567-582 of [main]: an entry of clusters.json for a cluster of
    near-duplicates or for a scene. *)
Record ClusterEntry := {
  cluster_id : Z;
  entry_filenames : list string;
  representative_photo : string
}.

(** [cluster[0]] raises [IndexError] on an empty cluster. *)
Definition cluster_entry (entry : nat * list string) : option ClusterEntry :=
  let '(i, cluster) := entry in
  first ← head cluster;
  Some {| cluster_id := Z.of_nat i;
          entry_filenames := cluster;
          representative_photo := first |}.

Definition cluster_entries (clusters : list (list string))
  : option (list ClusterEntry) :=
  mapM cluster_entry (enumerate clusters).

End ClustersJson.

(** ** ml_services/face_detection.py, person_detection.py *)

Module Detectors.

Import Float64 CropCalculator.
Local Open Scope Z_scope.
Local Open Scope list_scope.

(** A face location of the face_recognition library:
    [(top, right, bottom, left)]. *)
Record Location := { top : Z; right : Z; bottom : Z; left : Z }.

Section Quality.

(** [x ** 2] on floats (the C library's [pow]) and [numpy.sqrt]; [None]
    stands for a result that is not a finite number. *)
Variable square : float -> option float.
Variable np_sqrt : float -> option float.

(** The distance of a centre from the centre of the image, relative to
    the sides of the image. *)
Definition distance_from_center (center_x center_y : float)
    (img_width img_height : Z) : option float :=
  half_width ← truediv img_width 2;
  dx ← fsub center_x half_width;
  w ← of_int img_width;
  rx ← fdiv dx w;
  sx ← square rx;
  half_height ← truediv img_height 2;
  dy ← fsub center_y half_height;
  h ← of_int img_height;
  ry ← fdiv dy h;
  sy ← square ry;
  s ← fadd sx sy;
  np_sqrt s.

(** face_detection.py, lines 67-102: the detection made of one face
    location; [None] when the arithmetic raises. *)
Definition face_of_location (loc : Location) (img_width img_height : Z)
  : option Detection.t :=
  let face_width := right loc - left loc in
  let face_height := bottom loc - top loc in
  let face_area := face_width * face_height in
  center_x ← truediv (left loc + right loc) 2;
  center_y ← truediv (top loc + bottom loc) 2;
  distance ← distance_from_center center_x center_y img_width img_height;
  ratio ← truediv face_area (img_width * img_height);
  shifted ← fsub ratio (lit (5 # 100));
  scaled ← fdiv shifted (lit (25 # 100));
  let area_score := min2 1%Q (max2 0%Q scaled) in
  area_part ← fmul area_score (lit (7 # 10));
  centrality ← fsub 1%Q (min2 1%Q distance);
  centrality_part ← fmul centrality (lit (3 # 10));
  quality_score ← fadd area_part centrality_part;
  Some {| Detection.box := {| Box.x := left loc; Box.y := top loc;
                              Box.width := face_width;
                              Box.height := face_height |};
          Detection.confidence := 1%Q;
          Detection.quality_score := quality_score |}.

(** face_detection.py, lines 194-228: the detection made of one
    MediaPipe bounding box; [score] is the score of the first category,
    if there is one. *)
Definition face_of_bounding_box (x y width height : Z) (score : option float)
    (img_width img_height : Z) : option Detection.t :=
  let face_area := width * height in
  ratio ← truediv face_area (img_width * img_height);
  let area_score := min2 1%Q ratio in
  half_width ← truediv width 2;
  center_x ← int_add_float x half_width;
  half_height ← truediv height 2;
  center_y ← int_add_float y half_height;
  distance ← distance_from_center center_x center_y img_width img_height;
  centrality_score ← fsub 1%Q (min2 1%Q distance);
  area_part ← fmul area_score (lit (7 # 10));
  centrality_part ← fmul centrality_score (lit (3 # 10));
  quality_score ← fadd area_part centrality_part;
  let confidence := default (lit (5 # 10)) score in
  Some {| Detection.box := {| Box.x := x; Box.y := y;
                              Box.width := width; Box.height := height |};
          Detection.confidence := confidence;
          Detection.quality_score := quality_score |}.

(** person_detection.py, lines 65-100: the detection made of one YOLO
    box of class person, given as its integer corner, its integer size
    and its confidence. *)
Definition person_of_box (x y width height : Z) (confidence : float)
    (img_width img_height : Z) : option Detection.t :=
  let person_area := width * height in
  ratio ← truediv person_area (img_width * img_height);
  let area_score := min2 1%Q ratio in
  half_width ← truediv width 2;
  center_x ← int_add_float x half_width;
  half_height ← truediv height 2;
  center_y ← int_add_float y half_height;
  distance ← distance_from_center center_x center_y img_width img_height;
  centrality_score ← fsub 1%Q (min2 1%Q distance);
  area_part ← fmul area_score (lit (6 # 10));
  centrality_part ← fmul centrality_score (lit (3 # 10));
  sum ← fadd area_part centrality_part;
  confidence_part ← fmul confidence (lit (1 # 10));
  quality_score ← fadd sum confidence_part;
  Some {| Detection.box := {| Box.x := x; Box.y := y;
                              Box.width := width; Box.height := height |};
          Detection.confidence := confidence;
          Detection.quality_score := quality_score |}.

(** face_detection.py, lines 161-238: [_detect_faces_mediapipe].
    [imported] is false when the MediaPipe imports raise [ImportError],
    [model_exists] tells whether the model file is there, and [detected]
    holds the bounding boxes of the detector with the sides of the
    image, or [None] when loading or detecting raised.  An exception in
    the loop gives the empty list as well. *)
Definition detect_faces_mediapipe (imported model_exists : bool)
    (detected : option (list (Z * Z * Z * Z * option float) * Z * Z))
  : list Detection.t :=
  if negb imported then []
  else if negb model_exists then []
  else
    match detected with
    | None => []
    | Some (boxes, img_width, img_height) =>
        default []
          (mapM (fun '(x, y, width, height, score) =>
                   face_of_bounding_box x y width height score
                                        img_width img_height)
                boxes)
    end.

(** face_detection.py, lines 30-119: [detect_faces].  [located] holds
    the face locations with the sides of the image, or [None] when a
    face_recognition call raised; [mediapipe] is what
    [_detect_faces_mediapipe] returns for the image. *)
Definition detect_faces (face_recognition_available mediapipe_available : bool)
    (located : option (list Location * Z * Z))
    (mediapipe : list Detection.t) : list Detection.t :=
  let fallback := if mediapipe_available then mediapipe else [] in
  if face_recognition_available then
    match located with
    | Some (loc :: locs, img_width, img_height) =>
        match mapM (fun l => face_of_location l img_width img_height)
                   (loc :: locs) with
        | Some results => results
        | None => fallback
        end
    | Some ([], _, _) => fallback
    | None => fallback
    end
  else fallback.

(** person_detection.py, lines 27-106: [detect_persons].  [inferred]
    holds the boxes of the model, each with its class, its integer
    corner and size and its confidence, and the sides of the image, or
    [None] when the model or the image raised. *)
Definition detect_persons
    (inferred : option (list (Z * (Z * Z * Z * Z) * float) * Z * Z))
  : list Detection.t :=
  match inferred with
  | None => []
  | Some (boxes, img_width, img_height) =>
      default []
        (mapM (fun '(cls, (x, y, width, height), confidence) =>
                 person_of_box x y width height confidence
                               img_width img_height)
              (List.filter (fun b => b.1.1 =? 0) boxes))
  end.

End Quality.

(** ** ml_services/face_embeddings.py *)

(** face_embeddings.py, lines 33-42: the locations that are handed to
    the encoder. *)
Definition location_of_box (box : Box.t) : Location :=
  {| top := Box.y box;
     right := Box.x box + Box.width box;
     bottom := Box.y box + Box.height box;
     left := Box.x box |}.

Definition face_locations (face_detections : list Detection.t)
  : list Location :=
  map (fun detection => location_of_box (Detection.box detection))
      face_detections.

(** face_embeddings.py, lines 49-57: the body of the loop that combines
    encoding [i] with detection [i]. *)
Definition combine (face_detections : list Detection.t)
    (entry : nat * list float) : option FaceEncoding.t :=
  let '(i, encoding) := entry in
  if (i <? length face_detections)%nat then
    detection ← face_detections !! i;
    Some {| FaceEncoding.embedding := encoding;
            FaceEncoding.box := Detection.box detection;
            FaceEncoding.confidence := Detection.confidence detection;
            FaceEncoding.quality_score := Detection.quality_score detection |}
  else None.

(** face_embeddings.py, lines 11-63: [get_face_encodings_for_photo],
    over what [detect_faces] returned for the photo and over
    [get_face_embeddings] for the photo. *)
Definition get_face_encodings_for_photo (face_detections : list Detection.t)
    (get_face_embeddings : option (list Location) -> list (list float))
  : list FaceEncoding.t :=
  match face_detections with
  | [] => []
  | _ :: _ =>
      let face_encodings :=
        get_face_embeddings (Some (face_locations face_detections)) in
      omap (combine face_detections) (Pipeline.enumerate face_encodings)
  end.

(** The detection that an encoding of the result came with. *)
Definition detection_of (e : FaceEncoding.t) : Detection.t :=
  {| Detection.box := FaceEncoding.box e;
     Detection.confidence := FaceEncoding.confidence e;
     Detection.quality_score := FaceEncoding.quality_score e |}.

(** *** Specification vocabulary *)

(** The box of a face location. *)
Definition box_of_location (loc : Location) : Box.t :=
  {| Box.x := left loc; Box.y := top loc;
     Box.width := right loc - left loc;
     Box.height := bottom loc - top loc |}.

(** A face location that lies inside the image. *)
Definition location_inside (loc : Location) (w h : Z) : Prop :=
  0 <= left loc <= right loc /\ right loc <= w /\
  0 <= top loc <= bottom loc /\ bottom loc <= h.

(** A detection that the crop calculator can take: in range, with its
    box inside the image. *)
Definition usable (w h : Z) (d : Detection.t) : Prop :=
  detection_in_range d /\ box_inside (Detection.box d) w h.

(** A MediaPipe bounding box, with its score, that lies inside the
    image. *)
Definition bounding_box_inside (w h : Z)
    (b : Z * Z * Z * Z * option float) : Prop :=
  let '(x, y, width, height, score) := b in
  0 <= x /\ 0 <= y /\ 0 <= width /\ 0 <= height /\
  x + width <= w /\ y + height <= h /\
  forall s, score = Some s -> unit_interval s.

(** A box of the person detector that lies inside the image. *)
Definition person_box_inside (w h : Z)
    (b : Z * (Z * Z * Z * Z) * float) : Prop :=
  let '(cls, (x, y, width, height), confidence) := b in
  0 <= x /\ 0 <= y /\ 0 <= width /\ 0 <= height /\
  x + width <= w /\ y + height <= h /\ unit_interval confidence.

(** What the libraries hand to the detectors lies inside an image of
    sides [w] and [h]. *)
Definition located_inside (w h : Z)
    (located : option (list Location * Z * Z)) : Prop :=
  match located with
  | Some (locs, img_width, img_height) =>
      img_width = w /\ img_height = h /\
      Forall (fun loc => location_inside loc w h) locs
  | None => True
  end.

Definition detected_inside (w h : Z)
    (detected : option (list (Z * Z * Z * Z * option float) * Z * Z))
  : Prop :=
  match detected with
  | Some (boxes, img_width, img_height) =>
      img_width = w /\ img_height = h /\
      Forall (bounding_box_inside w h) boxes
  | None => True
  end.

Definition inferred_inside (w h : Z)
    (inferred : option (list (Z * (Z * Z * Z * Z) * float) * Z * Z))
  : Prop :=
  match inferred with
  | Some (boxes, img_width, img_height) =>
      img_width = w /\ img_height = h /\
      Forall (person_box_inside w h) (List.filter (fun b => b.1.1 =? 0) boxes)
  | None => True
  end.

(** What the theorems take of [x ** 2] and of [numpy.sqrt]: the square
    of a number of [-1, 1] is a number of [0, 1]; a square root is
    never negative, and numbers of [0, 2] have one. *)
Definition squares (square : float -> option float) : Prop :=
  forall x, (-1 <= x <= 1)%Q -> exists r, square x = Some r /\ unit_interval r.
Definition square_roots (np_sqrt : float -> option float) : Prop :=
  (forall x r, np_sqrt x = Some r -> (0 <= r)%Q) /\
  (forall x, (0 <= x <= 2)%Q -> is_Some (np_sqrt x)).

(** *** Inputs for examples *)

(** The square of a float, correctly rounded. *)
Definition rounded_square (x : float) : option float := fl (x * x).

(** The square root of a float, rounded down to a multiple of
    [2^-52]. *)
Definition sqrt_down (x : float) : option float :=
  if Qle_bool 0 x
  then fl (inject_Z (Z.sqrt (Qfloor (x * inject_Z (2 ^ 104))))
           / inject_Z (2 ^ 52))
  else None.

Definition example_location : Location :=
  {| top := 400; right := 1800; bottom := 1000; left := 1200 |}.

Definition example_bounding_box : Z * Z * Z * Z * option float :=
  (1200, 400, 600, 600, None).

Definition example_person_boxes : list (Z * (Z * Z * Z * Z) * float) :=
  [(0, (1000, 300, 900, 1600), 1 # 2); (16, (100, 1500, 400, 300), 3 # 4)].

End Detectors.

(** ** pipeline.py: [find_image_files] *)

Module ImageFiles.

Local Open Scope string_scope.
Local Open Scope Z_scope.
Local Open Scope list_scope.

(** What [dir_path.iterdir()] gives: the entries, [PermissionError], or
    another error. *)
Inductive Listing (A : Type) :=
| Listed (entries : list A)
| PermissionDenied
| Unreadable.
Arguments Listed {A} entries.
Arguments PermissionDenied {A}.
Arguments Unreadable {A}.

#[local] Set Warnings "-register-all".

(** An entry of a directory, with what the function reads of it:
    [entry.name], [str(entry)], [entry.suffix], and for a file the sides
    of the image that [Image.open] gives, [None] when it raises, and
    for a directory what [iterdir] gives.  [Other] is an entry that is
    neither a file nor a directory. *)
Inductive Entry :=
| File (name path suffix : string) (image : option (Z * Z))
| Directory (name : string) (listing : Listing Entry)
| Other (name : string).

Definition name (entry : Entry) : string :=
  match entry with
  | File name _ _ _ => name
  | Directory name _ => name
  | Other name => name
  end.

(** Line 54: macOS metadata files. *)
Definition is_metadata (entry_name : string) : bool :=
  String.prefix "._" entry_name || String.eqb entry_name ".DS_Store".

(** Line 64. *)
Definition image_extensions : list string :=
  [".jpg"; ".jpeg"; ".png"; ".tiff"; ".tif"].

(** Lines 67-69: the image opens and has valid sides. *)
Definition valid_image (image : option (Z * Z)) : bool :=
  match image with
  | Some (width, height) => (0 <? width) && (0 <? height)
  | None => false
  end.

(** Lines 71-73; an empty set is as good as none. *)
Definition skipped (skip_existing : bool)
    (existing_filenames : option (gset string)) (entry_name : string) : bool :=
  skip_existing
  && match existing_filenames with
     | Some names =>
         negb (bool_decide (names = ∅)) && bool_decide (entry_name ∈ names)
     | None => false
     end.

Section FindImageFiles.

(** [str.lower] *)
Variable lower : string -> string.

Variables recursive skip_existing : bool.
Variable existing_filenames : option (gset string).

(** Lines 62-74: whether a file is appended. *)
Definition kept (entry_name suffix : string) (image : option (Z * Z)) : bool :=
  bool_decide (lower suffix ∈ image_extensions)
  && valid_image image
  && negb (skipped skip_existing existing_filenames entry_name).

(** Lines 27-79; [None] is an exception that leaves the function. *)
Fixpoint find_image_files (dir_path : Entry) : option (list string) :=
  match dir_path with
  | Directory _ PermissionDenied => Some []
  | Directory _ (Listed entries) =>
      (fix scan (entries : list Entry) : option (list string) :=
         match entries with
         | [] => Some []
         | entry :: rest =>
             if is_metadata (name entry) then scan rest
             else
               match entry with
               | Directory _ _ =>
                   if recursive then
                     sub_files ← find_image_files entry;
                     files ← scan rest;
                     Some (sub_files ++ files)
                   else scan rest
               | File entry_name path suffix image =>
                   if kept entry_name suffix image
                   then files ← scan rest; Some (path :: files)
                   else scan rest
               | Other _ => scan rest
               end
         end) entries
  | _ => None
  end.

End FindImageFiles.

(** The entries that the search comes by below a directory: those of
    its listing other than metadata and, when the search is recursive,
    those it comes by below one of them. *)
Inductive visited (recursive : bool) : Entry -> Entry -> Prop :=
| visited_entry dir_name entries entry :
    In entry entries -> is_metadata (name entry) = false ->
    visited recursive (Directory dir_name (Listed entries)) entry
| visited_below dir_name entries sub entry :
    recursive = true ->
    In sub entries -> is_metadata (name sub) = false ->
    visited recursive sub entry ->
    visited recursive (Directory dir_name (Listed entries)) entry.

(** A file that the search is to return: an image by its extension,
    that opens with valid sides, and that is not to be skipped as
    existing. *)
Definition wanted (lower : string -> string) (skip_existing : bool)
    (existing_filenames : option (gset string))
    (entry_name suffix : string) (image : option (Z * Z)) : Prop :=
  lower suffix ∈ image_extensions /\
  (exists width height, image = Some (width, height) /\
                        0 < width /\ 0 < height) /\
  (skip_existing = true ->
   forall names, existing_filenames = Some names -> names <> ∅ ->
                 entry_name ∉ names).

(** *** Inputs for examples *)

(** [str.lower] on ASCII letters. *)
Fixpoint ascii_lower (s : string) : string :=
  match s with
  | EmptyString => EmptyString
  | String c rest =>
      String (if (65 <=? nat_of_ascii c)%nat && (nat_of_ascii c <=? 90)%nat
              then ascii_of_nat (nat_of_ascii c + 32) else c)
             (ascii_lower rest)
  end.

Definition example_tree : Entry :=
  Directory "photos"
    (Listed
       [File "a.JPG" "photos/a.JPG" ".JPG" (Some (3000, 2000));
        File "._a.JPG" "photos/._a.JPG" ".JPG" None;
        File "clip.mov" "photos/clip.mov" ".mov" None;
        Directory "day2"
          (Listed [File "b.png" "photos/day2/b.png" ".png" (Some (800, 600));
                   File "c.tif" "photos/day2/c.tif" ".tif" None]);
        Directory "private" PermissionDenied;
        File "d.jpeg" "photos/d.jpeg" ".jpeg" (Some (640, 480))]).

End ImageFiles.

(* ================================================================== *)
(** * Part II: properties *)
(* ================================================================== *)

(** ** Binary64 rounding *)

Module Float64Facts.

Import Float64.
Local Open Scope Q_scope.

(** *** Powers of two and the binary logarithm *)

Lemma two_neq_0 : ~ 2 == 0.
Proof. discriminate. Qed.

Lemma pow2_pos e : 0 < pow2 e.
Proof. apply Qpower_0_lt. reflexivity. Qed.

Lemma pow2_add a b : pow2 (a + b) == pow2 a * pow2 b.
Proof. apply Qpower_plus, two_neq_0. Qed.

Lemma pow2_sub a b : pow2 (a - b) == pow2 a / pow2 b.
Proof. apply Qpower_minus, two_neq_0. Qed.

Lemma pow2_succ a : pow2 (a + 1) == 2 * pow2 a.
Proof. rewrite pow2_add. unfold pow2 at 2. simpl. ring. Qed.

Lemma pow2_le a b : (a <= b)%Z -> pow2 a <= pow2 b.
Proof. intros H. apply Qpower_le_compat_l; [exact H|discriminate]. Qed.

Lemma pow2_lt a b : (a < b)%Z -> pow2 a < pow2 b.
Proof. intros H. apply Qpower_lt_compat_l; [exact H|reflexivity]. Qed.

Lemma pow2_lt_inv a b : pow2 a < pow2 b -> (a < b)%Z.
Proof. intros H. apply (Qpower_lt_compat_l_inv 2); [exact H|reflexivity]. Qed.

Lemma pow2_inject e : (0 <= e)%Z -> pow2 e == inject_Z (2 ^ e).
Proof. intros H. unfold pow2. now rewrite Zpower_Qpower. Qed.

Lemma Zlog2_pow2_bounds n :
  (0 < n)%Z -> pow2 (Z.log2 n) <= inject_Z n < pow2 (Z.log2 n + 1).
Proof.
  intros Hn. pose proof (Z.log2_nonneg n) as H0.
  destruct (Z.log2_spec n Hn) as [Hlo Hhi].
  rewrite !pow2_inject by lia. rewrite <- Zle_Qle, <- Zlt_Qlt.
  split; [exact Hlo|]. now rewrite <- Z.add_1_r in Hhi.
Qed.

Lemma Qabs_as_fraction x :
  Qabs x == inject_Z (Z.abs (Qnum x)) / inject_Z (Zpos (Qden x)).
Proof.
  destruct x as [n d]. unfold Qabs. simpl.
  rewrite (Qmake_Qdiv (Z.abs n) d). reflexivity.
Qed.

Lemma Qdiv_le_cross a b n d :
  0 < b -> 0 < d -> a * d <= n * b -> a / b <= n / d.
Proof.
  intros Hb Hd H. apply Qle_shift_div_l; trivial.
  assert (E : a / b * d == a * d / b) by (field; lra). rewrite E.
  apply Qle_shift_div_r; trivial.
Qed.

Lemma Qdiv_lt_cross a b n d :
  0 < b -> 0 < d -> a * d < n * b -> a / b < n / d.
Proof.
  intros Hb Hd H. apply Qlt_shift_div_l; trivial.
  assert (E : a / b * d == a * d / b) by (field; lra). rewrite E.
  apply Qlt_shift_div_r; trivial.
Qed.

Lemma cross_lo A B N D :
  0 < A -> 0 < B -> A <= N -> D < 2 * B -> 0 < D -> A * D <= N * (2 * B).
Proof. intros. nra. Qed.

Lemma cross_hi A B N D :
  0 < A -> 0 < B -> N < 2 * A -> B <= D -> 0 < D -> N * B < 2 * A * D.
Proof.
  intros. assert (N * B < 2 * A * B) by nra.
  assert (2 * A * B <= 2 * A * D) by nra. lra.
Qed.

Lemma ilog2_spec x :
  ~ x == 0 -> pow2 (ilog2 x) <= Qabs x < pow2 (ilog2 x + 1).
Proof.
  intros Hx. unfold ilog2.
  set (n := Z.abs (Qnum x)). set (d := Zpos (Qden x)).
  assert (Hn : (0 < n)%Z).
  { subst n. destruct x as [[|p|p] q]; simpl; try lia.
    exfalso. apply Hx. reflexivity. }
  assert (Hd : (0 < d)%Z) by (subst d; lia).
  destruct (Zlog2_pow2_bounds n Hn) as [Hnlo Hnhi].
  destruct (Zlog2_pow2_bounds d Hd) as [Hdlo Hdhi].
  set (ln := Z.log2 n) in *. set (ld := Z.log2 d) in *.
  assert (Habs : Qabs x == inject_Z n / inject_Z d) by apply Qabs_as_fraction.
  assert (Hdq : 0 < inject_Z d) by (rewrite <- (Zlt_Qlt 0); exact Hd).
  rewrite pow2_succ in Hnhi, Hdhi.
  pose proof (pow2_pos ln) as Hpn. pose proof (pow2_pos ld) as Hpd.
  assert (Hmid : pow2 (ln - ld) == pow2 ln / pow2 ld) by apply pow2_sub.
  assert (Hlow : pow2 (ln - ld - 1) <= Qabs x).
  { assert (E : pow2 (ln - ld - 1) == pow2 ln / (2 * pow2 ld)).
    { replace (ln - ld - 1)%Z with (ln - (ld + 1))%Z by lia.
      now rewrite pow2_sub, pow2_succ. }
    rewrite E, Habs. apply Qdiv_le_cross; [lra|trivial|].
    apply cross_lo; trivial. }
  assert (Hhigh : Qabs x < pow2 (ln - ld + 1)).
  { assert (E : pow2 (ln - ld + 1) == 2 * pow2 ln / pow2 ld).
    { replace (ln - ld + 1)%Z with (ln + 1 - ld)%Z by lia.
      now rewrite pow2_sub, pow2_succ. }
    rewrite E, Habs. apply Qdiv_lt_cross; [trivial|trivial|].
    apply cross_hi; trivial. }
  destruct (Qle_bool (pow2 (ln - ld)) (Qabs x)) eqn:E.
  - apply Qle_bool_iff in E. split; trivial.
  - split.
    + exact Hlow.
    + replace (ln - ld - 1 + 1)%Z with (ln - ld)%Z by lia.
      apply Qnot_le_lt. intros H. apply Qle_bool_iff in H. congruence.
Qed.

Lemma ilog2_unique x k :
  pow2 k <= Qabs x < pow2 (k + 1) -> ilog2 x = k.
Proof.
  intros [Hlo Hhi].
  assert (Hx : ~ x == 0).
  { intros H. rewrite H in Hlo. change (Qabs 0) with 0 in Hlo.
    pose proof (pow2_pos k). lra. }
  destruct (ilog2_spec x Hx) as [Hlo' Hhi'].
  assert (ilog2 x < k + 1)%Z by (apply pow2_lt_inv; lra).
  assert (k < ilog2 x + 1)%Z by (apply pow2_lt_inv; lra).
  lia.
Qed.

Lemma Qabs_zero_iff x : Qabs x == 0 <-> x == 0.
Proof.
  split; intros H; [|now rewrite H].
  destruct (Qlt_le_dec x 0) as [Hneg|Hpos].
  - rewrite Qabs_neg in H by lra. lra.
  - rewrite Qabs_pos in H by lra. exact H.
Qed.

Lemma ilog2_le x y :
  ~ x == 0 -> Qabs x <= Qabs y -> (ilog2 x <= ilog2 y)%Z.
Proof.
  intros Hx Hxy.
  assert (Hy : ~ y == 0).
  { intros H. apply Hx, Qabs_zero_iff. rewrite H in Hxy.
    change (Qabs 0) with 0 in Hxy. pose proof (Qabs_nonneg x). lra. }
  destruct (ilog2_spec x Hx) as [Hlo _].
  destruct (ilog2_spec y Hy) as [_ Hhi].
  assert (ilog2 x < ilog2 y + 1)%Z by (apply pow2_lt_inv; lra).
  lia.
Qed.

Lemma ilog2_eq x y : ~ x == 0 -> x == y -> ilog2 x = ilog2 y.
Proof.
  intros Hx Hxy. symmetry. apply ilog2_unique. rewrite <- Hxy.
  now apply ilog2_spec.
Qed.

Lemma ilog2_opp x : ilog2 (- x) = ilog2 x.
Proof. destruct x as [n d]. unfold ilog2. simpl. now rewrite Z.abs_opp. Qed.

Lemma ilog2_pow2 k : ilog2 (pow2 k) = k.
Proof.
  apply ilog2_unique. pose proof (pow2_pos k).
  rewrite Qabs_pos by lra. split; [lra|]. apply pow2_lt. lia.
Qed.

(** *** Rounding to the nearest integer *)

#[global] Instance round_half_even_proper : Proper (Qeq ==> eq) round_half_even.
Proof.
  intros x y Hxy. unfold round_half_even.
  rewrite (Qfloor_comp _ _ Hxy).
  assert (E : x - inject_Z (Qfloor y) == y - inject_Z (Qfloor y))
    by now rewrite Hxy.
  now rewrite (Qcompare_comp _ _ E _ _ (Qeq_refl (1 # 2))).
Qed.

Lemma round_half_even_cases x :
  let f := Qfloor x in
  (x - inject_Z f < 1 # 2 /\ round_half_even x = f) \/
  (1 # 2 < x - inject_Z f /\ round_half_even x = (f + 1)%Z) \/
  (x - inject_Z f == 1 # 2 /\
   round_half_even x = (if Z.even f then f else f + 1)%Z).
Proof.
  intros f. unfold round_half_even. fold f.
  destruct (Qcompare_spec (x - inject_Z f) (1 # 2)) as [H|H|H]; auto.
Qed.

Lemma floor_bounds x :
  inject_Z (Qfloor x) <= x < inject_Z (Qfloor x) + 1.
Proof.
  split; [apply Qfloor_le|].
  pose proof (Qlt_floor x) as H. rewrite inject_Z_plus in H. exact H.
Qed.

Lemma round_half_even_error x :
  inject_Z (round_half_even x) - (1 # 2) <= x
  /\ x <= inject_Z (round_half_even x) + (1 # 2).
Proof.
  pose proof (floor_bounds x) as [Hlo Hhi].
  destruct (round_half_even_cases x) as [[H ->]|[[H ->]|[H ->]]].
  - lra.
  - rewrite inject_Z_plus. change (inject_Z 1) with 1. lra.
  - destruct (Z.even (Qfloor x)).
    + lra.
    + rewrite inject_Z_plus. change (inject_Z 1) with 1. lra.
Qed.

Lemma round_half_even_inject n : round_half_even (inject_Z n) = n.
Proof.
  pose proof (floor_bounds (inject_Z n)) as [Hlo Hhi].
  assert (Hf : Qfloor (inject_Z n) = n) by apply Qfloor_Z.
  destruct (round_half_even_cases (inject_Z n)) as [[H ->]|[[H ->]|[H ->]]];
    rewrite Hf in *; trivial; lra.
Qed.

Lemma Zlt_Qlt_succ a b : inject_Z a < inject_Z b + 1 -> (a <= b)%Z.
Proof.
  intros H. change 1 with (inject_Z 1) in H. rewrite <- inject_Z_plus in H.
  rewrite <- Zlt_Qlt in H. lia.
Qed.

Lemma round_half_even_mono x y :
  x <= y -> (round_half_even x <= round_half_even y)%Z.
Proof.
  intros Hxy.
  pose proof (floor_bounds x) as [Hxlo Hxhi].
  pose proof (floor_bounds y) as [Hylo Hyhi].
  assert (Hf : (Qfloor x <= Qfloor y)%Z) by now apply Qfloor_resp_le.
  destruct (Z.eq_dec (Qfloor x) (Qfloor y)) as [E|E].
  - destruct (round_half_even_cases x) as [[Hx ->]|[[Hx ->]|[Hx ->]]];
      destruct (round_half_even_cases y) as [[Hy ->]|[[Hy ->]|[Hy ->]]];
      rewrite E in *; try lia; try lra;
      destruct (Z.even (Qfloor y)); lia.
  - assert (Qfloor x + 1 <= Qfloor y)%Z by lia.
    destruct (round_half_even_cases x) as [[Hx ->]|[[Hx ->]|[Hx ->]]];
      destruct (round_half_even_cases y) as [[Hy ->]|[[Hy ->]|[Hy ->]]];
      try lia; destruct (Z.even (Qfloor x)); try destruct (Z.even (Qfloor y)); lia.
Qed.

Lemma round_half_even_le_int x n :
  x <= inject_Z n -> (round_half_even x <= n)%Z.
Proof.
  intros H. rewrite <- (round_half_even_inject n).
  now apply round_half_even_mono.
Qed.

Lemma round_half_even_ge_int x n :
  inject_Z n <= x -> (n <= round_half_even x)%Z.
Proof.
  intros H. rewrite <- (round_half_even_inject n).
  now apply round_half_even_mono.
Qed.

Lemma inject_Z_minus a b : inject_Z (a - b) == inject_Z a - inject_Z b.
Proof. unfold Z.sub. rewrite inject_Z_plus, inject_Z_opp. ring. Qed.

Lemma round_half_even_unique x n :
  inject_Z n - (1 # 2) <= x -> x <= inject_Z n + (1 # 2) ->
  (x == inject_Z n - (1 # 2) \/ x == inject_Z n + (1 # 2) -> Z.even n = true) ->
  round_half_even x = n.
Proof.
  intros Hlo Hhi Htie.
  pose proof (floor_bounds x) as [Hflo Hfhi].
  assert (Hf : (Qfloor x = n \/ Qfloor x = n - 1)%Z).
  { assert (inject_Z (Qfloor x) < inject_Z n + 1) by lra.
    assert (inject_Z (n - 1) < inject_Z (Qfloor x) + 1).
    { rewrite inject_Z_minus. change (inject_Z 1) with 1. lra. }
    apply Zlt_Qlt_succ in H, H0. lia. }
  destruct (round_half_even_cases x) as [[H ->]|[[H ->]|[H ->]]];
    destruct Hf as [Hf|Hf]; rewrite Hf in *; trivial; try lia.
  - exfalso. rewrite inject_Z_minus in H. change (inject_Z 1) with 1 in H. lra.
  - exfalso. lra.
  - rewrite Htie; trivial. right. lra.
  - rewrite inject_Z_minus in H. change (inject_Z 1) with 1 in H.
    assert (E : Z.even n = true) by (apply Htie; left; lra).
    replace n with (Z.succ (n - 1)) in E by lia. rewrite Z.even_succ in E.
    rewrite <- Z.negb_even in E. destruct (Z.even (n - 1)); [discriminate|lia].
Qed.

Lemma round_half_even_tie_even x :
  (x == inject_Z (round_half_even x) - (1 # 2) \/
   x == inject_Z (round_half_even x) + (1 # 2)) ->
  Z.even (round_half_even x) = true.
Proof.
  pose proof (floor_bounds x) as [Hflo Hfhi].
  destruct (round_half_even_cases x) as [[H E]|[[H E]|[H E]]]; rewrite E.
  - intros [T|T]; exfalso; lra.
  - rewrite inject_Z_plus. change (inject_Z 1) with 1.
    intros [T|T]; exfalso; lra.
  - destruct (Z.even (Qfloor x)) eqn:Ev; trivial.
    intros _. rewrite Z.add_1_r, Z.even_succ, <- Z.negb_even, Ev. reflexivity.
Qed.

Lemma round_half_even_opp x :
  round_half_even (- x) = (- round_half_even x)%Z.
Proof.
  pose proof (round_half_even_error x) as [Hlo Hhi].
  apply round_half_even_unique.
  - rewrite inject_Z_opp. lra.
  - rewrite inject_Z_opp. lra.
  - rewrite inject_Z_opp, Z.even_opp. intros T.
    apply round_half_even_tie_even. destruct T as [T|T]; [right|left]; lra.
Qed.

(** *** Rounding to binary64 *)

Lemma round_ne_zero x : x == 0 -> round_ne x = 0.
Proof.
  intros H. unfold round_ne.
  apply Qeq_bool_iff in H. now rewrite H.
Qed.

Lemma round_ne_nonzero x :
  ~ x == 0 ->
  round_ne x
  == inject_Z (round_half_even (x / pow2 (ulp_exp x))) * pow2 (ulp_exp x).
Proof.
  intros H. unfold round_ne.
  destruct (Qeq_bool x 0) eqn:E.
  - apply Qeq_bool_iff in E. contradiction.
  - apply Qred_correct.
Qed.

#[global] Instance round_ne_proper : Proper (Qeq ==> eq) round_ne.
Proof.
  intros x y Hxy. unfold round_ne.
  destruct (Qeq_bool x 0) eqn:Ex.
  - apply Qeq_bool_iff in Ex. rewrite Hxy in Ex.
    apply Qeq_bool_iff in Ex. now rewrite Ex.
  - assert (Hx : ~ x == 0).
    { intros H. apply Qeq_bool_iff in H. congruence. }
    assert (Ey : Qeq_bool y 0 = false).
    { destruct (Qeq_bool y 0) eqn:E; trivial.
      apply Qeq_bool_iff in E. rewrite <- Hxy in E. contradiction. }
    rewrite Ey. unfold ulp_exp. rewrite (ilog2_eq x y Hx Hxy).
    apply Qred_complete. now rewrite Hxy.
Qed.

Lemma ulp_exp_opp x : ulp_exp (- x) = ulp_exp x.
Proof. unfold ulp_exp. now rewrite ilog2_opp. Qed.

Lemma round_ne_opp x : round_ne (- x) == - round_ne x.
Proof.
  destruct (Qeq_dec x 0) as [Hx|Hx].
  - rewrite (round_ne_zero x Hx), (round_ne_zero (- x)); [reflexivity|].
    rewrite Hx. reflexivity.
  - assert (Hx' : ~ - x == 0) by (intros H; apply Hx; lra).
    rewrite (round_ne_nonzero _ Hx), (round_ne_nonzero _ Hx'), ulp_exp_opp.
    assert (E : - x / pow2 (ulp_exp x) == - (x / pow2 (ulp_exp x))).
    { field. pose proof (pow2_pos (ulp_exp x)). lra. }
    rewrite E, round_half_even_opp, inject_Z_opp. ring.
Qed.

Lemma Qabs_mult_pow2 m e :
  Qabs (inject_Z m * pow2 e) == inject_Z (Z.abs m) * pow2 e.
Proof.
  rewrite Qabs_Qmult. pose proof (pow2_pos e).
  rewrite (Qabs_pos (pow2 e)) by lra.
  apply Qmult_comp; [|reflexivity].
  unfold Qabs, inject_Z. reflexivity.
Qed.

(** A dyadic number with a 53-bit mantissa and an exponent in range is
    a double: rounding leaves it unchanged. *)
Lemma round_ne_exact m e :
  (Z.abs m < 2 ^ 53)%Z -> (emin <= e)%Z ->
  round_ne (inject_Z m * pow2 e) == inject_Z m * pow2 e.
Proof.
  intros Hm He. set (x := inject_Z m * pow2 e).
  pose proof (pow2_pos e) as Hpe.
  destruct (Z.eq_dec m 0%Z) as [->|Hm0].
  { rewrite (round_ne_zero x); subst x; ring. }
  assert (Hx : ~ x == 0).
  { subst x. intros H. apply Qmult_integral in H. destruct H as [H|H]; [|lra].
    apply Hm0. unfold Qeq in H. simpl in H. lia. }
  rewrite (round_ne_nonzero x Hx).
  set (E := ulp_exp x).
  assert (HE : (E <= e)%Z).
  { subst E. unfold ulp_exp. apply Z.max_lub; [|exact He].
    destruct (ilog2_spec x Hx) as [Hlo _].
    assert (Hlt : pow2 (ilog2 x) < pow2 (53 + e)).
    { eapply Qle_lt_trans; [exact Hlo|]. subst x.
      rewrite Qabs_mult_pow2, pow2_add, (pow2_inject 53) by lia.
      apply Qmult_lt_compat_r; trivial. now rewrite <- Zlt_Qlt. }
    apply pow2_lt_inv in Hlt. unfold prec. lia. }
  assert (Hz : x / pow2 E == inject_Z (m * 2 ^ (e - E))).
  { subst x. rewrite inject_Z_mult, <- pow2_inject by lia.
    rewrite pow2_sub. field. pose proof (pow2_pos E). lra. }
  rewrite Hz, round_half_even_inject, inject_Z_mult, <- pow2_inject by lia.
  subst x. rewrite pow2_sub. field. pose proof (pow2_pos E). lra.
Qed.

Lemma round_ne_int n :
  (Z.abs n < 2 ^ 53)%Z -> round_ne (inject_Z n) == inject_Z n.
Proof.
  intros Hn.
  assert (E : inject_Z n == inject_Z n * pow2 0) by (unfold pow2; simpl; ring).
  rewrite (round_ne_proper _ _ E), round_ne_exact; trivial.
  - now symmetry.
  - unfold emin, emax, prec. lia.
Qed.

Lemma round_ne_pow2 k : (emin <= k)%Z -> round_ne (pow2 k) == pow2 k.
Proof.
  intros Hk.
  assert (E : pow2 k == inject_Z 1 * pow2 k) by ring.
  rewrite (round_ne_proper _ _ E), round_ne_exact; trivial.
  - now symmetry.
  - reflexivity.
Qed.

(** Powers of two fence the rounding from both sides. *)
Lemma round_ne_le_pow2 x K :
  0 < x -> x <= pow2 K -> (ulp_exp x <= K)%Z -> round_ne x <= pow2 K.
Proof.
  intros Hx Hle HK.
  rewrite round_ne_nonzero by lra.
  set (E := ulp_exp x) in *. pose proof (pow2_pos E) as HpE.
  assert (Hz : x / pow2 E <= inject_Z (2 ^ (K - E))).
  { rewrite <- pow2_inject by lia. rewrite pow2_sub.
    apply Qmult_le_compat_r; [exact Hle|].
    apply Qlt_le_weak, Qinv_lt_0_compat, HpE. }
  apply round_half_even_le_int in Hz.
  rewrite Zle_Qle, <- pow2_inject in Hz by lia.
  assert (HK' : pow2 K == pow2 (K - E) * pow2 E).
  { rewrite <- pow2_add. now replace (K - E + E)%Z with K by lia. }
  rewrite HK'. apply Qmult_le_compat_r; [exact Hz|lra].
Qed.

Lemma round_ne_ge_pow2 x J :
  pow2 J <= x -> (ulp_exp x <= J)%Z -> pow2 J <= round_ne x.
Proof.
  intros Hle HJ. pose proof (pow2_pos J) as HpJ.
  rewrite round_ne_nonzero by lra.
  set (E := ulp_exp x) in *. pose proof (pow2_pos E) as HpE.
  assert (Hz : inject_Z (2 ^ (J - E)) <= x / pow2 E).
  { rewrite <- pow2_inject by lia. rewrite pow2_sub.
    apply Qmult_le_compat_r; [exact Hle|].
    apply Qlt_le_weak, Qinv_lt_0_compat, HpE. }
  apply round_half_even_ge_int in Hz.
  rewrite Zle_Qle, <- pow2_inject in Hz by lia.
  assert (HJ' : pow2 J == pow2 (J - E) * pow2 E).
  { rewrite <- pow2_add. now replace (J - E + E)%Z with J by lia. }
  rewrite HJ'. apply Qmult_le_compat_r; [exact Hz|lra].
Qed.

Lemma round_ne_nonneg x : 0 <= x -> 0 <= round_ne x.
Proof.
  intros Hx. destruct (Qeq_dec x 0) as [H0|H0].
  - rewrite (round_ne_zero x H0). lra.
  - rewrite round_ne_nonzero by exact H0.
    pose proof (pow2_pos (ulp_exp x)) as Hp.
    apply Qmult_le_0_compat; [|lra].
    change 0 with (inject_Z 0). rewrite <- Zle_Qle.
    apply round_half_even_ge_int. change (inject_Z 0) with 0.
    apply Qle_shift_div_l; [exact Hp|]. lra.
Qed.

Lemma round_ne_mono_pos x y :
  0 < x -> x <= y -> round_ne x <= round_ne y.
Proof.
  intros Hx Hxy.
  assert (Hx0 : ~ x == 0) by lra. assert (Hy0 : ~ y == 0) by lra.
  assert (Hlog : (ilog2 x <= ilog2 y)%Z).
  { apply ilog2_le; trivial. rewrite !Qabs_pos by lra. exact Hxy. }
  destruct (Z.eq_dec (ulp_exp x) (ulp_exp y)) as [E|E].
  - rewrite !round_ne_nonzero by trivial. rewrite E.
    pose proof (pow2_pos (ulp_exp y)) as Hp.
    apply Qmult_le_compat_r; [|lra].
    rewrite <- Zle_Qle. apply round_half_even_mono.
    apply Qmult_le_compat_r; [exact Hxy|].
    apply Qlt_le_weak, Qinv_lt_0_compat, Hp.
  - assert (Hlt : (ulp_exp x < ulp_exp y)%Z) by (unfold ulp_exp in *; lia).
    destruct (ilog2_spec x Hx0) as [_ Hxhi].
    destruct (ilog2_spec y Hy0) as [Hylo _].
    rewrite Qabs_pos in Hxhi, Hylo by lra.
    set (K := Z.max (ilog2 x + 1) (ulp_exp x)).
    apply Qle_trans with (pow2 K).
    + apply round_ne_le_pow2; [exact Hx| |subst K; lia].
      apply Qle_trans with (pow2 (ilog2 x + 1)); [lra|].
      apply pow2_le. subst K. lia.
    + apply Qle_trans with (pow2 (ilog2 y)).
      * apply pow2_le. subst K. unfold ulp_exp, prec in *. lia.
      * apply round_ne_ge_pow2; [exact Hylo|].
        unfold ulp_exp, prec in *. lia.
Qed.

Lemma round_ne_mono x y : x <= y -> round_ne x <= round_ne y.
Proof.
  intros Hxy.
  destruct (Qlt_le_dec 0 x) as [Hx|Hx].
  - now apply round_ne_mono_pos.
  - destruct (Qlt_le_dec y 0) as [Hy|Hy].
    + assert (H : round_ne (- y) <= round_ne (- x))
        by (apply round_ne_mono_pos; lra).
      rewrite !round_ne_opp in H. lra.
    + assert (H : 0 <= round_ne (- x)) by (apply round_ne_nonneg; lra).
      rewrite round_ne_opp in H.
      pose proof (round_ne_nonneg y Hy). lra.
Qed.

(** The rounding error is at most half a unit in the last place, which
    in the normal range is a relative error of 2^-53. *)
Lemma round_ne_half_ulp x :
  ~ x == 0 -> Qabs (round_ne x - x) <= pow2 (ulp_exp x - 1).
Proof.
  intros Hx. rewrite round_ne_nonzero by exact Hx.
  set (E := ulp_exp x). pose proof (pow2_pos E) as Hp.
  pose proof (round_half_even_error (x / pow2 E)) as [Hlo Hhi].
  set (n := inject_Z (round_half_even (x / pow2 E))) in *.
  assert (Hz : x == x / pow2 E * pow2 E) by (field; lra).
  assert (Hhalf : pow2 (E - 1) == (1 # 2) * pow2 E).
  { rewrite pow2_sub. unfold pow2 at 2. simpl. field. }
  rewrite Hhalf. apply Qabs_Qle_condition. split.
  - assert (H : (n - (1 # 2)) * pow2 E - (x / pow2 E) * pow2 E
                >= - ((1 # 2) * pow2 E) - (x / pow2 E - (n - (1#2))) * pow2 E)
      by lra.
    assert (H1 : (x / pow2 E) * pow2 E <= (n + (1 # 2)) * pow2 E)
      by (apply Qmult_le_compat_r; lra).
    rewrite <- Hz in H1. lra.
  - assert (H1 : (n - (1 # 2)) * pow2 E <= (x / pow2 E) * pow2 E)
      by (apply Qmult_le_compat_r; lra).
    rewrite <- Hz in H1. lra.
Qed.


Lemma round_ne_relative x :
  min_normal <= Qabs x -> Qabs (round_ne x - x) <= unit_roundoff * Qabs x.
Proof.
  intros Hn. unfold min_normal, unit_roundoff in *.
  assert (Hx : ~ x == 0).
  { intros H. rewrite H in Hn. change (Qabs 0) with 0 in Hn.
    pose proof (pow2_pos (emin + prec - 1)). lra. }
  destruct (ilog2_spec x Hx) as [Hlo Hhi].
  assert (Hlog : (emin + prec - 1 <= ilog2 x)%Z).
  { assert (pow2 (emin + prec - 1) < pow2 (ilog2 x + 1)) by lra.
    apply pow2_lt_inv in H. lia. }
  eapply Qle_trans; [apply round_ne_half_ulp, Hx|].
  unfold ulp_exp. rewrite Z.max_l by lia.
  replace (ilog2 x + 1 - prec - 1)%Z with (- prec + ilog2 x)%Z by lia.
  rewrite pow2_add. apply Qmult_le_l; [apply pow2_pos|exact Hlo].
Qed.


(** *** Magnitude bounds *)

Lemma bounded_le j k x : bounded j x -> (j <= k)%Z -> bounded k x.
Proof.
  unfold bounded. intros H Hjk. eapply Qle_trans; [exact H|now apply pow2_le].
Qed.

Lemma bounded_inject k n :
  (0 <= k)%Z -> (Z.abs n <= 2 ^ k)%Z -> bounded k (inject_Z n).
Proof.
  intros Hk Hn. unfold bounded. rewrite pow2_inject by exact Hk.
  assert (E : Qabs (inject_Z n) == inject_Z (Z.abs n)) by reflexivity.
  rewrite E, <- Zle_Qle. exact Hn.
Qed.

Lemma bounded_round_ne k x :
  (emin <= k)%Z -> bounded k x -> bounded k (round_ne x).
Proof.
  unfold bounded. intros Hk Hx. apply Qabs_Qle_condition in Hx as [Hlo Hhi].
  apply Qabs_Qle_condition. split.
  - rewrite <- (round_ne_pow2 k Hk), <- round_ne_opp. now apply round_ne_mono.
  - rewrite <- (round_ne_pow2 k Hk). now apply round_ne_mono.
Qed.

Lemma bounded_add j k a b :
  bounded j a -> bounded k b -> bounded (Z.max j k + 1) (a + b).
Proof.
  unfold bounded. intros Ha Hb.
  eapply Qle_trans; [apply Qabs_triangle|].
  rewrite pow2_succ.
  assert (pow2 j <= pow2 (Z.max j k)) by (apply pow2_le; lia).
  assert (pow2 k <= pow2 (Z.max j k)) by (apply pow2_le; lia).
  lra.
Qed.

Lemma bounded_opp k a : bounded k a -> bounded k (- a).
Proof. unfold bounded. now rewrite Qabs_opp. Qed.

Lemma bounded_sub j k a b :
  bounded j a -> bounded k b -> bounded (Z.max j k + 1) (a - b).
Proof. intros Ha Hb. apply bounded_add; [exact Ha|now apply bounded_opp]. Qed.

Lemma bounded_mul j k a b :
  bounded j a -> bounded k b -> bounded (j + k) (a * b).
Proof.
  unfold bounded. intros Ha Hb. rewrite Qabs_Qmult, pow2_add.
  pose proof (Qabs_nonneg a). pose proof (Qabs_nonneg b).
  pose proof (pow2_pos j). pose proof (pow2_pos k).
  apply Qle_trans with (pow2 j * Qabs b).
  - apply Qmult_le_compat_r; trivial.
  - apply Qmult_le_l; trivial.
Qed.

Lemma bounded_div j k a b :
  bounded j a -> pow2 (- k) <= Qabs b -> bounded (j + k) (a / b).
Proof.
  unfold bounded. intros Ha Hb. unfold Qdiv.
  rewrite Qabs_Qmult, Qabs_Qinv, pow2_add.
  pose proof (pow2_pos (- k)) as Hk. pose proof (pow2_pos j).
  pose proof (Qabs_nonneg a).
  assert (Hinv : / Qabs b <= pow2 k).
  { assert (E : pow2 k == / pow2 (- k)).
    { unfold pow2. rewrite Qpower_opp, Qinv_involutive. reflexivity. }
    rewrite E. apply Qle_shift_inv_l; [exact Hk|].
    assert (E' : / Qabs b * pow2 (- k) == pow2 (- k) / Qabs b) by (field; lra).
    rewrite E'. apply Qle_shift_div_r; lra. }
  apply Qle_trans with (pow2 j * / Qabs b).
  - apply Qmult_le_compat_r; trivial.
    apply Qlt_le_weak, Qinv_lt_0_compat. lra.
  - apply Qmult_le_l; trivial.
Qed.

Lemma bounded_div_int j a b :
  b <> 0%Z -> bounded j a -> bounded j (a / inject_Z b).
Proof.
  intros Hb Ha. replace j with (j + 0)%Z by lia.
  apply bounded_div; [exact Ha|].
  change (pow2 (- 0)) with 1.
  assert (E : Qabs (inject_Z b) == inject_Z (Z.abs b)) by reflexivity.
  rewrite E. change 1 with (inject_Z 1). rewrite <- Zle_Qle. lia.
Qed.

Lemma bounded_trunc k x : bounded k x -> bounded k (inject_Z (to_int x)).
Proof.
  unfold bounded, to_int. intros Hx.
  apply Qabs_Qle_condition in Hx as [Hlo Hhi].
  pose proof (floor_bounds x) as [Hfl Hfh].
  pose proof (Qle_ceiling x) as Hcl.
  pose proof (Qceiling_lt x) as Hch. rewrite inject_Z_minus in Hch.
  change (inject_Z 1) with 1 in Hch.
  apply Qabs_Qle_condition.
  destruct (Qle_bool 0 x) eqn:E.
  - apply Qle_bool_iff in E. split; [|lra].
    assert (0 <= Qfloor x)%Z.
    { rewrite <- (Qfloor_Z 0). now apply Qfloor_resp_le. }
    pose proof (pow2_pos k). rewrite Zle_Qle in H. change (inject_Z 0) with 0 in H. lra.
  - assert (Hx : x < 0).
    { apply Qnot_le_lt. intros H. apply Qle_bool_iff in H. congruence. }
    split; [lra|].
    assert (Qceiling x <= 0)%Z.
    { rewrite <- (Qceiling_Z 0). apply Qceiling_resp_le.
      change (inject_Z 0) with 0. lra. }
    pose proof (pow2_pos k). rewrite Zle_Qle in H. change (inject_Z 0) with 0 in H. lra.
Qed.

(** *** Float operations that stay finite *)

#[global] Instance fl_proper : Proper (Qeq ==> eq) fl.
Proof. intros x y Hxy. unfold fl. now rewrite (round_ne_proper x y Hxy). Qed.

#[global] Instance to_int_proper : Proper (Qeq ==> eq) to_int.
Proof.
  intros x y Hxy. unfold to_int.
  rewrite (Qfloor_comp _ _ Hxy), (Qceiling_comp _ _ Hxy).
  destruct (Qle_bool 0 x) eqn:Ex, (Qle_bool 0 y) eqn:Ey; trivial.
  - apply Qle_bool_iff in Ex. rewrite Hxy in Ex. apply Qle_bool_iff in Ex. congruence.
  - apply Qle_bool_iff in Ey. rewrite <- Hxy in Ey. apply Qle_bool_iff in Ey. congruence.
Qed.

Lemma fl_bounded k x :
  bounded k x -> (emin <=? k)%Z = true -> (k <? emax)%Z = true ->
  fl x = Some (round_ne x).
Proof.
  intros Hx Hlo Hhi. apply Z.leb_le in Hlo. apply Z.ltb_lt in Hhi.
  pose proof (bounded_round_ne k x Hlo Hx) as Hr. unfold bounded in Hr.
  unfold fl. destruct (Qle_bool _ _) eqn:E; trivial.
  apply Qle_bool_iff in E.
  assert (pow2 k < pow2 emax) by now apply pow2_lt. lra.
Qed.

Lemma round_ne_canonical x : round_ne x == x -> round_ne x = Qred x.
Proof.
  intros H. unfold round_ne in *.
  destruct (Qeq_bool x 0) eqn:E.
  - apply Qeq_bool_iff in E. now rewrite (Qred_complete _ _ E).
  - apply Qred_complete. rewrite Qred_correct in H. exact H.
Qed.

Lemma to_int_inject n : to_int (inject_Z n) = n.
Proof.
  unfold to_int. rewrite Qfloor_Z, Qceiling_Z. now destruct (Qle_bool _ _).
Qed.

Lemma to_int_nonneg x : 0 <= x -> to_int x = Qfloor x.
Proof.
  intros H. unfold to_int. apply Qle_bool_iff in H. now rewrite H.
Qed.

Lemma to_int_nonneg_le x : 0 <= x -> (0 <= to_int x)%Z.
Proof.
  intros H. rewrite to_int_nonneg by exact H.
  rewrite <- (Qfloor_Z 0). now apply Qfloor_resp_le.
Qed.

Lemma to_int_le_int x n : 0 <= x -> x <= inject_Z n -> (to_int x <= n)%Z.
Proof.
  intros H0 H. rewrite to_int_nonneg by exact H0.
  rewrite <- (Qfloor_Z n). now apply Qfloor_resp_le.
Qed.

Lemma fltb_true a b : fltb a b = true <-> a < b.
Proof.
  unfold fltb. rewrite negb_true_iff. split.
  - intros H. apply Qnot_le_lt. intros Hle. apply Qle_bool_iff in Hle. congruence.
  - intros H. destruct (Qle_bool b a) eqn:E; trivial.
    apply Qle_bool_iff in E. lra.
Qed.

Lemma fltb_false a b : fltb a b = false <-> b <= a.
Proof.
  unfold fltb. rewrite negb_false_iff. apply Qle_bool_iff.
Qed.

(** *** Two roundings in a row *)

Lemma unit_roundoff_small : 0 < unit_roundoff /\ unit_roundoff <= (1 # 4).
Proof. unfold unit_roundoff. split; [apply pow2_pos|]. vm_compute. discriminate. Qed.

Lemma Qabs_le_iff x y : Qabs x <= y <-> - y <= x /\ x <= y.
Proof. apply Qabs_Qle_condition. Qed.

(** [p] is the rounded product of [n] and the rounded [a]. *)
Lemma rounded_product_error u a t n p :
  0 < u -> u <= (1 # 4) -> 0 < a -> 0 <= n ->
  Qabs (t - a) <= u * a ->
  Qabs (p - n * t) <= u * (n * t) ->
  Qabs (p - n * a) <= 3 * u * (n * a).
Proof.
  intros Hu Hu4 Ha Hn Ht Hp.
  apply Qabs_le_iff in Ht as [Ht1 Ht2]. apply Qabs_le_iff in Hp as [Hp1 Hp2].
  apply Qabs_le_iff.
  assert (Hna : 0 <= n * a) by nra.
  assert (Hnt1 : n * t <= n * a * (1 + u)) by nra.
  assert (Hnt2 : n * a * (1 - u) <= n * t) by nra.
  assert (Hnt0 : 0 <= n * t) by nra.
  assert (Hut : u * (n * t) <= u * (n * a) * (1 + u)) by nra.
  assert (Huu : u * (n * a) * u <= u * (n * a)) by nra.
  split; nra.
Qed.

(** [q] is the rounded quotient of [n] by the rounded [a]; [v] is the
    exact quotient by the rounded [a], [y] the exact quotient by [a]. *)
Lemma rounded_quotient_error u a t n v y q :
  0 < u -> u <= (1 # 4) -> 0 < a -> 0 <= n ->
  Qabs (t - a) <= u * a ->
  v * t == n -> y * a == n ->
  Qabs (q - v) <= u * v ->
  Qabs (q - y) <= 4 * u * y.
Proof.
  intros Hu Hu4 Ha Hn Ht Hv Hy Hq.
  apply Qabs_le_iff in Ht as [Ht1 Ht2]. apply Qabs_le_iff in Hq as [Hq1 Hq2].
  apply Qabs_le_iff.
  assert (Htpos : 0 < t) by nra.
  assert (Hy0 : 0 <= y).
  { destruct (Qlt_le_dec y 0) as [H|H]; [|exact H]. exfalso. nra. }
  assert (Hv0 : 0 <= v).
  { destruct (Qlt_le_dec v 0) as [H|H]; [|exact H]. exfalso. nra. }
  (* v * t = y * a, with t within u of a *)
  assert (Hvy1 : v * (1 - u) <= y).
  { assert (v * (a * (1 - u)) <= y * a) by nra. nra. }
  assert (Hvy2 : y <= v * (1 + u)).
  { assert (y * a <= v * (a * (1 + u))) by nra. nra. }
  assert (Hv2 : v <= 2 * y) by nra.
  split; nra.
Qed.

(** A rational within less than [1/D] of [N/D] truncates to the
    quotient of [N] by [D], give or take one when [D] divides [N]. *)
Lemma floor_of_near_quotient (N D : Z) (p : Q) :
  (0 < D)%Z -> 0 <= p ->
  Qabs (p * inject_Z D - inject_Z N) < 1 ->
  (to_int p * D <= N <= (to_int p + 1) * D)%Z.
Proof.
  intros HD Hp Hnear. rewrite to_int_nonneg by exact Hp.
  pose proof (floor_bounds p) as [Hlo Hhi].
  apply Qabs_Qlt_condition in Hnear as [Hn1 Hn2].
  assert (HDq : 0 < inject_Z D) by (change 0 with (inject_Z 0); now rewrite <- Zlt_Qlt).
  set (c := Qfloor p) in *.
  assert (H1 : inject_Z (c * D) < inject_Z N + 1).
  { rewrite inject_Z_mult. nra. }
  assert (H2 : inject_Z N < inject_Z ((c + 1) * D) + 1).
  { rewrite inject_Z_mult, inject_Z_plus. change (inject_Z 1) with 1. nra. }
  apply Zlt_Qlt_succ in H1, H2. lia.
Qed.

(** *** The operations on ints of bounded size *)

Lemma of_int_exact n :
  exact_int n ->
  of_int n = Some (round_ne (inject_Z n)) /\ round_ne (inject_Z n) == inject_Z n.
Proof.
  intros Hn. split; [|now apply round_ne_int].
  unfold of_int. apply (fl_bounded 53); try reflexivity.
  apply bounded_inject; [lia|]. unfold exact_int in Hn. lia.
Qed.

Lemma truediv_eq k a b :
  b <> 0%Z -> bounded k (inject_Z a / inject_Z b) ->
  (emin <=? k)%Z = true -> (k <? emax)%Z = true ->
  truediv a b = Some (round_ne (inject_Z a / inject_Z b)).
Proof.
  intros Hb Hk H1 H2. unfold truediv.
  destruct (Z.eqb_spec b 0); [contradiction|].
  now apply (fl_bounded k).
Qed.

Lemma int_mul_float_eq k n b :
  exact_int n -> bounded k (inject_Z n * b) ->
  (emin <=? k)%Z = true -> (k <? emax)%Z = true ->
  int_mul_float n b = Some (round_ne (inject_Z n * b)).
Proof.
  intros Hn Hk H1 H2. unfold int_mul_float.
  destruct (of_int_exact n Hn) as [-> E]. simpl. unfold fmul.
  rewrite (fl_proper _ (inject_Z n * b)) by now rewrite E.
  now apply (fl_bounded k).
Qed.

Lemma int_div_float_eq k n b :
  exact_int n -> ~ b == 0 -> bounded k (inject_Z n / b) ->
  (emin <=? k)%Z = true -> (k <? emax)%Z = true ->
  int_div_float n b = Some (round_ne (inject_Z n / b)).
Proof.
  intros Hn Hb Hk H1 H2. unfold int_div_float.
  destruct (of_int_exact n Hn) as [-> E]. simpl. unfold fdiv.
  destruct (Qeq_bool b 0) eqn:Eb.
  { apply Qeq_bool_iff in Eb. contradiction. }
  rewrite (fl_proper _ (inject_Z n / b)) by now rewrite E.
  now apply (fl_bounded k).
Qed.

Lemma int_add_float_eq k n b :
  exact_int n -> bounded k (inject_Z n + b) ->
  (emin <=? k)%Z = true -> (k <? emax)%Z = true ->
  int_add_float n b = Some (round_ne (inject_Z n + b)).
Proof.
  intros Hn Hk H1 H2. unfold int_add_float.
  destruct (of_int_exact n Hn) as [-> E]. simpl. unfold fadd.
  rewrite (fl_proper _ (inject_Z n + b)) by now rewrite E.
  now apply (fl_bounded k).
Qed.

Lemma int_sub_float_eq k n b :
  exact_int n -> bounded k (inject_Z n - b) ->
  (emin <=? k)%Z = true -> (k <? emax)%Z = true ->
  int_sub_float n b = Some (round_ne (inject_Z n - b)).
Proof.
  intros Hn Hk H1 H2. unfold int_sub_float.
  destruct (of_int_exact n Hn) as [-> E]. simpl. unfold fsub.
  rewrite (fl_proper _ (inject_Z n - b)) by now rewrite E.
  now apply (fl_bounded k).
Qed.

Lemma float_sub_int_eq k a n :
  exact_int n -> bounded k (a - inject_Z n) ->
  (emin <=? k)%Z = true -> (k <? emax)%Z = true ->
  float_sub_int a n = Some (round_ne (a - inject_Z n)).
Proof.
  intros Hn Hk H1 H2. unfold float_sub_int.
  destruct (of_int_exact n Hn) as [-> E]. simpl. unfold fsub.
  rewrite (fl_proper _ (a - inject_Z n)) by now rewrite E.
  now apply (fl_bounded k).
Qed.

Lemma fsub_eq k a b :
  bounded k (a - b) -> (emin <=? k)%Z = true -> (k <? emax)%Z = true ->
  fsub a b = Some (round_ne (a - b)).
Proof. intros. unfold fsub. now apply (fl_bounded k). Qed.

Lemma fmul_eq k a b :
  bounded k (a * b) -> (emin <=? k)%Z = true -> (k <? emax)%Z = true ->
  fmul a b = Some (round_ne (a * b)).
Proof. intros. unfold fmul. now apply (fl_bounded k). Qed.

End Float64Facts.

(** ** The model against primitive doubles *)

Module Float64Check.

Import Stdlib.Floats.Floats.
Import Float64.
Local Open Scope Q_scope.
#[local] Set Warnings "-inexact-float".

(** Literals, sums, products and quotients of the crop calculator, an
    overflow, and roundings among the subnormal numbers: the model and
    the primitive doubles give the same values. *)
Example literal_agrees : of_prim (0.3)%float = Some (lit (3 # 10)).
Proof. vm_compute. reflexivity. Qed.

Example sum_agrees :
  of_prim (0.1 + 0.2)%float = fadd (lit (1 # 10)) (lit (2 # 10)).
Proof. vm_compute. reflexivity. Qed.

Example product_of_quotient_agrees :
  of_prim (49 * (1 / 49))%float = (d ← truediv 1 49; int_mul_float 49 d).
Proof. vm_compute. reflexivity. Qed.

Example crop_height_agrees :
  of_prim (3000 / (16 / 9))%float
  = (t ← truediv 16 9; int_div_float 3000 t).
Proof. vm_compute. reflexivity. Qed.

Example margins_agree :
  of_prim (2400 * 0.15 - 1687 * 0.9)%float
  = (a ← int_mul_float 2400 (lit (15 # 100));
     b ← int_mul_float 1687 (lit (9 # 10));
     fsub a b).
Proof. vm_compute. reflexivity. Qed.

Example negative_quotient_agrees : of_prim (-7 / 3)%float = truediv (-7) 3.
Proof. vm_compute. reflexivity. Qed.

Example overflow_agrees :
  of_prim (1e308 * 10)%float = fmul (lit (10 ^ 308)) (lit 10).
Proof. vm_compute. reflexivity. Qed.

Example subnormal_tie_agrees :
  of_prim (5e-324 / 2)%float = fdiv (lit (5 / 10 ^ 324)) 2.
Proof. vm_compute. reflexivity. Qed.

Example subnormal_product_agrees :
  of_prim (5e-324 * 1.5)%float = fmul (lit (5 / 10 ^ 324)) (lit (3 # 2)).
Proof. vm_compute. reflexivity. Qed.

End Float64Check.

(** ** The smart crop *)

Module CropFacts.

Import Float64 Float64Facts CropCalculator.
Local Open Scope Z_scope.

(** *** The maximal crop dimensions *)


Lemma inject_Z_pos n : 0 < n -> (0 < inject_Z n)%Q.
Proof. intros H. change 0%Q with (inject_Z 0). now rewrite <- Zlt_Qlt. Qed.

Lemma inject_Z_ge_1 n : 0 < n -> (1 <= inject_Z n)%Q.
Proof. intros H. change 1%Q with (inject_Z 1). rewrite <- Zle_Qle. lia. Qed.

Lemma inject_Z_lt_pow2 n k : 0 <= k -> n < 2 ^ k -> (inject_Z n < pow2 k)%Q.
Proof. intros Hk H. rewrite pow2_inject by exact Hk. now rewrite <- Zlt_Qlt. Qed.

Section Ratio.

Local Open Scope Q_scope.

(** A ratio [n / d] of positive ints below [2^j] and [2^k]. *)
Variables (n d j k : Z).
Hypothesis Hn : (0 < n < 2 ^ j)%Z.
Hypothesis Hd : (0 < d < 2 ^ k)%Z.
Hypothesis Hj : (0 <= j <= 100)%Z.
Hypothesis Hk : (0 <= k <= 100)%Z.

Let a : Q := inject_Z n / inject_Z d.

Lemma ratio_pos : 0 < a.
Proof using Hn Hd Hj Hk.
  unfold a. apply Qlt_shift_div_l; [apply inject_Z_pos; lia|].
  rewrite Qmult_0_l. apply inject_Z_pos. lia.
Qed.

Lemma ratio_upper : a <= pow2 j.
Proof using Hn Hd Hj Hk.
  unfold a. apply Qle_shift_div_r; [apply inject_Z_pos; lia|].
  pose proof (inject_Z_lt_pow2 n j ltac:(lia) ltac:(lia)).
  pose proof (inject_Z_ge_1 d ltac:(lia)). pose proof (pow2_pos j). nra.
Qed.

Lemma ratio_lower : pow2 (- k) <= a.
Proof using Hn Hd Hj Hk.
  unfold a. apply Qle_shift_div_l; [apply inject_Z_pos; lia|].
  pose proof (inject_Z_lt_pow2 d k ltac:(lia) ltac:(lia)).
  pose proof (inject_Z_ge_1 n ltac:(lia)). pose proof (pow2_pos (- k)).
  assert (E : pow2 (- k) * pow2 k == 1).
  { rewrite <- pow2_add. now replace (- k + k)%Z with 0%Z by lia. }
  nra.
Qed.

Lemma ratio_bounded : bounded j a.
Proof using Hn Hd Hj Hk.
  unfold bounded. rewrite Qabs_pos by (apply Qlt_le_weak, ratio_pos).
  apply ratio_upper.
Qed.

Lemma ratio_truediv : truediv n d = Some (round_ne a).
Proof using Hn Hd Hj Hk.
  apply (truediv_eq j); [lia|apply ratio_bounded| |].
  - apply Z.leb_le. unfold emin, emax, prec. lia.
  - apply Z.ltb_lt. unfold emax. lia.
Qed.

Lemma ratio_rounded_lower : pow2 (- k) <= round_ne a.
Proof using Hn Hd Hj Hk.
  rewrite <- (round_ne_pow2 (- k)) by (unfold emin, emax, prec; lia).
  apply round_ne_mono, ratio_lower.
Qed.

Lemma ratio_rounded_upper : round_ne a <= pow2 j.
Proof using Hn Hd Hj Hk.
  rewrite <- (round_ne_pow2 j) by (unfold emin, emax, prec; lia).
  apply round_ne_mono, ratio_upper.
Qed.

Lemma ratio_rounded_error :
  Qabs (round_ne a - a) <= unit_roundoff * a.
Proof using Hn Hd Hj Hk.
  pose proof ratio_pos as Hpos. pose proof ratio_lower as Hlo.
  assert (E : Qabs a == a) by (apply Qabs_pos; lra).
  assert (H : Qabs (round_ne a - a) <= unit_roundoff * Qabs a).
  { apply round_ne_relative. rewrite E.
    eapply Qle_trans; [|exact Hlo]. unfold min_normal.
    apply pow2_le. unfold emin, emax, prec. lia. }
  now rewrite E in H.
Qed.

End Ratio.

Section ComparedRatios.
Local Open Scope Q_scope.

(** Two ratios whose roundings compare one way cannot compare the other
    way by a whole unit of their cross product. *)
Lemma rounded_order_reflects u a b t r Na Nb Da Db :
  0 < u -> 0 < a -> 0 < b -> 0 < Da -> 0 < Db ->
  a * Da == Na -> b * Db == Nb ->
  Qabs (t - a) <= u * a -> Qabs (r - b) <= u * b ->
  u * (Na * Db + Nb * Da) < 1 ->
  r <= t -> Nb * Da < Na * Db + 1.
Proof.
  intros Hu Ha Hb HDa HDb Ea Eb Ht Hr Hsmall Hrt.
  apply Qabs_le_iff in Ht as [_ Ht]. apply Qabs_le_iff in Hr as [Hr _].
  assert (H1 : b * (1 - u) <= a * (1 + u)) by lra.
  assert (H2 : b * (1 - u) * (Da * Db) <= a * (1 + u) * (Da * Db)).
  { apply Qmult_le_compat_r; [exact H1|]. nra. }
  assert (E1 : b * (1 - u) * (Da * Db) == Nb * Da * (1 - u)).
  { rewrite <- Eb. ring. }
  assert (E2 : a * (1 + u) * (Da * Db) == Na * Db * (1 + u)).
  { rewrite <- Ea. ring. }
  rewrite E1, E2 in H2. nra.
Qed.

End ComparedRatios.

Lemma small_times_roundoff (N : Z) (c : Q) :
  0 <= N < 2 ^ 50 -> (0 <= c <= 4)%Q ->
  (c * unit_roundoff * inject_Z N < 1)%Q.
Proof.
  intros HN Hc.
  assert (H : (inject_Z N < pow2 50)%Q) by (apply inject_Z_lt_pow2; lia).
  assert (H0 : (0 <= inject_Z N)%Q).
  { change 0%Q with (inject_Z 0). rewrite <- Zle_Qle. lia. }
  assert (E : (4 * unit_roundoff * pow2 50 == 1 # 2)%Q) by reflexivity.
  pose proof unit_roundoff_small as [Hu _].
  assert ((c * unit_roundoff * inject_Z N <= 4 * unit_roundoff * pow2 50)%Q).
  { assert ((c * unit_roundoff <= 4 * unit_roundoff)%Q) by nra.
    assert ((0 <= c * unit_roundoff)%Q) by nra.
    generalize dependent (pow2 50). intros. nra. }
  lra.
Qed.

Lemma crop_dimensions_spec aw ah iw ih :
  aspect_term aw -> aspect_term ah ->
  image_dimension iw -> image_dimension ih ->
  exists cw ch,
    crop_dimensions (aw, ah) iw ih = Some (cw, ch) /\
    ((ch = ih /\ 0 <= cw < iw /\ cw * ah <= ih * aw <= (cw + 1) * ah) \/
     (cw = iw /\ 0 <= ch <= ih /\ ch * aw <= iw * ah <= (ch + 1) * aw)).
Proof.
  intros Haw Hah Hiw Hih. unfold aspect_term, image_dimension in *.
  unfold crop_dimensions.
  rewrite (ratio_truediv aw ah 16 16) by lia. cbn [mbind option_bind].
  rewrite (ratio_truediv iw ih 31 31) by lia. cbn [mbind option_bind].
  set (a := (inject_Z aw / inject_Z ah)%Q). set (b := (inject_Z iw / inject_Z ih)%Q).
  set (t := round_ne a). set (r := round_ne b).
  assert (Ha0 : (0 < a)%Q) by (apply (ratio_pos aw ah 16 16); lia).
  assert (Hb0 : (0 < b)%Q) by (apply (ratio_pos iw ih 31 31); lia).
  assert (Htlo : (pow2 (-16) <= t)%Q)
    by (apply (ratio_rounded_lower aw ah 16 16); lia).
  assert (Hthi : (t <= pow2 16)%Q)
    by (apply (ratio_rounded_upper aw ah 16 16); lia).
  assert (Hterr : (Qabs (t - a) <= unit_roundoff * a)%Q)
    by (apply (ratio_rounded_error aw ah 16 16); lia).
  assert (Hrerr : (Qabs (r - b) <= unit_roundoff * b)%Q)
    by (apply (ratio_rounded_error iw ih 31 31); lia).
  pose proof (inject_Z_pos aw ltac:(lia)) as Qaw.
  pose proof (inject_Z_pos ah ltac:(lia)) as Qah.
  pose proof (inject_Z_pos iw ltac:(lia)) as Qiw.
  pose proof (inject_Z_pos ih ltac:(lia)) as Qih.
  assert (Ea : (a * inject_Z ah == inject_Z aw)%Q) by (unfold a; field; lra).
  assert (Eb : (b * inject_Z ih == inject_Z iw)%Q) by (unfold b; field; lra).
  pose proof unit_roundoff_small as [Hu Hu4].
  pose proof (pow2_pos (-16)) as Hp16.
  assert (Hih47 : 0 <= ih * aw < 2 ^ 47) by nia.
  assert (Hiw47 : 0 <= iw * ah < 2 ^ 47) by nia.
  assert (Hex_ih : exact_int ih) by (unfold exact_int; lia).
  assert (Hex_iw : exact_int iw) by (unfold exact_int; lia).
  assert (Hbt : bounded 16 t).
  { unfold bounded. pose proof (pow2_pos 16).
    apply Qabs_Qle_condition. split; lra. }
  destruct (fltb t r) eqn:Ecmp.
  - (* the image is wider than the target *)
    apply fltb_true in Ecmp.
    assert (Hcross : ih * aw < iw * ah).
    { destruct (Z_lt_le_dec (ih * aw) (iw * ah)) as [H|H]; [exact H|exfalso].
      assert (Hba : (b <= a)%Q).
      { unfold a, b. apply Qdiv_le_cross; trivial.
        rewrite <- !inject_Z_mult, <- Zle_Qle. lia. }
      apply (round_ne_mono b a) in Hba. fold t r in Hba. lra. }
    rewrite (int_mul_float_eq 47 ih t); trivial.
    2:{ apply (bounded_mul 31 16); [|exact Hbt].
        apply bounded_inject; lia. }
    cbn [mbind option_bind].
    set (p := round_ne (inject_Z ih * t)).
    assert (Hp0 : (0 <= p)%Q) by (apply round_ne_nonneg; nra).
    assert (Hperr : (Qabs (p - inject_Z ih * t) <= unit_roundoff * (inject_Z ih * t))%Q).
    { assert (Hpos : (0 <= inject_Z ih * t)%Q) by nra.
      rewrite <- (Qabs_pos _ Hpos) at 2. apply round_ne_relative.
      rewrite (Qabs_pos _ Hpos). unfold min_normal.
      apply Qle_trans with (pow2 (-16)); [apply pow2_le; unfold emin, emax, prec; lia|].
      pose proof (inject_Z_ge_1 ih ltac:(lia)). nra. }
    pose proof (rounded_product_error unit_roundoff a t (inject_Z ih) p
                  Hu Hu4 Ha0 ltac:(lra) Hterr Hperr) as Hp.
    assert (Hnear : (Qabs (p * inject_Z ah - inject_Z (ih * aw)) < 1)%Q).
    { pose proof (small_times_roundoff (ih * aw) 3 ltac:(lia) ltac:(lra)) as Hs.
      rewrite inject_Z_mult in *.
      apply Qabs_le_iff in Hp as [Hp1 Hp2]. apply Qabs_Qlt_condition.
      assert (E1 : (p * inject_Z ah - inject_Z ih * inject_Z aw
                    == (p - inject_Z ih * a) * inject_Z ah)%Q).
      { rewrite <- Ea. ring. }
      assert (E2 : (3 * unit_roundoff * (inject_Z ih * inject_Z aw)
                    == 3 * unit_roundoff * (inject_Z ih * a) * inject_Z ah)%Q).
      { rewrite <- Ea. ring. }
      rewrite E1. rewrite E2 in Hs.
      split; nra. }
    pose proof (floor_of_near_quotient (ih * aw) ah p ltac:(lia) Hp0 Hnear) as Hfloor.
    pose proof (to_int_nonneg_le p Hp0) as Hcw0.
    exists (to_int p), ih. split.
    + f_equal. f_equal. apply Z.min_l. nia.
    + left. split; [reflexivity|]. split; [nia|exact Hfloor].
  - (* the image is taller than the target, or of the same ratio *)
    apply fltb_false in Ecmp.
    assert (Hcross : iw * ah <= ih * aw).
    { assert (H : (inject_Z iw * inject_Z ah < inject_Z aw * inject_Z ih + 1)%Q).
      { apply (rounded_order_reflects unit_roundoff a b t r); trivial.
        pose proof (small_times_roundoff (ih * aw + iw * ah) 1 ltac:(lia) ltac:(lra)) as Hs.
        rewrite inject_Z_plus, !inject_Z_mult in Hs.
        assert (E : (inject_Z aw * inject_Z ih + inject_Z iw * inject_Z ah
                     == inject_Z ih * inject_Z aw + inject_Z iw * inject_Z ah)%Q) by ring.
        rewrite E. lra. }
      rewrite <- !inject_Z_mult in H. apply Zlt_Qlt_succ in H. lia. }
    assert (Ht0 : ~ (t == 0)%Q) by lra.
    rewrite (int_div_float_eq 47 iw t); trivial.
    2:{ replace 47 with (31 + 16) by lia. apply bounded_div.
        - apply bounded_inject; lia.
        - rewrite Qabs_pos by lra. exact Htlo. }
    cbn [mbind option_bind].
    set (v := (inject_Z iw / t)%Q). set (q := round_ne v).
    set (y := (inject_Z iw / a)%Q).
    assert (Ev : (v * t == inject_Z iw)%Q) by (unfold v; field; lra).
    assert (Ey : (y * a == inject_Z iw)%Q) by (unfold y; field; lra).
    assert (Hv0 : (0 < v)%Q).
    { unfold v. apply Qlt_shift_div_l; lra. }
    assert (Hq0 : (0 <= q)%Q) by (apply round_ne_nonneg; lra).
    assert (Hqerr : (Qabs (q - v) <= unit_roundoff * v)%Q).
    { assert (Hpos : (0 <= v)%Q) by lra.
      rewrite <- (Qabs_pos _ Hpos) at 2. apply round_ne_relative.
      rewrite (Qabs_pos _ Hpos). unfold min_normal.
      apply Qle_trans with (pow2 (-16)); [apply pow2_le; unfold emin, emax, prec; lia|].
      unfold v. apply Qle_shift_div_l; [lra|].
      pose proof (inject_Z_ge_1 iw ltac:(lia)).
      assert (E : (pow2 (-16) * pow2 16 == 1)%Q) by reflexivity.
      pose proof (pow2_pos 16). nra. }
    pose proof (rounded_quotient_error unit_roundoff a t (inject_Z iw) v y q
                  Hu Hu4 Ha0 ltac:(lra) Hterr Ev Ey Hqerr) as Hq.
    assert (Hnear : (Qabs (q * inject_Z aw - inject_Z (iw * ah)) < 1)%Q).
    { pose proof (small_times_roundoff (iw * ah) 4 ltac:(lia) ltac:(lra)) as Hs.
      rewrite inject_Z_mult in *.
      apply Qabs_le_iff in Hq as [Hq1 Hq2]. apply Qabs_Qlt_condition.
      assert (Eya : (y * inject_Z aw == inject_Z iw * inject_Z ah)%Q).
      { rewrite <- Ey, <- Ea. ring. }
      assert (E1 : (q * inject_Z aw - inject_Z iw * inject_Z ah
                    == (q - y) * inject_Z aw)%Q).
      { rewrite <- Eya. ring. }
      assert (E2 : (4 * unit_roundoff * (inject_Z iw * inject_Z ah)
                    == 4 * unit_roundoff * y * inject_Z aw)%Q).
      { rewrite <- Eya. ring. }
      rewrite E1. rewrite E2 in Hs.
      split; nra. }
    pose proof (floor_of_near_quotient (iw * ah) aw q ltac:(lia) Hq0 Hnear) as Hfloor.
    pose proof (to_int_nonneg_le q Hq0) as Hch0.
    exists iw, (to_int q). split.
    + f_equal. f_equal. apply Z.min_l. nia.
    + right. split; [reflexivity|]. split; [nia|exact Hfloor].
Qed.

(** *** Bounds found by following the syntax *)

Lemma bounded_round_ne' k x : bounded k x -> bounded (Z.max k 0) (round_ne x).
Proof.
  intros H. apply bounded_round_ne; [unfold emin, emax, prec; lia|].
  apply (bounded_le k); [exact H|lia].
Qed.

Lemma bounded_inject_add j k a b :
  bounded j (inject_Z a) -> bounded k (inject_Z b) ->
  bounded (Z.max j k + 1) (inject_Z (a + b)).
Proof.
  intros Ha Hb. unfold bounded. rewrite inject_Z_plus.
  now apply bounded_add.
Qed.

Lemma bounded_inject_sub j k a b :
  bounded j (inject_Z a) -> bounded k (inject_Z b) ->
  bounded (Z.max j k + 1) (inject_Z (a - b)).
Proof.
  intros Ha Hb. unfold bounded. rewrite inject_Z_minus.
  now apply bounded_sub.
Qed.

Lemma bounded_pixel n : pixel n -> bounded 31 (inject_Z n).
Proof. intros H. apply bounded_inject; [lia|]. unfold pixel in H. lia. Qed.

Lemma bounded_unit s : unit_interval s -> bounded 0 s.
Proof.
  intros [H0 H1]. unfold bounded. rewrite Qabs_pos by exact H0. exact H1.
Qed.

Lemma unit_interval_lit q : unit_interval q -> unit_interval (lit q).
Proof.
  intros [H0 H1]. unfold lit. split.
  - now apply round_ne_nonneg.
  - assert (E : (round_ne 1 == 1)%Q) by (apply (round_ne_int 1); reflexivity).
    rewrite <- E. now apply round_ne_mono.
Qed.

Lemma exact_int_of_bounded k n :
  bounded k (inject_Z n) -> (k <=? 52) = true -> exact_int n.
Proof.
  intros H Hk. apply Z.leb_le in Hk. unfold exact_int.
  apply (bounded_le _ 52) in H; [|exact Hk]. unfold bounded in H.
  rewrite pow2_inject in H by lia.
  assert (E : (Qabs (inject_Z n) == inject_Z (Z.abs n))%Q) by reflexivity.
  rewrite E, <- Zle_Qle in H. lia.
Qed.

Lemma bounded_range k lo hi n :
  lo <= n <= hi -> bounded k (inject_Z lo) -> bounded k (inject_Z hi) ->
  bounded k (inject_Z n).
Proof.
  unfold bounded. intros Hn Hlo Hhi.
  apply Qabs_Qle_condition in Hlo as [Hlo _].
  apply Qabs_Qle_condition in Hhi as [_ Hhi].
  apply Qabs_Qle_condition. rewrite !Zle_Qle in Hn. destruct Hn. split; lra.
Qed.

Ltac bnd :=
  lazymatch goal with
  | |- bounded _ (round_ne _) => eapply bounded_round_ne'; bnd
  | |- bounded _ (lit _) => eapply bounded_round_ne'; bnd
  | |- bounded _ (_ + _)%Q => eapply bounded_add; bnd
  | |- bounded _ (_ - _)%Q => eapply bounded_sub; bnd
  | |- bounded _ (_ * _)%Q => eapply bounded_mul; bnd
  | |- bounded _ (_ / inject_Z 2)%Q =>
      eapply bounded_div_int; [discriminate|bnd]
  | |- bounded _ (inject_Z (to_int _)) => eapply bounded_trunc; bnd
  | |- bounded _ (inject_Z (_ + _)) => eapply bounded_inject_add; bnd
  | |- bounded _ (inject_Z (_ - _)) => eapply bounded_inject_sub; bnd
  | |- bounded _ _ =>
      first [ eassumption
            | eapply bounded_pixel; eassumption
            | eapply bounded_unit; eassumption
            | eapply bounded_unit; split; [vm_compute|vm_compute]; discriminate ]
  end.

Ltac exact_int_tac := eapply exact_int_of_bounded; [bnd|reflexivity].

Ltac float_step :=
  first
    [ erewrite truediv_eq; [|discriminate|bnd|reflexivity|reflexivity]
    | erewrite int_add_float_eq; [|exact_int_tac|bnd|reflexivity|reflexivity]
    | erewrite int_sub_float_eq; [|exact_int_tac|bnd|reflexivity|reflexivity]
    | erewrite int_mul_float_eq; [|exact_int_tac|bnd|reflexivity|reflexivity]
    | erewrite float_sub_int_eq; [|exact_int_tac|bnd|reflexivity|reflexivity]
    | erewrite fsub_eq; [|bnd|reflexivity|reflexivity]
    | erewrite fmul_eq; [|bnd|reflexivity|reflexivity] ];
  cbn [mbind option_bind].

(** *** The best detection *)

Lemma score_eq d :
  detection_in_range d ->
  score d = Some (round_ne (Detection.quality_score d * Detection.confidence d)).
Proof.
  intros (_ & Hc & Hq). unfold score. now float_step.
Qed.

Lemma max_from_total (items : list Detection.t) :
  Forall detection_in_range items ->
  forall best kbest,
  exists b, max_from score best kbest items = Some b /\ (b = best \/ In b items).
Proof.
  induction 1 as [|d items Hd Hitems IH]; intros best kbest; simpl.
  - eauto.
  - rewrite (score_eq d Hd). cbn [mbind option_bind].
    destruct (fltb _ _).
    + destruct (IH d (round_ne (Detection.quality_score d * Detection.confidence d)))
        as (b & -> & Hb). exists b. split; trivial.
      right. destruct Hb as [->|Hb]; [now left|now right].
    + destruct (IH best kbest) as (b & -> & Hb). exists b. split; trivial.
      destruct Hb as [->|Hb]; [now left|right; now right].
Qed.

Lemma max_by_key_total (items : list Detection.t) :
  items <> [] -> Forall detection_in_range items ->
  exists b, max_by_key score items = Some b /\ In b items.
Proof.
  intros Hne Hall. destruct items as [|d items]; [contradiction|].
  apply Forall_cons in Hall as [Hd Hall]. simpl.
  rewrite (score_eq d Hd). cbn [mbind option_bind].
  destruct (max_from_total items Hall d
              (round_ne (Detection.quality_score d * Detection.confidence d)))
    as (b & -> & Hb).
  exists b. split; trivial. destruct Hb as [->|Hb]; [now left|now right].
Qed.

(** *** A fraction of a length *)

Lemma scaled_fraction n c :
  0 <= n -> exact_int n -> unit_interval c ->
  0 <= to_int (round_ne (inject_Z n * c)) <= n.
Proof.
  intros Hn Hex [Hc0 Hc1].
  assert (Hq : (0 <= inject_Z n)%Q).
  { change 0%Q with (inject_Z 0). now rewrite <- Zle_Qle. }
  assert (Hlo : (0 <= round_ne (inject_Z n * c))%Q).
  { apply round_ne_nonneg. nra. }
  assert (Hhi : (round_ne (inject_Z n * c) <= inject_Z n)%Q).
  { rewrite <- (round_ne_int n Hex) at 2. apply round_ne_mono. nra. }
  split; [now apply to_int_nonneg_le|now apply to_int_le_int].
Qed.

(** *** Strategy 2: the person crop *)

Lemma person_crop_spec persons iw ih cw ch :
  persons <> [] -> Forall detection_in_range persons ->
  image_dimension iw -> image_dimension ih ->
  0 <= cw <= iw -> 0 <= ch <= ih ->
  exists best r,
    max_by_key score persons = Some best /\ In best persons /\
    person_crop persons iw ih cw ch = Some r /\
    method r = "person"%string /\
    Box.width (crop_box r) = cw /\ Box.height (crop_box r) = ch /\
    0 <= Box.x (crop_box r) <= iw - cw /\
    0 <= Box.y (crop_box r) <= ih - ch /\
    (0 <= Box.y (Detection.box best) <= ih ->
     Box.y (crop_box r) <= Box.y (Detection.box best)
       <= Box.y (crop_box r) + Box.height (crop_box r)).
Proof.
  intros Hne Hall Hiw Hih Hcw Hch. unfold image_dimension in *.
  destruct (max_by_key_total persons Hne Hall) as (best & Hbest & Hin).
  exists best. rewrite Forall_forall in Hall.
  destruct (Hall best ltac:(now apply list_elem_of_In)) as ((Hx & Hy & Hw & Hh) & Hconf & Hqual).
  unfold person_crop. rewrite Hbest. cbn [mbind option_bind].
  set (px := Box.x (Detection.box best)) in *.
  set (py := Box.y (Detection.box best)) in *.
  set (pw := Box.width (Detection.box best)) in *.
  set (ph := Box.height (Detection.box best)) in *.
  assert (Bcw : bounded 31 (inject_Z cw)) by (apply bounded_inject; lia).
  assert (Bch : bounded 31 (inject_Z ch)) by (apply bounded_inject; lia).
  assert (Ech : exact_int ch) by (unfold exact_int; lia).
  repeat float_step.
  pose proof (scaled_fraction ch (lit (20 # 100)) ltac:(lia) Ech
                (unit_interval_lit (20 # 100) ltac:(split; lra))) as H20.
  pose proof (scaled_fraction ch (lit (5 # 100)) ltac:(lia) Ech
                (unit_interval_lit (5 # 100) ltac:(split; lra))) as H5.
  pose proof (scaled_fraction ch (lit (1 # 10)) ltac:(lia) Ech
                (unit_interval_lit (1 # 10) ltac:(split; lra))) as H10.
  set (t20 := to_int (round_ne (inject_Z ch * lit (20 # 100)))) in *.
  set (t5 := to_int (round_ne (inject_Z ch * lit (5 # 100)))) in *.
  set (t10 := to_int (round_ne (inject_Z ch * lit (1 # 10)))) in *.
  match goal with
  | |- context [Z.max 0 (Z.min (iw - cw) (to_int ?e))] =>
      set (ix := to_int e)
  end.
  assert (Hfinal : forall cy,
             0 <= cy <= ih - ch ->
             exists cy',
               (if negb ((cy <=? py) && (py <=? cy + ch))
                then Some ((0 `max` (py - t10)) `min` (ih - ch))
                else Some cy) = Some cy' /\
               0 <= cy' <= ih - ch /\
               (0 <= py <= ih -> cy' <= py <= cy' + ch)).
  { intros cy Hcy.
    destruct (negb _) eqn:E; eexists; (split; [reflexivity|]); split; lia. }
  destruct (py <=? _); cbn [mbind option_bind];
    match goal with
    | |- context [negb ((?cy <=? py) && _)] =>
        destruct (Hfinal cy ltac:(lia)) as (cy' & -> & Hcy' & Htop)
    end;
    cbn [mbind option_bind]; eexists;
    (split; [reflexivity|]); (split; [exact Hin|]);
    (split; [reflexivity|]); cbn [crop_box method Box.x Box.y Box.width Box.height];
    repeat split; trivial; lia.
Qed.

(** *** The extremes of a list of ints *)

Lemma fold_left_min_in l : forall a, In (fold_left Z.min l a) (a :: l).
Proof.
  induction l as [|b l IH]; intros a; simpl; [now left|].
  destruct (IH (Z.min a b)) as [H|H]; [|right; now right].
  rewrite <- H. destruct (Z.min_spec a b) as [[_ ->]|[_ ->]]; auto.
Qed.

Lemma fold_left_max_in l : forall a, In (fold_left Z.max l a) (a :: l).
Proof.
  induction l as [|b l IH]; intros a; simpl; [now left|].
  destruct (IH (Z.max a b)) as [H|H]; [|right; now right].
  rewrite <- H. destruct (Z.max_spec a b) as [[_ ->]|[_ ->]]; auto.
Qed.

Lemma min_list_map_bounded (g : Detection.t -> Z) faces k :
  faces <> [] ->
  (forall d, In d faces -> bounded k (inject_Z (g d))) ->
  exists m, min_list (map g faces) = Some m /\ bounded k (inject_Z m).
Proof.
  intros Hne Hall. destruct faces as [|d faces]; [contradiction|].
  simpl. eexists. split; [reflexivity|].
  pose proof (fold_left_min_in (map g faces) (g d)) as Hin.
  change (g d :: map g faces) with (List.map g (d :: faces)) in Hin.
  apply List.in_map_iff in Hin as (d' & <- & Hd'). now apply Hall.
Qed.

Lemma max_list_map_bounded (g : Detection.t -> Z) faces k :
  faces <> [] ->
  (forall d, In d faces -> bounded k (inject_Z (g d))) ->
  exists m, max_list (map g faces) = Some m /\ bounded k (inject_Z m).
Proof.
  intros Hne Hall. destruct faces as [|d faces]; [contradiction|].
  simpl. eexists. split; [reflexivity|].
  pose proof (fold_left_max_in (map g faces) (g d)) as Hin.
  change (g d :: map g faces) with (List.map g (d :: faces)) in Hin.
  apply List.in_map_iff in Hin as (d' & <- & Hd'). now apply Hall.
Qed.

(** *** The constants of the face strategy *)

Lemma lit_tenth : lit (1 # 10) = (3602879701896397 # 36028797018963968)%Q.
Proof. vm_compute. reflexivity. Qed.

Lemma lit_nine_tenths : lit (9 # 10) = (8106479329266893 # 9007199254740992)%Q.
Proof. vm_compute. reflexivity. Qed.

Lemma lit_headroom :
  default_headroom_ratio = (5404319552844595 # 36028797018963968)%Q.
Proof. vm_compute. reflexivity. Qed.

Lemma inject_Z_times_le n (c : Q) m :
  (Qnum c * n <= m * Zpos (Qden c))%Z -> (inject_Z n * c <= inject_Z m)%Q.
Proof.
  intros H. destruct c as [p q]. unfold Qle, Qmult, inject_Z. simpl in *. lia.
Qed.

Lemma inject_Z_le_times n (c : Q) m :
  (m * Zpos (Qden c) <= Qnum c * n)%Z -> (inject_Z m <= inject_Z n * c)%Q.
Proof.
  intros H. destruct c as [p q]. unfold Qle, Qmult, inject_Z. simpl in *. lia.
Qed.

Lemma round_ne_le_int x n :
  exact_int n -> (x <= inject_Z n)%Q -> (round_ne x <= inject_Z n)%Q.
Proof.
  intros Hn H. rewrite <- (round_ne_int n Hn). now apply round_ne_mono.
Qed.

Lemma round_ne_ge_int x n :
  exact_int n -> (inject_Z n <= x)%Q -> (inject_Z n <= round_ne x)%Q.
Proof.
  intros Hn H. rewrite <- (round_ne_int n Hn). now apply round_ne_mono.
Qed.

(** [int(x)] of a number between two ints lies between them. *)
Lemma to_int_between lo hi x :
  (inject_Z lo <= x <= inject_Z hi)%Q -> lo <= to_int x <= hi.
Proof.
  intros [Hlo Hhi]. unfold to_int.
  pose proof (floor_bounds x) as [Hfl Hfh].
  pose proof (Qle_ceiling x) as Hcl.
  pose proof (Qceiling_lt x) as Hch. rewrite inject_Z_minus in Hch.
  change (inject_Z 1) with 1%Q in Hch.
  assert (lo <= Qfloor x).
  { rewrite <- (Qfloor_Z lo). now apply Qfloor_resp_le. }
  assert (Qceiling x <= hi).
  { rewrite <- (Qceiling_Z hi). now apply Qceiling_resp_le. }
  assert (Qfloor x <= Qceiling x).
  { rewrite Zle_Qle. apply Qle_floor_ceiling. }
  destruct (Qle_bool 0 x); lia.
Qed.

(** The headroom of a face of height [fh] at the default ratio. *)
Lemma default_headroom_bounds fh :
  0 <= fh < 2 ^ 31 ->
  let headroom := to_int (round_ne (inject_Z fh * default_headroom_ratio)) in
  0 <= headroom /\ 20 * headroom <= 3 * fh + 19.
Proof.
  intros Hfh headroom. subst headroom. rewrite lit_headroom.
  set (c := (5404319552844595 # 36028797018963968)%Q).
  set (J := (3 * fh + 19) / 20).
  assert (HJ : 20 * J <= 3 * fh + 19 /\ 3 * fh <= 20 * J).
  { subst J. pose proof (Z.div_mod (3 * fh + 19) 20 ltac:(lia)).
    pose proof (Z.mod_pos_bound (3 * fh + 19) 20 ltac:(lia)). lia. }
  assert (Hq : (0 <= inject_Z fh)%Q).
  { change 0%Q with (inject_Z 0). rewrite <- Zle_Qle. lia. }
  assert (Hlo : (0 <= round_ne (inject_Z fh * c))%Q).
  { apply round_ne_nonneg. subst c. nra. }
  assert (Hhi : (round_ne (inject_Z fh * c) <= inject_Z J)%Q).
  { apply round_ne_le_int; [unfold exact_int; lia|].
    apply inject_Z_times_le. subst c. simpl. lia. }
  split; [now apply to_int_nonneg_le|].
  pose proof (to_int_le_int _ J Hlo Hhi). lia.
Qed.

(** The vertical position chosen by the face strategy keeps a face that
    is small enough between the top and the bottom of the crop. *)
Lemma face_vertical_bounds fy fh ih ch headroom ideal :
  0 <= fy -> 0 <= fh -> fy + fh <= ih -> 0 <= ch <= ih -> ih < 2 ^ 31 ->
  0 <= headroom -> 20 * headroom <= 3 * fh + 19 ->
  23 * fh + 20 <= 18 * ch ->
  let lowered :=
    round_ne (inject_Z (fy - headroom)
              - round_ne (inject_Z ch * lit (1 # 10)))%Q in
  let raised :=
    round_ne (inject_Z (fy + fh)
              - round_ne (inject_Z ch * lit (9 # 10)))%Q in
  let min_crop_y_for_face := max2 0 lowered in
  let max_crop_y_for_face := min2 (inject_Z (ih - ch)) raised in
  let crop_y :=
    if fltb (inject_Z ideal) min_crop_y_for_face then
      to_int min_crop_y_for_face
    else if fltb max_crop_y_for_face (inject_Z ideal) then
      to_int max_crop_y_for_face
    else ideal in
  fy + fh - ch <= crop_y <= fy.
Proof.
  intros Hfy Hfh Hin Hch Hih Hh0 Hh Hsmall.
  intros lowered raised min_y max_y crop_y.
  assert (Hchq : (0 <= inject_Z ch)%Q).
  { change 0%Q with (inject_Z 0). rewrite <- Zle_Qle. lia. }
  set (t10 := round_ne (inject_Z ch * lit (1 # 10))) in *.
  set (t90 := round_ne (inject_Z ch * lit (9 # 10))) in *.
  assert (Ht10lo : (0 <= t10)%Q).
  { apply round_ne_nonneg. rewrite lit_tenth. nra. }
  assert (Ht10hi : (t10 <= inject_Z (ch - fh - headroom))%Q).
  { apply round_ne_le_int; [unfold exact_int; lia|].
    apply inject_Z_times_le. rewrite lit_tenth. simpl. lia. }
  assert (Ht90lo : (inject_Z fh <= t90)%Q).
  { apply round_ne_ge_int; [unfold exact_int; lia|].
    apply inject_Z_le_times. rewrite lit_nine_tenths. simpl. lia. }
  assert (Ht90hi : (t90 <= inject_Z ch)%Q).
  { apply round_ne_le_int; [unfold exact_int; lia|].
    apply inject_Z_times_le. rewrite lit_nine_tenths. simpl. lia. }
  assert (Hhq : (0 <= inject_Z headroom)%Q).
  { change 0%Q with (inject_Z 0). rewrite <- Zle_Qle. lia. }
  (* F1, F2: the lowered bound *)
  assert (HL1 : (lowered <= inject_Z fy)%Q).
  { apply round_ne_le_int; [unfold exact_int; lia|].
    rewrite inject_Z_minus. lra. }
  assert (HL2 : (inject_Z (fy + fh - ch) <= lowered)%Q).
  { apply round_ne_ge_int; [unfold exact_int; lia|].
    rewrite !inject_Z_minus, inject_Z_plus in *. lra. }
  (* F3, F4: the raised bound *)
  assert (HR1 : (raised <= inject_Z fy)%Q).
  { apply round_ne_le_int; [unfold exact_int; lia|].
    rewrite inject_Z_plus. lra. }
  assert (HR2 : (inject_Z (fy + fh - ch) <= raised)%Q).
  { apply round_ne_ge_int; [unfold exact_int; lia|].
    rewrite inject_Z_minus, inject_Z_plus. lra. }
  assert (Hfyq : (0 <= inject_Z fy)%Q).
  { change 0%Q with (inject_Z 0). rewrite <- Zle_Qle. lia. }
  assert (Hmin : (inject_Z (fy + fh - ch) <= min_y <= inject_Z fy)%Q).
  { subst min_y. unfold max2. destruct (fltb 0 lowered) eqn:E.
    - split; assumption.
    - apply fltb_false in E. split; lra. }
  assert (Hmax : (inject_Z (fy + fh - ch) <= max_y <= inject_Z fy)%Q).
  { subst max_y. unfold min2. destruct (fltb raised _) eqn:E.
    - split; assumption.
    - apply fltb_false in E. split; [|lra].
      rewrite <- Zle_Qle. lia. }
  subst crop_y.
  destruct (fltb (inject_Z ideal) min_y) eqn:E1.
  - now apply to_int_between.
  - destruct (fltb max_y (inject_Z ideal)) eqn:E2.
    + now apply to_int_between.
    + apply fltb_false in E1, E2. destruct Hmin, Hmax.
      split; rewrite Zle_Qle; lra.
Qed.

(** *** Halves of ints are floats *)

Lemma round_ne_halves x n :
  exact_int n -> (x == inject_Z n / inject_Z 2)%Q -> (round_ne x == x)%Q.
Proof.
  intros Hn Hx.
  assert (E : (x == inject_Z n * pow2 (-1))%Q).
  { rewrite Hx. unfold pow2. simpl. field. }
  rewrite (round_ne_proper _ _ E), round_ne_exact.
  - now symmetry.
  - exact Hn.
  - unfold emin, emax, prec. lia.
Qed.

(** The horizontal position that centres the crop on a span
    [left .. right] of the image: [int((left + right) / 2 - cw / 2)]
    lies between [right - cw] and [left] when the span fits. *)
Lemma centred_between (ideal : Q) left right cw :
  (ideal == inject_Z (left + right - cw) / inject_Z 2)%Q ->
  right - left <= cw ->
  right - cw <= to_int ideal <= left.
Proof.
  intros E Hfit. apply to_int_between. rewrite E.
  rewrite !inject_Z_minus, !inject_Z_plus.
  rewrite Zle_Qle, !inject_Z_minus in Hfit.
  change (inject_Z 2) with 2%Q. split.
  - apply Qle_shift_div_l; [reflexivity|]. lra.
  - apply Qle_shift_div_r; [reflexivity|]. lra.
Qed.

Lemma ideal_x_single fx fw cw :
  pixel fx -> pixel fw -> pixel cw -> fw <= cw ->
  fx + fw - cw
    <= to_int (round_ne (round_ne (inject_Z fx
                                   + round_ne (inject_Z fw / inject_Z 2))
                         - round_ne (inject_Z cw / inject_Z 2)))
    <= fx.
Proof.
  unfold pixel. intros Hx Hw Hc Hfit.
  assert (E1 : (round_ne (inject_Z fw / inject_Z 2)
                == inject_Z fw / inject_Z 2)%Q).
  { apply (round_ne_halves _ fw); [unfold exact_int; lia|reflexivity]. }
  assert (E2 : (round_ne (inject_Z cw / inject_Z 2)
                == inject_Z cw / inject_Z 2)%Q).
  { apply (round_ne_halves _ cw); [unfold exact_int; lia|reflexivity]. }
  assert (E3 : (round_ne (inject_Z fx + round_ne (inject_Z fw / inject_Z 2))
                == inject_Z (2 * fx + fw) / inject_Z 2)%Q).
  { assert (E : (inject_Z fx + round_ne (inject_Z fw / inject_Z 2)
                 == inject_Z (2 * fx + fw) / inject_Z 2)%Q).
    { rewrite E1, inject_Z_plus, inject_Z_mult. field. }
    rewrite (round_ne_halves _ (2 * fx + fw)); [exact E| |exact E].
    unfold exact_int. lia. }
  assert (E4 : (round_ne (round_ne (inject_Z fx
                                    + round_ne (inject_Z fw / inject_Z 2))
                          - round_ne (inject_Z cw / inject_Z 2))
                == inject_Z (fx + (fx + fw) - cw) / inject_Z 2)%Q).
  { assert (E : (round_ne (inject_Z fx + round_ne (inject_Z fw / inject_Z 2))
                 - round_ne (inject_Z cw / inject_Z 2)
                 == inject_Z (fx + (fx + fw) - cw) / inject_Z 2)%Q).
    { rewrite E3, E2, inject_Z_minus, !inject_Z_plus, inject_Z_mult. field. }
    rewrite (round_ne_halves _ (fx + (fx + fw) - cw)); [exact E| |exact E].
    unfold exact_int. lia. }
  pose proof (centred_between _ fx (fx + fw) cw E4 ltac:(lia)). lia.
Qed.

Lemma ideal_x_group min_x max_x cw :
  Z.abs min_x <= 2 ^ 31 -> Z.abs max_x <= 2 ^ 32 -> pixel cw ->
  max_x - min_x <= cw ->
  max_x - cw
    <= to_int (round_ne (round_ne (inject_Z (min_x + max_x) / inject_Z 2)
                         - round_ne (inject_Z cw / inject_Z 2)))
    <= min_x.
Proof.
  unfold pixel. intros Hx Hw Hc Hfit.
  assert (E1 : (round_ne (inject_Z (min_x + max_x) / inject_Z 2)
                == inject_Z (min_x + max_x) / inject_Z 2)%Q).
  { apply (round_ne_halves _ (min_x + max_x));
      [unfold exact_int; lia|reflexivity]. }
  assert (E2 : (round_ne (inject_Z cw / inject_Z 2)
                == inject_Z cw / inject_Z 2)%Q).
  { apply (round_ne_halves _ cw); [unfold exact_int; lia|reflexivity]. }
  assert (E4 : (round_ne (round_ne (inject_Z (min_x + max_x) / inject_Z 2)
                          - round_ne (inject_Z cw / inject_Z 2))
                == inject_Z (min_x + max_x - cw) / inject_Z 2)%Q).
  { assert (E : (round_ne (inject_Z (min_x + max_x) / inject_Z 2)
                 - round_ne (inject_Z cw / inject_Z 2)
                 == inject_Z (min_x + max_x - cw) / inject_Z 2)%Q).
    { rewrite E1, E2, inject_Z_minus. field. }
    rewrite (round_ne_halves _ (min_x + max_x - cw)); [exact E| |exact E].
    unfold exact_int. lia. }
  exact (centred_between _ min_x max_x cw E4 Hfit).
Qed.

(** *** The extremes bound every element *)

Lemma fold_left_min_le l : forall a x, In x (a :: l) -> fold_left Z.min l a <= x.
Proof.
  induction l as [|b l IH]; intros a x Hx; simpl.
  - destruct Hx as [->|[]]. lia.
  - destruct Hx as [->|[->|Hx]].
    + specialize (IH (Z.min x b) (Z.min x b) ltac:(now left)). lia.
    + specialize (IH (Z.min a x) (Z.min a x) ltac:(now left)). lia.
    + apply IH. now right.
Qed.

Lemma fold_left_max_ge l : forall a x, In x (a :: l) -> x <= fold_left Z.max l a.
Proof.
  induction l as [|b l IH]; intros a x Hx; simpl.
  - destruct Hx as [->|[]]. lia.
  - destruct Hx as [->|[->|Hx]].
    + specialize (IH (Z.max x b) (Z.max x b) ltac:(now left)). lia.
    + specialize (IH (Z.max a x) (Z.max a x) ltac:(now left)). lia.
    + apply IH. now right.
Qed.

Lemma min_list_spec xs m :
  min_list xs = Some m -> In m xs /\ forall x, In x xs -> m <= x.
Proof.
  destruct xs as [|a l]; [discriminate|]. intros [= <-]. split.
  - apply fold_left_min_in.
  - apply fold_left_min_le.
Qed.

Lemma max_list_spec xs m :
  max_list xs = Some m -> In m xs /\ forall x, In x xs -> x <= m.
Proof.
  destruct xs as [|a l]; [discriminate|]. intros [= <-]. split.
  - apply fold_left_max_in.
  - apply fold_left_max_ge.
Qed.

(** *** [max(items, key=...)] returns a maximal item *)

Lemma max_from_maximal {A} (key : A -> option float) items :
  forall best kbest b,
  key best = Some kbest -> max_from key best kbest items = Some b ->
  (b = best \/ In b items) /\
  exists kb, key b = Some kb /\ (kbest <= kb)%Q /\
    forall d, In d items -> exists kd, key d = Some kd /\ (kd <= kb)%Q.
Proof.
  induction items as [|a items IH]; intros best kbest b Hbest H; simpl in H.
  - injection H as <-. split; [now left|].
    exists kbest. repeat split; trivial; [lra|intros d []].
  - destruct (key a) as [ka|] eqn:Ha; [|discriminate]. cbn in H.
    destruct (fltb kbest ka) eqn:E.
    + apply fltb_true in E.
      destruct (IH a ka b Ha H) as (Hin & kb & Hb & Hle & Hall).
      split; [right; destruct Hin as [->|Hin]; [now left|now right]|].
      exists kb. repeat split; trivial; [lra|].
      intros d [<-|Hd]; [exists ka; split; trivial|now apply Hall].
    + apply fltb_false in E.
      destruct (IH best kbest b Hbest H) as (Hin & kb & Hb & Hle & Hall).
      split; [destruct Hin as [->|Hin]; [now left|right; now right]|].
      exists kb. repeat split; trivial.
      intros d [<-|Hd]; [exists ka; split; trivial; lra|now apply Hall].
Qed.

Lemma max_by_key_maximal {A} (key : A -> option float) items b :
  max_by_key key items = Some b ->
  In b items /\
  exists kb, key b = Some kb /\
    forall d, In d items -> exists kd, key d = Some kd /\ (kd <= kb)%Q.
Proof.
  destruct items as [|a items]; [discriminate|]. simpl. intros H.
  destruct (key a) as [ka|] eqn:Ha; [|discriminate]. cbn in H.
  destruct (max_from_maximal key items a ka b Ha H)
    as (Hin & kb & Hb & Hle & Hall).
  split; [destruct Hin as [->|Hin]; [now left|now right]|].
  exists kb. split; trivial.
  intros d [<-|Hd]; [exists ka; split; trivial|now apply Hall].
Qed.

(** *** Strategy 1: the face crop *)

Lemma bounded_inject_abs k n :
  0 <= k -> bounded k (inject_Z n) -> Z.abs n <= 2 ^ k.
Proof.
  intros Hk H. unfold bounded in H. rewrite pow2_inject in H by exact Hk.
  assert (E : (Qabs (inject_Z n) == inject_Z (Z.abs n))%Q) by reflexivity.
  now rewrite E, <- Zle_Qle in H.
Qed.

Lemma span_extremes faces best cw min_x max_x :
  span_fits faces cw -> In best faces ->
  min_list (map (fun f => Box.x (Detection.box f)) faces) = Some min_x ->
  max_list (map (fun f => Box.x (Detection.box f)
                          + Box.width (Detection.box f)) faces) = Some max_x ->
  max_x - min_x <= cw /\
  min_x <= Box.x (Detection.box best) /\
  Box.x (Detection.box best) + Box.width (Detection.box best) <= max_x.
Proof.
  intros Hfit Hin Hmin Hmax.
  apply min_list_spec in Hmin as [Hmin_in Hmin_le].
  apply max_list_spec in Hmax as [Hmax_in Hmax_ge].
  apply List.in_map_iff in Hmin_in as (g & <- & Hg).
  apply List.in_map_iff in Hmax_in as (f & <- & Hf).
  split; [now apply Hfit|]. split.
  - apply Hmin_le. apply List.in_map_iff. now exists best.
  - apply Hmax_ge. apply List.in_map_iff. now exists best.
Qed.

Lemma face_crop_spec faces iw ih cw ch hr :
  faces <> [] -> Forall detection_in_range faces ->
  image_dimension iw -> image_dimension ih ->
  0 <= cw <= iw -> 0 <= ch <= ih ->
  unit_interval hr ->
  exists best r,
    max_by_key score faces = Some best /\ In best faces /\
    face_crop faces iw ih cw ch hr = Some r /\
    method r = "face"%string /\
    Box.width (crop_box r) = cw /\ Box.height (crop_box r) = ch /\
    0 <= Box.x (crop_box r) <= iw - cw /\
    0 <= Box.y (crop_box r) <= ih - ch /\
    (box_inside (Detection.box best) iw ih ->
     (hr = default_headroom_ratio ->
      23 * Box.height (Detection.box best) + 20 <= 18 * ch ->
      Box.y (crop_box r) <= Box.y (Detection.box best) /\
      Box.y (Detection.box best) + Box.height (Detection.box best)
        <= Box.y (crop_box r) + ch) /\
     (span_fits faces cw ->
      Box.x (crop_box r) <= Box.x (Detection.box best) /\
      Box.x (Detection.box best) + Box.width (Detection.box best)
        <= Box.x (crop_box r) + cw)).
Proof.
  intros Hne Hall Hiw Hih Hcw Hch Hhr. unfold image_dimension in *.
  destruct (max_by_key_total faces Hne Hall) as (best & Hbest & Hin).
  exists best. rewrite Forall_forall in Hall.
  destruct (Hall best ltac:(now apply list_elem_of_In))
    as ((Hx & Hy & Hw & Hh) & Hconf & Hqual).
  assert (Hboxes : forall d, In d faces -> box_in_range (Detection.box d)).
  { intros d Hd. apply list_elem_of_In in Hd. now destruct (Hall d Hd). }
  unfold face_crop. rewrite Hbest. cbn [mbind option_bind].
  unfold box_inside.
  set (fx := Box.x (Detection.box best)) in *.
  set (fy := Box.y (Detection.box best)) in *.
  set (fw := Box.width (Detection.box best)) in *.
  set (fh := Box.height (Detection.box best)) in *.
  assert (Bcw : bounded 31 (inject_Z cw)) by (apply bounded_inject; lia).
  assert (Bch : bounded 31 (inject_Z ch)) by (apply bounded_inject; lia).
  assert (Bd : bounded 31 (inject_Z (ih - ch))) by (apply bounded_inject; lia).
  assert (Hvert : forall ideal,
    0 <= fy /\ 0 <= fh /\ fy + fh <= ih ->
    hr = default_headroom_ratio -> 23 * fh + 20 <= 18 * ch ->
    let headroom := to_int (round_ne (inject_Z fh * hr)) in
    let lowered :=
      round_ne (inject_Z (fy - headroom)
                - round_ne (inject_Z ch * lit (1 # 10)))%Q in
    let raised :=
      round_ne (inject_Z (fy + fh)
                - round_ne (inject_Z ch * lit (9 # 10)))%Q in
    let crop_y :=
      if fltb (inject_Z ideal) (max2 0 lowered) then
        to_int (max2 0 lowered)
      else if fltb (min2 (inject_Z (ih - ch)) raised) (inject_Z ideal) then
        to_int (min2 (inject_Z (ih - ch)) raised)
      else ideal in
    fy + fh - ch <= crop_y <= fy).
  { intros ideal (H1 & H2 & H3) -> Hsmall.
    destruct (default_headroom_bounds fh ltac:(unfold pixel in Hh; lia))
      as [Hh0 Hh20].
    apply face_vertical_bounds; trivial; lia. }
  repeat float_step.
  destruct (1 <? Z.of_nat (length faces)).
  - destruct (min_list_map_bounded (fun f => Box.x (Detection.box f)) faces 31 Hne)
      as (min_x & Emin_x & Bmin_x).
    { intros d Hd. apply bounded_pixel, (Hboxes d Hd). }
    rewrite Emin_x. cbn [mbind option_bind].
    destruct (max_list_map_bounded
                (fun f => Box.x (Detection.box f) + Box.width (Detection.box f))
                faces 32 Hne) as (max_x & Emax_x & Bmax_x).
    { intros d Hd. destruct (Hboxes d Hd) as (? & ? & ? & ?).
      change 32 with (Z.max 31 31 + 1).
      apply bounded_inject_add; now apply bounded_pixel. }
    rewrite Emax_x. cbn [mbind option_bind].
    destruct (min_list_map_bounded (fun f => Box.y (Detection.box f)) faces 31 Hne)
      as (min_y & -> & Bmin_y).
    { intros d Hd. apply bounded_pixel, (Hboxes d Hd). }
    cbn [mbind option_bind].
    destruct (max_list_map_bounded
                (fun f => Box.y (Detection.box f) + Box.height (Detection.box f))
                faces 32 Hne) as (max_y & -> & Bmax_y).
    { intros d Hd. destruct (Hboxes d Hd) as (? & ? & ? & ?).
      change 32 with (Z.max 31 31 + 1).
      apply bounded_inject_add; now apply bounded_pixel. }
    cbn [mbind option_bind].
    repeat float_step.
    eexists. split; [reflexivity|]. split; [exact Hin|].
    split; [reflexivity|]. cbn [crop_box method Box.x Box.y Box.width Box.height].
    split; [reflexivity|]. split; [reflexivity|]. split; [reflexivity|].
    split; [lia|]. split; [lia|].
    intros (I1 & I2 & I3 & I4 & I5 & I6). split.
    + intros Ehr Hsmall.
      match goal with
      | |- context [fltb (inject_Z (to_int ?e)) _] =>
          pose proof (Hvert (to_int e) ltac:(lia) Ehr Hsmall) as Hv
      end.
      cbv zeta in Hv. lia.
    + intros Hfit.
      destruct (span_extremes faces best cw min_x max_x Hfit Hin Emin_x Emax_x)
        as (S1 & S2 & S3). fold fx fw in S2, S3.
      pose proof (ideal_x_group min_x max_x cw
                    (bounded_inject_abs 31 _ ltac:(lia) Bmin_x)
                    (bounded_inject_abs 32 _ ltac:(lia) Bmax_x)
                    ltac:(unfold pixel; lia) S1) as Hxs.
      lia.
  - cbn [mbind option_bind].
    repeat float_step.
    eexists. split; [reflexivity|]. split; [exact Hin|].
    split; [reflexivity|]. cbn [crop_box method Box.x Box.y Box.width Box.height].
    split; [reflexivity|]. split; [reflexivity|]. split; [reflexivity|].
    split; [lia|]. split; [lia|].
    intros (I1 & I2 & I3 & I4 & I5 & I6). split.
    + intros Ehr Hsmall.
      match goal with
      | |- context [fltb (inject_Z (to_int ?e)) _] =>
          pose proof (Hvert (to_int e) ltac:(lia) Ehr Hsmall) as Hv
      end.
      cbv zeta in Hv. lia.
    + intros Hfit.
      pose proof (Hfit best best Hin Hin) as S1. fold fx fw in S1.
      pose proof (ideal_x_single fx fw cw Hx Hw
                    ltac:(unfold pixel; lia) ltac:(lia)) as Hxs.
      lia.
Qed.

Lemma max_by_key_maximises items best :
  max_by_key score items = Some best -> maximises_score best items.
Proof. apply max_by_key_maximal. Qed.

(** *** The three strategies together *)

(** What every strategy returns. *)
Lemma calculate_smart_crop_spec image_path aw ah faces persons iw ih hr :
  aspect_term aw -> aspect_term ah ->
  image_dimension iw -> image_dimension ih ->
  Forall detection_in_range faces -> Forall detection_in_range persons ->
  unit_interval hr ->
  exists r,
    calculate_smart_crop image_path (aw, ah) faces persons iw ih hr = Some r /\
    box_inside (crop_box r) iw ih /\
    maximal_for_ratio (crop_box r) aw ah iw ih /\
    (faces <> [] -> method r = "face"%string) /\
    (faces = [] -> persons <> [] -> method r = "person"%string) /\
    (faces = [] -> persons = [] ->
     r = center_crop iw ih (Box.width (crop_box r)) (Box.height (crop_box r))).
Proof.
  intros Haw Hah Hiw Hih Hfaces Hpersons Hhr.
  destruct (crop_dimensions_spec aw ah iw ih Haw Hah Hiw Hih)
    as (cw & ch & Hdims & Hratio).
  assert (Hcw : 0 <= cw <= iw) by (unfold image_dimension in *; lia).
  assert (Hch : 0 <= ch <= ih) by (unfold image_dimension in *; lia).
  unfold calculate_smart_crop. rewrite Hdims. cbn [mbind option_bind].
  destruct faces as [|f faces].
  - destruct persons as [|p persons].
    + eexists. split; [reflexivity|]. unfold box_inside, maximal_for_ratio.
      cbn [center_crop crop_box method Box.x Box.y Box.width Box.height].
      unfold image_dimension in *.
      split; [|split; [lia|]].
      * pose proof (Z.div_pos (iw - cw) 2 ltac:(lia) ltac:(lia)).
        pose proof (Z.div_pos (ih - ch) 2 ltac:(lia) ltac:(lia)).
        pose proof (Z.div_le_upper_bound (iw - cw) 2 (iw - cw)
                      ltac:(lia) ltac:(lia)).
        pose proof (Z.div_le_upper_bound (ih - ch) 2 (ih - ch)
                      ltac:(lia) ltac:(lia)).
        lia.
      * split; [congruence|]. split; [congruence|]. reflexivity.
    + destruct (person_crop_spec (p :: persons) iw ih cw ch
                  ltac:(discriminate) Hpersons Hiw Hih Hcw Hch)
        as (best & r & _ & _ & Hr & Hm & Hw & Hh & Hx & Hy & _).
      exists r. split; [exact Hr|]. unfold box_inside, maximal_for_ratio.
      rewrite Hw, Hh. split; [lia|]. split; [lia|].
      split; [congruence|]. split; [trivial|]. discriminate.
  - destruct (face_crop_spec (f :: faces) iw ih cw ch hr
                ltac:(discriminate) Hfaces Hiw Hih Hcw Hch Hhr)
      as (best & r & _ & _ & Hr & Hm & Hw & Hh & Hx & Hy & _).
    exists r. split; [exact Hr|]. unfold box_inside, maximal_for_ratio.
    rewrite Hw, Hh. split; [lia|]. split; [lia|].
    split; [trivial|]. split; discriminate.
Qed.

(** Range conditions of concrete inputs. *)
Ltac in_range :=
  repeat match goal with
  | |- Forall _ _ => constructor
  | |- detection_in_range _ => split; [|split]
  | |- box_in_range _ => repeat split
  | |- box_inside _ _ _ => repeat split
  | |- unit_interval _ => split; vm_compute; discriminate
  | |- pixel _ => vm_compute; reflexivity
  | |- aspect_term _ => split; reflexivity
  | |- image_dimension _ => split; reflexivity
  | |- _ <= _ => vm_compute; discriminate
  | |- _ <> [] => discriminate
  end.

(** An exact-ratio rectangle inside the image is at most one pixel
    larger than a crop that is maximal for the ratio. *)
Lemma maximal_for_ratio_largest b aw ah iw ih w h :
  0 < aw -> 0 < ah -> maximal_for_ratio b aw ah iw ih ->
  0 <= w <= iw -> 0 <= h <= ih -> w * ah = h * aw ->
  w <= Box.width b + 1 /\ h <= Box.height b + 1.
Proof.
  intros Haw Hah [[Hh Hr]|[Hw Hr]] Hwr Hhr E.
  - split; [|lia]. nia.
  - split; [lia|]. nia.
Qed.

(** C1: for an image with positive sides, a ratio of positive terms and
    any faces and persons (all within the ranges of the detectors),
    [calculate_smart_crop] returns a crop box that lies within the image
    and is maximal for the ratio: it has the full height and a width at
    most one pixel below [height * w / h], or the full width and a height
    at most one pixel below [width * h / w]. *)
Theorem calculate_smart_crop_within_image_and_maximal
    image_path aw ah faces persons iw ih hr :
  aspect_term aw -> aspect_term ah ->
  image_dimension iw -> image_dimension ih ->
  Forall detection_in_range faces -> Forall detection_in_range persons ->
  unit_interval hr ->
  exists r,
    calculate_smart_crop image_path (aw, ah) faces persons iw ih hr = Some r /\
    box_inside (crop_box r) iw ih /\
    (Box.width (crop_box r) = iw \/ Box.height (crop_box r) = ih) /\
    maximal_for_ratio (crop_box r) aw ah iw ih.
Proof.
  intros Haw Hah Hiw Hih Hfaces Hpersons Hhr.
  destruct (calculate_smart_crop_spec image_path aw ah faces persons iw ih hr
              Haw Hah Hiw Hih Hfaces Hpersons Hhr)
    as (r & Hr & Hin & Hmax & _).
  exists r. repeat split; trivial; try apply Hin.
  destruct Hmax as [[H _]|[H _]]; [now right|now left].
Qed.

Lemma calculate_smart_crop_within_image_and_maximal_witness :
  exists r,
    calculate_smart_crop "stage.jpg" (4, 5) [singer_face; drummer_face]
      [singer] 4000 3000 default_headroom_ratio = Some r /\
    box_inside (crop_box r) 4000 3000 /\
    (Box.width (crop_box r) = 4000 \/ Box.height (crop_box r) = 3000) /\
    maximal_for_ratio (crop_box r) 4 5 4000 3000.
Proof.
  apply calculate_smart_crop_within_image_and_maximal; in_range.
Defined.

(** The float that the literal [0.3] denotes. *)
Example lit_three_tenths :
  lit (3 # 10) = (5404319552844595 # 18014398509481984)%Q.
Proof. vm_compute. reflexivity. Qed.

(** C6: the strategies are tried in strict priority order.  With a face
    the method is 'face'; with no face and a person it is 'person'; with
    neither it is 'saliency', the crop is the geometric centre crop and
    the confidence is the float 0.3. *)
Theorem calculate_smart_crop_strategy_priority
    image_path aw ah faces persons iw ih hr :
  aspect_term aw -> aspect_term ah ->
  image_dimension iw -> image_dimension ih ->
  Forall detection_in_range faces -> Forall detection_in_range persons ->
  unit_interval hr ->
  exists r,
    calculate_smart_crop image_path (aw, ah) faces persons iw ih hr = Some r /\
    (faces <> [] -> method r = "face"%string) /\
    (faces = [] -> persons <> [] -> method r = "person"%string) /\
    (faces = [] -> persons = [] ->
     method r = "saliency"%string /\
     confidence r = lit (3 # 10) /\
     Box.x (crop_box r) = (iw - Box.width (crop_box r)) / 2 /\
     Box.y (crop_box r) = (ih - Box.height (crop_box r)) / 2).
Proof.
  intros Haw Hah Hiw Hih Hfaces Hpersons Hhr.
  destruct (calculate_smart_crop_spec image_path aw ah faces persons iw ih hr
              Haw Hah Hiw Hih Hfaces Hpersons Hhr)
    as (r & Hr & _ & _ & Hface & Hperson & Hcentre).
  exists r. repeat split; trivial;
    specialize (Hcentre ltac:(assumption) ltac:(assumption));
    set (cw := Box.width (crop_box r)) in *;
    set (ch := Box.height (crop_box r)) in *;
    now rewrite Hcentre.
Qed.

Lemma calculate_smart_crop_strategy_priority_witness :
  exists r,
    calculate_smart_crop "empty_stage.jpg" (16, 9) [] [] 4000 3000
      default_headroom_ratio = Some r /\
    method r = "saliency"%string /\
    confidence r = lit (3 # 10) /\
    Box.x (crop_box r) = (4000 - Box.width (crop_box r)) / 2 /\
    Box.y (crop_box r) = (3000 - Box.height (crop_box r)) / 2.
Proof.
  destruct (calculate_smart_crop_strategy_priority
              "empty_stage.jpg" 16 9 [] [] 4000 3000 default_headroom_ratio)
    as (r & Hr & _ & _ & Hcentre); [in_range..|].
  exists r. split; [exact Hr|]. now apply Hcentre.
Defined.

(** The three strategies on concrete photos. *)
Example strategy_examples :
  (method <$> calculate_smart_crop "a.jpg" (4, 5) [singer_face] [singer]
                4000 3000 default_headroom_ratio) = Some "face"%string /\
  (method <$> calculate_smart_crop "a.jpg" (4, 5) [] [singer]
                4000 3000 default_headroom_ratio) = Some "person"%string /\
  calculate_smart_crop "a.jpg" (16, 9) [] [] 4000 3000 default_headroom_ratio
  = Some {| crop_box := {| Box.x := 0; Box.y := 375;
                           Box.width := 4000; Box.height := 2250 |};
            confidence := (5404319552844595 # 18014398509481984)%Q;
            method := "saliency";
            reason := "No faces or persons detected, using center crop" |}.
Proof. repeat split; vm_compute; reflexivity. Qed.

(** C3: with no face and at least one person, the top edge of the
    chosen person, the one [max] returns for the key
    [quality_score * confidence], lies between the top and the bottom of
    the crop when the person's box lies inside the image. *)
Theorem person_top_within_crop image_path aw ah persons iw ih hr best :
  aspect_term aw -> aspect_term ah ->
  image_dimension iw -> image_dimension ih ->
  Forall detection_in_range persons ->
  max_by_key score persons = Some best ->
  box_inside (Detection.box best) iw ih ->
  maximises_score best persons /\
  exists r,
    calculate_smart_crop image_path (aw, ah) [] persons iw ih hr = Some r /\
    method r = "person"%string /\
    Box.y (crop_box r) <= Box.y (Detection.box best)
      <= Box.y (crop_box r) + Box.height (crop_box r).
Proof.
  intros Haw Hah Hiw Hih Hpersons Hbest Hinside.
  split; [now apply max_by_key_maximises|].
  destruct (crop_dimensions_spec aw ah iw ih Haw Hah Hiw Hih)
    as (cw & ch & Hdims & Hratio).
  assert (Hcw : 0 <= cw <= iw) by (unfold image_dimension in *; lia).
  assert (Hch : 0 <= ch <= ih) by (unfold image_dimension in *; lia).
  assert (Hne : persons <> []) by (intros ->; discriminate).
  destruct (person_crop_spec persons iw ih cw ch Hne Hpersons Hiw Hih Hcw Hch)
    as (best' & r & Hbest' & _ & Hr & Hm & _ & _ & _ & _ & Htop).
  assert (best' = best) as -> by congruence.
  exists r. unfold calculate_smart_crop. rewrite Hdims.
  cbn [mbind option_bind].
  destruct persons as [|p persons]; [contradiction|].
  split; [exact Hr|]. split; [exact Hm|].
  apply Htop. unfold box_inside in Hinside. lia.
Qed.

Lemma person_top_within_crop_witness :
  maximises_score singer [singer] /\
  exists r,
    calculate_smart_crop "stage.jpg" (4, 5) [] [singer] 4000 3000
      default_headroom_ratio = Some r /\
    method r = "person"%string /\
    Box.y (crop_box r) <= Box.y (Detection.box singer)
      <= Box.y (crop_box r) + Box.height (crop_box r).
Proof.
  apply person_top_within_crop; in_range. reflexivity.
Defined.

(** C2, as stated, fails: the face of a close-up is taller than the
    widest 16:9 crop of the photo, and no crop of that ratio can contain
    it. *)
Lemma best_face_taller_than_crop_is_cut :
  exists r,
    max_by_key score [closeup_face] = Some closeup_face /\
    calculate_smart_crop "closeup.jpg" (16, 9) [closeup_face] [] 3000 4000
      default_headroom_ratio = Some r /\
    crop_box r = {| Box.x := 0; Box.y := 796;
                    Box.width := 3000; Box.height := 1687 |} /\
    ~ box_within (Detection.box closeup_face) (crop_box r).
Proof.
  eexists. split; [reflexivity|]. split; [vm_compute; reflexivity|].
  split; [reflexivity|]. unfold box_within. simpl. lia.
Qed.

(** Faces that would fit can be cut as well: the crop is centred on the
    whole group of faces, and the headroom moves it up. *)
Example best_face_outside_group_crop :
  exists r,
    max_by_key score [left_face; far_face] = Some left_face /\
    calculate_smart_crop "band.jpg" (4, 5) [left_face; far_face] [] 4000 3000
      default_headroom_ratio = Some r /\
    crop_box r = {| Box.x := 800; Box.y := 0;
                    Box.width := 2400; Box.height := 3000 |} /\
    ~ box_within (Detection.box left_face) (crop_box r).
Proof.
  eexists. split; [reflexivity|]. split; [vm_compute; reflexivity|].
  split; [reflexivity|]. unfold box_within. simpl. lia.
Qed.

Example tall_face_bottom_is_cut :
  exists r,
    max_by_key score [tall_face] = Some tall_face /\
    calculate_smart_crop "portrait.jpg" (16, 9) [tall_face] [] 1000 1000
      default_headroom_ratio = Some r /\
    crop_box r = {| Box.x := 0; Box.y := 294;
                    Box.width := 1000; Box.height := 562 |} /\
    ~ box_within (Detection.box tall_face) (crop_box r).
Proof.
  eexists. split; [reflexivity|]. split; [vm_compute; reflexivity|].
  split; [reflexivity|]. unfold box_within. simpl. lia.
Qed.

(** C2, as the code has it: with the default headroom ratio, the face
    that [max] returns for the key [quality_score * confidence] lies
    fully within the crop when its box lies inside the image, its height
    [h] satisfies [23 * h + 20 <= 18 * crop_height], and the faces span
    no more than the width of the crop. *)
Theorem best_face_within_crop_when_it_fits
    image_path aw ah faces persons iw ih best cw ch :
  aspect_term aw -> aspect_term ah ->
  image_dimension iw -> image_dimension ih ->
  Forall detection_in_range faces ->
  max_by_key score faces = Some best ->
  crop_dimensions (aw, ah) iw ih = Some (cw, ch) ->
  box_inside (Detection.box best) iw ih ->
  23 * Box.height (Detection.box best) + 20 <= 18 * ch ->
  span_fits faces cw ->
  maximises_score best faces /\
  exists r,
    calculate_smart_crop image_path (aw, ah) faces persons iw ih
      default_headroom_ratio = Some r /\
    method r = "face"%string /\
    Box.width (crop_box r) = cw /\ Box.height (crop_box r) = ch /\
    box_within (Detection.box best) (crop_box r).
Proof.
  intros Haw Hah Hiw Hih Hfaces Hbest Hdims Hinside Hsmall Hfit.
  split; [now apply max_by_key_maximises|].
  destruct (crop_dimensions_spec aw ah iw ih Haw Hah Hiw Hih)
    as (cw' & ch' & Hdims' & Hratio).
  rewrite Hdims in Hdims'. injection Hdims' as <- <-.
  assert (Hcw : 0 <= cw <= iw) by (unfold image_dimension in *; lia).
  assert (Hch : 0 <= ch <= ih) by (unfold image_dimension in *; lia).
  assert (Hne : faces <> []) by (intros ->; discriminate).
  destruct (face_crop_spec faces iw ih cw ch default_headroom_ratio
              Hne Hfaces Hiw Hih Hcw Hch
              (unit_interval_lit (15 # 100) ltac:(split; lra)))
    as (best' & r & Hbest' & _ & Hr & Hm & Hw & Hh & _ & _ & Hcontains).
  assert (best' = best) as -> by congruence.
  exists r. unfold calculate_smart_crop. rewrite Hdims.
  cbn [mbind option_bind].
  destruct faces as [|f faces]; [contradiction|].
  split; [exact Hr|]. split; [exact Hm|]. split; [exact Hw|].
  split; [exact Hh|].
  destruct (Hcontains Hinside) as [Hvert Hhoriz].
  specialize (Hvert eq_refl Hsmall). specialize (Hhoriz Hfit).
  unfold box_within. rewrite Hw, Hh. lia.
Qed.

Lemma best_face_within_crop_when_it_fits_witness :
  maximises_score singer_face [singer_face; drummer_face] /\
  exists r,
    calculate_smart_crop "band.jpg" (4, 5) [singer_face; drummer_face]
      [singer] 4000 3000 default_headroom_ratio = Some r /\
    method r = "face"%string /\
    Box.width (crop_box r) = 2400 /\ Box.height (crop_box r) = 3000 /\
    box_within (Detection.box singer_face) (crop_box r).
Proof.
  apply best_face_within_crop_when_it_fits; in_range;
    try (vm_compute; reflexivity).
  intros f g [<-|[<-|[]]] [<-|[<-|[]]]; vm_compute; discriminate.
Defined.

End CropFacts.

(** ** Hamming distance of hash strings *)

Module PerceptualHashFacts.

Import PerceptualHash.
Local Open Scope string_scope.
Local Open Scope Z_scope.

Lemma hamming_distance_invalid_l h1 h2 :
  int_base16 h1 = None -> hamming_distance h1 h2 = 999.
Proof. intros H. unfold hamming_distance. now rewrite H. Qed.

Lemma hamming_distance_invalid_r h1 h2 :
  int_base16 h2 = None -> hamming_distance h1 h2 = 999.
Proof.
  intros H. unfold hamming_distance. rewrite H.
  now destruct (int_base16 h1).
Qed.

Lemma hamming_distance_valid h1 h2 a b :
  int_base16 h1 = Some a -> int_base16 h2 = Some b ->
  hamming_distance h1 h2 = count "1" (bin (Z.lxor a b)).
Proof. intros Ha Hb. unfold hamming_distance. now rewrite Ha, Hb. Qed.

Lemma hamming_distance_sym h1 h2 :
  hamming_distance h1 h2 = hamming_distance h2 h1.
Proof.
  unfold hamming_distance.
  destruct (int_base16 h1) as [a|], (int_base16 h2) as [b|]; trivial.
  now rewrite Z.lxor_comm.
Qed.

Lemma hamming_distance_refl h a :
  int_base16 h = Some a -> hamming_distance h h = 0.
Proof.
  intros Ha. rewrite (hamming_distance_valid h h a a Ha Ha).
  now rewrite Z.lxor_nilpotent.
Qed.

(** C5, as stated, fails: the empty string, which [compute_hashes]
    stores as both hashes when hashing raised, is at distance 999 from
    itself and is not similar to itself at the default threshold. *)
Lemma hamming_distance_empty_not_zero :
  phash (compute_hashes None) = "" /\
  hamming_distance "" "" = 999 /\
  hamming_distance "" "" <> 0 /\
  are_similar "" "" default_threshold "phash" = false.
Proof. repeat split; try reflexivity. discriminate. Qed.

(** C5 (amended): the Hamming distance is symmetric for all strings;
    for every string [h] that [int(h, 16)] accepts it is zero between
    [h] and itself, and [are_similar h h] holds at every threshold
    [>= 0]. *)
Theorem hamming_distance_symmetric_and_reflexive_on_hex :
  forall h1 h2 h : string,
    hamming_distance h1 h2 = hamming_distance h2 h1 /\
    (is_Some (int_base16 h) ->
     hamming_distance h h = 0 /\
     forall threshold hash_type,
       0 <= threshold -> are_similar h h threshold hash_type = true).
Proof.
  intros h1 h2 h. split; [apply hamming_distance_sym|].
  intros [a Ha]. pose proof (hamming_distance_refl h a Ha) as H0.
  split; [exact H0|].
  intros threshold hash_type Ht. unfold are_similar. rewrite H0.
  now apply Z.leb_le.
Qed.

Lemma hamming_distance_symmetric_and_reflexive_on_hex_witness :
  hamming_distance "00ff" "0f0f" = hamming_distance "0f0f" "00ff" /\
  hamming_distance "c3a5" "c3a5" = 0 /\
  are_similar "c3a5" "c3a5" 0 "phash" = true.
Proof.
  destruct (hamming_distance_symmetric_and_reflexive_on_hex
              "00ff" "0f0f" "c3a5") as [Hsym Hrefl].
  destruct Hrefl as [Hzero Hsim].
  - exists 50085. reflexivity.
  - split; [exact Hsym|]. split; [exact Hzero|].
    apply Hsim. apply Z.le_refl.
Defined.

(** C10: a string that [int(_, 16)] rejects, on either side, makes
    [hamming_distance] return the sentinel 999; the empty hashes of a
    failed [compute_hashes] are such strings; and such a string is not
    similar to itself at any threshold below 999. *)
Theorem hamming_distance_sentinel_on_invalid :
  forall h other : string,
    int_base16 h = None ->
    hamming_distance h other = 999 /\
    hamming_distance other h = 999 /\
    int_base16 (phash (compute_hashes None)) = None /\
    int_base16 (dhash (compute_hashes None)) = None /\
    forall threshold hash_type,
      threshold < 999 -> are_similar h h threshold hash_type = false.
Proof.
  intros h other Hh.
  split; [now apply hamming_distance_invalid_l|].
  split; [now apply hamming_distance_invalid_r|].
  split; [reflexivity|]. split; [reflexivity|].
  intros threshold hash_type Ht. unfold are_similar.
  rewrite (hamming_distance_invalid_l h h Hh).
  apply Z.leb_gt. exact Ht.
Qed.

Lemma hamming_distance_sentinel_on_invalid_witness :
  hamming_distance "" "ffff" = 999 /\
  hamming_distance "ffff" "" = 999 /\
  are_similar "" "" 10 "phash" = false.
Proof.
  destruct (hamming_distance_sentinel_on_invalid "" "ffff" eq_refl)
    as (Hl & Hr & _ & _ & Hsim).
  split; [exact Hl|]. split; [exact Hr|].
  apply Hsim. reflexivity.
Defined.

End PerceptualHashFacts.

(** ** Near-duplicate clustering *)

Module NearDuplicateFacts.

Import PerceptualHash Pipeline.
Local Open Scope string_scope.
Local Open Scope Z_scope.
Local Open Scope list_scope.
#[local] Set Warnings "-clear-no-such-hyp".

Lemma near_duplicate_scan_joiners thr seed later :
  forall cluster processed,
    fold_left (near_duplicate_scan thr (phash (hashes seed)) (dhash (hashes seed)))
              later (cluster, processed)
    = (cluster ++ (joiners thr seed processed later).1,
       (joiners thr seed processed later).2).
Proof.
  induction later as [|r later IH]; intros cluster processed; simpl.
  - now rewrite app_nil_r.
  - unfold near_seed. case_bool_decide as Hin.
    + apply IH.
    + destruct (_ || _).
      * rewrite IH.
        destruct (joiners thr seed ({[filename r]} ∪ processed) later) as [members processed'].
        simpl. now rewrite <- app_assoc.
      * apply IH.
Qed.

Lemma near_duplicate_seed_greedy thr suffix :
  forall prefix clusters processed,
    (fold_left (near_duplicate_seed thr (prefix ++ suffix))
               (enumerate_from (length prefix) suffix) (clusters, processed)).1
    = clusters ++ greedy_seed_grouping thr processed suffix.
Proof.
  induction suffix as [|seed later IH]; intros prefix clusters processed.
  - simpl. now rewrite app_nil_r.
  - unfold enumerate_from. simpl zip. simpl fold_left.
    replace (drop (length prefix + 1) (prefix ++ seed :: later)) with later.
    2:{ rewrite Nat.add_1_r. rewrite (cons_middle seed), app_assoc.
        rewrite <- (length_app prefix [seed]) || idtac.
        replace (S (length prefix)) with (length (prefix ++ [seed]))
          by (rewrite length_app; simpl; lia).
        now rewrite drop_app_length. }
    specialize (IH (prefix ++ [seed])).
    rewrite <- app_assoc in IH. simpl in IH.
    replace (length (prefix ++ [seed])) with (S (length prefix)) in IH
      by (rewrite length_app; simpl; lia).
    unfold enumerate_from in IH.
    simpl greedy_seed_grouping.
    case_bool_decide as Hin.
    + apply IH.
    + rewrite near_duplicate_scan_joiners.
      destruct (joiners thr seed ({[filename seed]} ∪ processed) later)
        as [members processed'].
      simpl. destruct members as [|m members]; simpl.
      * apply IH.
      * rewrite IH. now rewrite <- app_assoc.
Qed.

Lemma cluster_near_duplicates_greedy photo_results thr :
  cluster_near_duplicates photo_results thr
  = greedy_seed_grouping thr ∅ photo_results.
Proof.
  unfold cluster_near_duplicates, enumerate.
  apply (near_duplicate_seed_greedy thr photo_results [] [] ∅).
Qed.

Lemma greedy_seed_grouping_sizes thr records :
  forall processed,
    Forall (fun c => (2 <= length c)%nat) (greedy_seed_grouping thr processed records).
Proof.
  induction records as [|seed later IH]; intros processed; simpl.
  - constructor.
  - case_bool_decide; [apply IH|].
    destruct (joiners thr seed ({[filename seed]} ∪ processed) later)
      as [members processed'].
    destruct members; [apply IH|].
    constructor; [simpl; lia | apply IH].
Qed.

Ltac decide_membership :=
  repeat match goal with
  | |- context [bool_decide (?a ∈ ?s)] =>
      first [ rewrite (bool_decide_eq_true_2 (a ∈ s)) by set_solver
            | rewrite (bool_decide_eq_false_2 (a ∈ s)) by set_solver ]
  end.

Lemma greedy_three thr x y z :
  filename x ≠ filename y -> filename x ≠ filename z ->
  filename y ≠ filename z ->
  greedy_seed_grouping thr ∅ [x; y; z] =
    match near_seed thr x y, near_seed thr x z with
    | true, true => [[filename x; filename y; filename z]]
    | true, false => [[filename x; filename y]]
    | false, true => [[filename x; filename z]]
    | false, false =>
        if near_seed thr y z then [[filename y; filename z]] else []
    end.
Proof.
  intros Hxy Hxz Hyz.
  cbn [greedy_seed_grouping joiners]. decide_membership.
  destruct (near_seed thr x y) eqn:Exy;
    cbn [greedy_seed_grouping joiners]; decide_membership;
    destruct (near_seed thr x z) eqn:Exz;
    cbn [greedy_seed_grouping joiners]; decide_membership; try reflexivity.
  destruct (near_seed thr y z) eqn:Eyz;
    cbn [greedy_seed_grouping joiners]; decide_membership; reflexivity.
Qed.

Lemma near_seed_sym thr x y : near_seed thr x y = near_seed thr y x.
Proof.
  unfold near_seed.
  now rewrite (PerceptualHashFacts.hamming_distance_sym (phash (hashes x))),
              (PerceptualHashFacts.hamming_distance_sym (dhash (hashes x))).
Qed.

Section Scenario.

Variables a b c : PhotoRecord.
Hypothesis Hab : filename a ≠ filename b.
Hypothesis Hac : filename a ≠ filename c.
Hypothesis Hbc : filename b ≠ filename c.
Hypothesis near_ab : near_seed 10 a b = true.
Hypothesis far_ac : near_seed 10 a c = false.
Hypothesis far_bc : near_seed 10 b c = false.

Lemma scenario_orders l :
  l ≡ₚ [a; b; c] ->
  greedy_seed_grouping 10 ∅ l = [[filename a; filename b]] \/
  greedy_seed_grouping 10 ∅ l = [[filename b; filename a]].
Proof.
  intros Hl. symmetry in Hl. apply permutations_Permutation in Hl.
  pose proof near_ab as near_ba. rewrite near_seed_sym in near_ba.
  pose proof far_ac as far_ca. rewrite near_seed_sym in far_ca.
  pose proof far_bc as far_cb. rewrite near_seed_sym in far_cb.
  cbn in Hl.
  repeat match goal with
         | H : _ ∈ _ :: _ |- _ => apply elem_of_cons in H; destruct H as [->|H]
         | H : _ ∈ [] |- _ => apply elem_of_nil in H; destruct H
         end;
    rewrite greedy_three by congruence;
    repeat match goal with
           | H : near_seed 10 _ _ = _ |- context [near_seed 10 _ _] =>
               rewrite H
           end; auto.
Qed.

End Scenario.

Lemma near_seed_of_distances thr x y :
  near_seed thr x y =
  (hamming_distance (phash (hashes x)) (phash (hashes y)) <=? thr)
  || (hamming_distance (dhash (hashes x)) (dhash (hashes y)) <=? thr).
Proof. reflexivity. Qed.

(** C4: [cluster_near_duplicates] is the greedy seed-based grouping of
    the specification ([greedy_seed_grouping], where a later record joins
    exactly when it is not yet processed and one of its hashes is within
    the threshold of the seed's), the default threshold is 10, no
    returned cluster is the seed alone, and three photos of which two
    are at distance 2 and the third at distance 40 from both give, in
    any order, exactly one cluster, made of the two near photos. *)
Theorem cluster_near_duplicates_greedy_seed :
  default_hash_threshold = 10 /\
  (forall photo_results hash_threshold,
     cluster_near_duplicates photo_results hash_threshold
     = greedy_seed_grouping hash_threshold ∅ photo_results /\
     Forall (fun cluster => (2 <= length cluster)%nat)
            (cluster_near_duplicates photo_results hash_threshold)) /\
  (forall a b c l,
     filename a ≠ filename b ->
     filename a ≠ filename c ->
     filename b ≠ filename c ->
     hamming_distance (phash (hashes a)) (phash (hashes b)) = 2 ->
     hamming_distance (dhash (hashes a)) (dhash (hashes b)) = 2 ->
     hamming_distance (phash (hashes a)) (phash (hashes c)) = 40 ->
     hamming_distance (dhash (hashes a)) (dhash (hashes c)) = 40 ->
     hamming_distance (phash (hashes b)) (phash (hashes c)) = 40 ->
     hamming_distance (dhash (hashes b)) (dhash (hashes c)) = 40 ->
     l ≡ₚ [a; b; c] ->
     cluster_near_duplicates l default_hash_threshold
       = [[filename a; filename b]] \/
     cluster_near_duplicates l default_hash_threshold
       = [[filename b; filename a]]).
Proof.
  split; [reflexivity|]. split.
  - intros photo_results thr. split.
    + apply cluster_near_duplicates_greedy.
    + rewrite cluster_near_duplicates_greedy.
      apply greedy_seed_grouping_sizes.
  - intros a b c l Hab Hac Hbc Pab Dab Pac Dac Pbc Dbc Hl.
    rewrite cluster_near_duplicates_greedy.
    apply (scenario_orders a b c); trivial;
      rewrite near_seed_of_distances;
      repeat match goal with H : hamming_distance _ _ = _ |- _ =>
               rewrite H; clear H end; reflexivity.
Qed.

Lemma cluster_near_duplicates_greedy_seed_witness :
  let a := photo_with_hashes "a.jpg" "0000000000000001" "8000000000000001" in
  let b := photo_with_hashes "b.jpg" "0000000000000002" "8000000000000002" in
  let c := photo_with_hashes "c.jpg" "000001fffffffffc" "800001fffffffffc" in
  cluster_near_duplicates [b; c; a] 10 = [["a.jpg"; "b.jpg"]] \/
  cluster_near_duplicates [b; c; a] 10 = [["b.jpg"; "a.jpg"]].
Proof.
  intros a b c.
  destruct cluster_near_duplicates_greedy_seed as (_ & _ & Hscenario).
  apply (Hscenario a b c [b; c; a]);
    try discriminate; try reflexivity.
  symmetry. apply (Permutation_cons_app [b; c] [] a). reflexivity.
Defined.

End NearDuplicateFacts.

(** ** Loops as folds *)

(** The invariant rule for a loop written as [fold_left]. *)
Lemma fold_left_invariant {A B} (P : A -> Prop) (f : A -> B -> A) l :
  (forall a b, P a -> P (f a b)) -> forall a, P a -> P (fold_left f l a).
Proof.
  intros Hstep. induction l as [|b l IH]; intros a Ha; simpl; auto.
Qed.

(** ** People clustering *)

Module PeopleFacts.

Import Float64 Float64Facts Pipeline.
Local Open Scope string_scope.
Local Open Scope Z_scope.
Local Open Scope list_scope.

Section People.

Variable face_distance : list float -> list float -> float.
Variable thr : float.

Lemma people_scan_best face1 st entry :
  best_of st.1 -> best_of (people_scan face_distance thr face1 st entry).1.
Proof.
  destruct st as [cluster processed], entry as [j face2].
  intros [Hin Hmax]. unfold people_scan.
  case_bool_decide; [now split|].
  destruct (fleb _ _); [|now split].
  simpl. destruct (fltb _ _) eqn:Hlt; split; simpl.
  - apply in_or_app. right. now left.
  - intros f Hf. apply in_app_or in Hf. destruct Hf as [Hf|[<-|[]]].
    + apply Qlt_le_weak. eapply Qle_lt_trans; [apply Hmax, Hf|].
      now apply fltb_true.
    + apply Qle_refl.
  - apply in_or_app. now left.
  - intros f Hf. apply in_app_or in Hf. destruct Hf as [Hf|[<-|[]]].
    + now apply Hmax.
    + now apply fltb_false.
Qed.

Lemma people_seed_best all_faces st entry :
  Forall (fun c => best_of c /\ (2 <= length (cluster_faces c))%nat) st.1 ->
  Forall (fun c => best_of c /\ (2 <= length (cluster_faces c))%nat)
         (people_seed face_distance thr all_faces st entry).1.
Proof.
  destruct st as [clusters processed], entry as [i face1].
  intros Hall. unfold people_seed.
  case_bool_decide; [exact Hall|].
  match goal with
  | |- context [fold_left ?f ?l ?a] =>
      pose proof (fold_left_invariant (fun st => best_of st.1) f l
                    (people_scan_best face1) a) as Hfold;
      destruct (fold_left f l a) as [cluster processed']
  end.
  simpl in Hfold.
  destruct (1 <? length (cluster_faces cluster))%nat eqn:Hlen; simpl.
  - apply Forall_app. split; [exact Hall|].
    constructor; [|constructor]. split.
    + apply Hfold. split; simpl; [now left|].
      intros f [<-|[]]. apply Qle_refl.
    + apply Nat.ltb_lt in Hlen. lia.
  - exact Hall.
Qed.

Lemma cluster_people_best photo_results :
  Forall (fun c => best_of c /\ (2 <= length (cluster_faces c))%nat)
         (cluster_people face_distance photo_results thr).
Proof.
  unfold cluster_people.
  destruct (_ <? _)%nat; [constructor|].
  apply (fold_left_invariant
           (fun st => Forall (fun c => best_of c /\ (2 <= length (cluster_faces c))%nat) st.1)).
  - intros a b. apply people_seed_best.
  - constructor.
Qed.

End People.


(** C8: in every cluster that [cluster_people] returns, the
    representative face is one of the cluster's faces, no face of the
    cluster has a higher [quality_score], and the cluster holds at least
    two faces. *)
Theorem cluster_people_representative_is_best :
  forall (face_distance : list float -> list float -> float)
         (photo_results : list PhotoRecord) (face_distance_threshold : float),
    Forall (fun cluster =>
              In (representative_face cluster) (cluster_faces cluster) /\
              (forall f, In f (cluster_faces cluster) ->
                 (Face.quality_score f
                  <= Face.quality_score (representative_face cluster))%Q) /\
              (2 <= length (cluster_faces cluster))%nat)
           (cluster_people face_distance photo_results
                           face_distance_threshold).
Proof.
  intros face_distance photo_results thr.
  eapply Forall_impl; [apply cluster_people_best|].
  intros c [[Hin Hmax] Hlen]. auto.
Qed.

(** Two photos with three faces, two of them of the same person: one
    cluster is returned, represented by its better face. *)
Example cluster_people_example :
  let photos :=
    [example_photo "a.jpg" "" "" []
       [example_encoding (1 # 10) (4 # 10); example_encoding 5 (9 # 10)];
     example_photo "b.jpg" "" "" [] [example_encoding (3 # 10) (7 # 10)]] in
  map (fun c => (person_id c, photo_filenames c,
                 Face.quality_score (representative_face c)))
      (cluster_people example_distance photos default_face_distance_threshold)
  = [(0, ["a.jpg"; "b.jpg"], (7 # 10)%Q)].
Proof. vm_compute. reflexivity. Qed.

End PeopleFacts.

(** ** Scene clustering *)

Module SceneFacts.

Import Float64 Pipeline.
Local Open Scope string_scope.
Local Open Scope Z_scope.
Local Open Scope list_scope.

Lemma has_embedding_spec p :
  has_embedding p = true <-> image_embedding p <> [].
Proof.
  unfold has_embedding. destruct (image_embedding p); split;
    congruence || discriminate || auto.
Qed.

Lemma cluster_scenes_few fit_predict photo_results similarity_threshold :
  (length (List.filter has_embedding photo_results) < 2)%nat ->
  cluster_scenes fit_predict photo_results similarity_threshold = Some [].
Proof.
  intros H. unfold cluster_scenes.
  apply Nat.ltb_lt in H. now rewrite H.
Qed.

(** C9: with fewer than two records whose [image_embedding] is
    non-empty, [cluster_scenes] returns the empty list, whatever the
    similarity threshold (and the clustering backend). *)
Theorem cluster_scenes_needs_two_embeddings :
  forall fit_predict photo_results similarity_threshold,
    (length (List.filter has_embedding photo_results) < 2)%nat ->
    cluster_scenes fit_predict photo_results similarity_threshold = Some [].
Proof. exact cluster_scenes_few. Qed.

Lemma cluster_scenes_needs_two_embeddings_witness :
  cluster_scenes (fun _ _ _ => None)
    [example_photo "a.jpg" "" "" [1%Q; 0%Q] [];
     example_photo "b.jpg" "" "" [] []]
    default_similarity_threshold
  = Some [].
Proof.
  apply cluster_scenes_needs_two_embeddings. simpl. lia.
Defined.

End SceneFacts.

(** ** The batch loop *)

Module BatchFacts.

Import Float64 CropCalculator Pipeline.
Local Open Scope string_scope.
Local Open Scope Z_scope.
Local Open Scope list_scope.
#[local] Set Warnings "-clear-no-such-hyp".


Lemma records_of_app p l1 l2 :
  records_of p (l1 ++ l2) = records_of p l1 ++ records_of p l2.
Proof. unfold records_of. apply List.filter_app. Qed.

Lemma records_of_absent p results (processed : gset string) :
  (forall r, In r results -> filepath r ∈ processed) ->
  p ∉ processed -> records_of p results = [].
Proof.
  intros Hres Hp. unfold records_of.
  induction results as [|r results IH]; simpl; trivial.
  destruct (String.eqb_spec (filepath r) p) as [<-|Hne].
  - exfalso. apply Hp, Hres. now left.
  - apply IH. intros r' Hr'. apply Hres. now right.
Qed.

Lemma lock_step_empty : lock_step ∅ [].
Proof. split; [intros p Hp; set_solver | intros r []]. Qed.

Lemma lock_step_add (processed : gset string) results r :
  lock_step processed results ->
  filepath r ∉ processed ->
  lock_step ({[filepath r]} ∪ processed) (results ++ [r]).
Proof.
  intros [Hone Hall] Hfresh. split.
  - intros p Hp. rewrite records_of_app, length_app.
    unfold records_of at 2. simpl.
    destruct (String.eqb_spec (filepath r) p) as [<-|Hne]; simpl.
    + now rewrite (records_of_absent _ _ _ Hall Hfresh).
    + rewrite Hone; [lia|]. set_solver.
  - intros r' Hr'. apply in_app_or in Hr'.
    destruct Hr' as [Hr'|[<-|[]]]; [|set_solver].
    apply Hall in Hr'. set_solver.
Qed.

Section Loop.

Variable env : Collaborators.
Variable output_dir : string.
Variable verbose : bool.
Variable now : nat -> string.

Lemma process_photo_filepath image_path result :
  process_photo env image_path output_dir verbose = Some result ->
  filepath result = image_path.
Proof.
  unfold process_photo. intros H.
  apply bind_Some in H as ([w h] & _ & H).
  apply bind_Some in H as (crops & _ & H).
  apply bind_Some in H as (mono & _ & H).
  now inversion H.
Qed.

Lemma handle_photo_cases batch_results (processed : gset string) image_path :
  match process_photo env image_path output_dir verbose with
  | Some result =>
      handle_photo env output_dir verbose (batch_results, processed) image_path
      = (batch_results ++ [result], {[image_path]} ∪ processed)
      /\ filepath result = image_path
  | None =>
      handle_photo env output_dir verbose (batch_results, processed) image_path
      = (batch_results, processed)
  end.
Proof.
  unfold handle_photo.
  destruct (process_photo env image_path output_dir verbose) eqn:E; trivial.
  split; trivial. now apply process_photo_filepath.
Qed.

Lemma handle_photo_lock_step all_results batch_results (processed : gset string) image_path :
  image_path ∉ processed ->
  lock_step processed (all_results ++ batch_results) ->
  lock_step
    (handle_photo env output_dir verbose (batch_results, processed) image_path).2
    (all_results ++
     (handle_photo env output_dir verbose (batch_results, processed) image_path).1)
  /\
  (forall q, q ≠ image_path -> q ∉ processed ->
     q ∉ (handle_photo env output_dir verbose
            (batch_results, processed) image_path).2).
Proof.
  intros Hfresh Hlock.

  pose proof (handle_photo_cases batch_results processed image_path) as Hc.
  destruct (process_photo env image_path output_dir verbose) as [r|].
  - destruct Hc as [-> Hpath]. simpl. split.
    + rewrite app_assoc. rewrite <- Hpath. apply lock_step_add; trivial.
      now rewrite Hpath.
    + intros q Hq Hq'. set_solver.
  - rewrite Hc. simpl. split; trivial.
Qed.

Lemma batch_lock_step all_results batch :
  forall batch_results (processed : gset string),
    NoDup batch ->
    (forall p, In p batch -> p ∉ processed) ->
    lock_step processed (all_results ++ batch_results) ->
    lock_step
      (fold_left (handle_photo env output_dir verbose) batch
                 (batch_results, processed)).2
      (all_results ++
       (fold_left (handle_photo env output_dir verbose) batch
                  (batch_results, processed)).1).
Proof.
  induction batch as [|p batch IH]; intros batch_results processed Hnd Hfresh Hlock.
  - exact Hlock.
  - cbn [fold_left]. apply NoDup_cons in Hnd as [Hp Hnd].
    destruct (handle_photo_lock_step all_results batch_results processed p)
      as [Hlock' Hkeep]; trivial.
    { apply Hfresh. now left. }
    destruct (handle_photo env output_dir verbose (batch_results, processed) p)
      as [batch_results' processed'].
    apply IH; trivial.
    intros q Hq. apply Hkeep.
    + intros ->. apply Hp. now apply list_elem_of_In.
    + apply Hfresh. now right.
Qed.


Lemma run_batch_invariant image_files batch_size st entry :
  NoDup image_files ->
  loop_invariant st ->
  loop_invariant (run_batch env output_dir verbose now image_files batch_size st entry).
Proof.
  intros Hnd [Hlock Hwritten].
  destruct st as [[processed all_results] written], entry as [batch_idx i].
  simpl in Hlock, Hwritten. unfold run_batch.
  set (batch := List.filter _ _).
  assert (Hbatch_nd : NoDup batch).
  { apply NoDup_ListNoDup, List.NoDup_filter, NoDup_ListNoDup.
    eapply sublist_NoDup; [exact Hnd|].
    etrans; [apply sublist_take|apply sublist_drop]. }
  assert (Hbatch_fresh : forall p, In p batch -> p ∉ processed).
  { intros p Hp. apply List.filter_In in Hp as [_ Hp].
    apply negb_true_iff, bool_decide_eq_false in Hp. exact Hp. }
  destruct batch as [|p0 batch'] eqn:Ebatch; [now split|].
  pose proof (batch_lock_step all_results (p0 :: batch') [] processed
                Hbatch_nd Hbatch_fresh) as Hfold.
  rewrite app_nil_r in Hfold. specialize (Hfold Hlock).
  destruct (fold_left _ (p0 :: batch') _) as [batch_results processed'].
  simpl in Hfold. split; simpl; trivial.
  apply Forall_app. split; trivial.
  constructor; [|constructor].
  split; simpl.
  - apply NoDup_elements.
  - now rewrite list_to_set_elements_L.
Qed.

Lemma run_batches_lock_step image_files batch_size init_processed init_results :
  NoDup image_files ->
  lock_step init_processed init_results ->
  0 < batch_size ->
  exists processed all_results written,
    run_batches env output_dir verbose now image_files batch_size
                (init_processed, init_results)
    = Some (processed, all_results, written) /\
    lock_step processed all_results /\
    Forall checkpoint_lock_step written.
Proof.
  intros Hnd Hinit Hpos. unfold run_batches.
  destruct (Z.eqb_spec batch_size 0); [lia|].
  destruct (Z.ltb_spec batch_size 0); [lia|].
  match goal with
  | |- context [fold_left ?f ?l ?a] =>
      pose proof (fold_left_invariant loop_invariant f l
                    (fun st e => run_batch_invariant image_files _ st e Hnd) a)
        as Hinv;
      destruct (fold_left f l a) as [[processed all_results] written]
  end.
  exists processed, all_results, written. split; trivial.
  apply Hinv. split; simpl; [exact Hinit|constructor].
Qed.

End Loop.

(** C7: the batch loop keeps [processed_files] and the results in
    lock-step.  Handling one photo either appends its record and adds its
    path (success) or changes nothing (failure), and keeps the lock-step
    of the processed set with the records gathered so far; started from
    a lock-step state, on a file list without repetition, the loop
    returns, its final state is in lock-step, and so is every checkpoint
    it wrote. *)
Theorem batch_loop_keeps_lock_step :
  forall env output_dir verbose now image_files batch_size
         (init_processed : gset string) init_results,
    NoDup image_files ->
    lock_step init_processed init_results ->
    0 < batch_size ->
    (forall all_results batch_results (processed : gset string) image_path,
       image_path ∉ processed ->
       lock_step processed (all_results ++ batch_results) ->
       match process_photo env image_path output_dir verbose with
       | Some result =>
           handle_photo env output_dir verbose
                        (batch_results, processed) image_path
           = (batch_results ++ [result], {[image_path]} ∪ processed)
           /\ filepath result = image_path
       | None =>
           handle_photo env output_dir verbose
                        (batch_results, processed) image_path
           = (batch_results, processed)
       end /\
       lock_step
         (handle_photo env output_dir verbose
                       (batch_results, processed) image_path).2
         (all_results ++
          (handle_photo env output_dir verbose
                        (batch_results, processed) image_path).1)) /\
    exists processed all_results written,
      run_batches env output_dir verbose now image_files batch_size
                  (init_processed, init_results)
      = Some (processed, all_results, written) /\
      lock_step processed all_results /\
      Forall checkpoint_lock_step written.
Proof.
  intros env output_dir verbose now image_files batch_size
         init_processed init_results Hnd Hinit Hpos.
  split.
  - intros all_results batch_results processed image_path Hfresh Hlock.
    split; [apply handle_photo_cases|].
    now apply handle_photo_lock_step.
  - now apply run_batches_lock_step.
Qed.

Lemma batch_loop_keeps_lock_step_witness :
  exists processed all_results written,
    run_batches example_env "out" false (fun _ => "2025-01-01T00:00:00")
                ["a.jpg"; "bad.jpg"; "b.jpg"] 2 (∅, [])
    = Some (processed, all_results, written) /\
    lock_step processed all_results /\
    Forall checkpoint_lock_step written.
Proof.
  apply (batch_loop_keeps_lock_step example_env "out" false
           (fun _ => "2025-01-01T00:00:00") ["a.jpg"; "bad.jpg"; "b.jpg"] 2
           ∅ []).
  - apply (bool_decide_unpack _). vm_compute. exact I.
  - apply lock_step_empty.
  - lia.
Defined.

(** The run of the witness: "bad.jpg" fails and is left out of both the
    processed set and the results; two checkpoints are written. *)
Example batch_loop_example :
  match run_batches example_env "out" false (fun _ => "2025-01-01T00:00:00")
                    ["a.jpg"; "bad.jpg"; "b.jpg"] 2 (∅, []) with
  | Some (processed, all_results, written) =>
      (bool_decide (processed = {["a.jpg"; "b.jpg"]}),
       map filepath all_results,
       map (fun c => map filepath (results c)) written)
  | None => (false, [], [])
  end
  = (true, ["a.jpg"; "b.jpg"], [["a.jpg"]; ["a.jpg"; "b.jpg"]]).
Proof. vm_compute. reflexivity. Qed.

(** Each way of starting the loop gives a lock-step state when the
    stored checkpoint, if any, was one. *)
Lemma load_checkpoint_fresh file : load_checkpoint true file = (∅, []).
Proof. reflexivity. Qed.

End BatchFacts.

(** ** Enumerating a list that grows *)

Module EnumerateFacts.

Import Pipeline.
Local Open Scope list_scope.

Lemma enumerate_snoc {A} (l : list A) x :
  enumerate (l ++ [x]) = enumerate l ++ [(length l, x)].
Proof.
  unfold enumerate, enumerate_from.
  rewrite length_app, seq_app, zip_with_app by now rewrite length_seq.
  reflexivity.
Qed.

End EnumerateFacts.

(** ** What the batch loop computes *)

Module BatchResults.

Import Float64 CropCalculator Pipeline Outcomes BatchFacts EnumerateFacts.
Local Open Scope string_scope.
Local Open Scope Z_scope.
Local Open Scope list_scope.
#[local] Set Warnings "-clear-no-such-hyp".

Section Run.

Variable env : Collaborators.
Variable output_dir : string.
Variable verbose : bool.
Variable now : nat -> string.









End Run.






Lemma pending_none (processed : gset string) l :
  (forall p, In p l -> p ∈ processed) -> pending processed l = [].
Proof.
  intros H. induction l as [|p l IH]; [reflexivity|].
  unfold pending. simpl. rewrite bool_decide_eq_true_2 by (apply H; now left).
  apply IH. intros q Hq. apply H. now right.
Qed.

(** X3: a run that finds every file already processed changes nothing and
    writes no checkpoint. *)
Theorem rerun_changes_nothing :
  forall env output_dir verbose now image_files batch_size
         (init_processed : gset string) init_results,
    (forall p, In p image_files -> p ∈ init_processed) ->
    batch_size <> 0 ->
    run_batches env output_dir verbose now image_files batch_size
                (init_processed, init_results)
    = Some (init_processed, init_results, []).
Proof.
  intros env output_dir verbose now image_files batch_size
         init_processed init_results Hall Hnz.
  unfold run_batches.
  destruct (Z.eqb_spec batch_size 0); [contradiction|].
  destruct (Z.ltb_spec batch_size 0); [reflexivity|].
  f_equal.
  apply (fold_left_invariant (fun st => st = (init_processed, init_results, []))).
  - intros st [batch_idx i] ->. unfold run_batch.
    change (List.filter (fun f => negb (bool_decide (f ∈ init_processed)))
                        (take (Z.to_nat batch_size) (drop i image_files)))
      with (pending init_processed
                    (take (Z.to_nat batch_size) (drop i image_files))).
    rewrite pending_none; [reflexivity|].
    intros p Hp. apply Hall.
    apply list_elem_of_In. apply list_elem_of_In in Hp.
    eapply sublist_subseteq; [|exact Hp].
    etrans; [apply sublist_take|apply sublist_drop].
  - reflexivity.
Qed.

Lemma rerun_changes_nothing_witness :
  run_batches example_env "out" false (fun _ => "2025-01-01T00:00:00")
              ["a.jpg"; "b.jpg"] 1 ({["a.jpg"; "b.jpg"]}, [])
  = Some ({["a.jpg"; "b.jpg"]}, [], []).
Proof.
  apply rerun_changes_nothing; [|discriminate].
  intros p [<-|[<-|[]]]; set_solver.
Defined.

End BatchResults.

(** ** The shape of the near-duplicate clusters *)

Module NearDuplicateClusters.

Import PerceptualHash Pipeline Outcomes NearDuplicateFacts.
Local Open Scope string_scope.
Local Open Scope Z_scope.
Local Open Scope list_scope.
#[local] Set Warnings "-clear-no-such-hyp".

Lemma joiners_spec thr seed later :
  forall (processed : gset string),
    (joiners thr seed processed later).2
    = list_to_set (joiners thr seed processed later).1 ∪ processed /\
    NoDup (joiners thr seed processed later).1 /\
    (forall n, n ∈ (joiners thr seed processed later).1 -> n ∉ processed) /\
    (joiners thr seed processed later).1 `sublist_of` (filename <$> later) /\
    Forall (near_member thr seed later) (joiners thr seed processed later).1.
Proof.
  induction later as [|r later IH]; intros processed; simpl.
  - repeat split; try constructor. set_solver. intros n Hn. inversion Hn.
  - assert (Hmono : forall ms, Forall (near_member thr seed later) ms ->
                               Forall (near_member thr seed (r :: later)) ms).
    { intros ms Hms. eapply Forall_impl; [exact Hms|].
      intros n (r' & Hr' & Hn & Hnear).
      exists r'. split; [now right|now split]. }
    case_bool_decide as Hin.
    + destruct (IH processed) as (HP & Hnd & Hfresh & Hsub & Hnear).
      repeat split; trivial; [now apply sublist_cons|now apply Hmono].
    + destruct (near_seed thr seed r) eqn:Enear.
      * destruct (IH ({[filename r]} ∪ processed))
          as (HP & Hnd & Hfresh & Hsub & Hnear).
        destruct (joiners thr seed ({[filename r]} ∪ processed) later)
          as [members processed']. simpl in *.
        split; [set_solver|]. split.
        { apply NoDup_cons. split; trivial. intros Hm.
          apply Hfresh in Hm. set_solver. }
        split.
        { intros n [->|Hn]%elem_of_cons; trivial.
          apply Hfresh in Hn. set_solver. }
        split; [now apply sublist_skip|].
        constructor; [|now apply Hmono].
        exists r. split; [now left|now split].
      * destruct (IH processed) as (HP & Hnd & Hfresh & Hsub & Hnear).
        repeat split; trivial; [now apply sublist_cons|now apply Hmono].
Qed.

Lemma greedy_seed_grouping_spec thr records :
  forall (processed : gset string),
    NoDup (concat (greedy_seed_grouping thr processed records)) /\
    (forall n, n ∈ concat (greedy_seed_grouping thr processed records) ->
               n ∉ processed) /\
    Forall (seeded_cluster thr records)
           (greedy_seed_grouping thr processed records).
Proof.
  induction records as [|seed later IH]; intros processed; simpl.
  - repeat split; try constructor. intros n Hn. inversion Hn.
  - assert (Hmono : forall cs, Forall (seeded_cluster thr later) cs ->
                               Forall (seeded_cluster thr (seed :: later)) cs).
    { intros cs Hcs. eapply Forall_impl; [exact Hcs|].
      intros c (Hsub & s & ms & -> & Hs & Hms).
      split; [now apply sublist_cons|].
      exists s, ms. split; trivial. split; [now right|].
      eapply Forall_impl; [exact Hms|].
      intros n (r & Hr & Hn & Hnear). exists r. split; [now right|now split]. }
    case_bool_decide as Hin.
    + destruct (IH processed) as (Hnd & Hfresh & Hall).
      repeat split; trivial. now apply Hmono.
    + destruct (joiners_spec thr seed later ({[filename seed]} ∪ processed))
        as (HP & Hmnd & Hmfresh & Hmsub & Hmnear).
      destruct (joiners thr seed ({[filename seed]} ∪ processed) later)
        as [members processed']. simpl in *.
      destruct (IH processed') as (Hnd & Hfresh & Hall).
      destruct members as [|m members].
      * split; trivial. split; [|now apply Hmono].
        intros n Hn. apply Hfresh in Hn. set_solver.
      * remember (m :: members) as ms eqn:Ems. simpl. split.
        { apply NoDup_cons. split.
          - intros [Hm|Hm]%elem_of_app.
            + apply Hmfresh in Hm. set_solver.
            + apply Hfresh in Hm. set_solver.
          - apply NoDup_app. split; trivial. split; trivial.
            intros n Hn Hn'. apply Hfresh in Hn'. set_solver. }
        split.
        { intros n [->|[Hn|Hn]%elem_of_app]%elem_of_cons; trivial.
          - apply Hmfresh in Hn. set_solver.
          - apply Hfresh in Hn. set_solver. }
        constructor; [|now apply Hmono].
        split; [now apply sublist_skip|].
        exists seed, ms. split; trivial. split; [now left|].
        eapply Forall_impl; [exact Hmnear|].
        intros n (r & Hr & Hn & Hnear). exists r. split; [now right|now split].
Qed.

Lemma cluster_near_duplicates_spec photo_results thr :
  NoDup (concat (cluster_near_duplicates photo_results thr)) /\
  Forall (seeded_cluster thr photo_results)
         (cluster_near_duplicates photo_results thr) /\
  Forall (fun c => (2 <= length c)%nat)
         (cluster_near_duplicates photo_results thr).
Proof.
  rewrite cluster_near_duplicates_greedy.
  destruct (greedy_seed_grouping_spec thr photo_results ∅) as (Hnd & _ & Hall).
  split; [exact Hnd|]. split; [exact Hall|].
  apply greedy_seed_grouping_sizes.
Qed.

(** X4: no filename is in two near-duplicate clusters, or twice in one. *)
Theorem near_duplicate_clusters_disjoint :
  forall photo_results hash_threshold,
    NoDup (concat (cluster_near_duplicates photo_results hash_threshold)).
Proof. intros. apply cluster_near_duplicates_spec. Qed.

(** X5: every near-duplicate cluster starts with a seed of the input, its
    other names belong to records near that seed, and its names are in
    the order of the input. *)
Theorem near_duplicate_clusters_around_seed :
  forall photo_results hash_threshold,
    Forall (seeded_cluster hash_threshold photo_results)
           (cluster_near_duplicates photo_results hash_threshold).
Proof. intros. apply cluster_near_duplicates_spec. Qed.

Lemma near_seed_unhashed_r thr seed r :
  thr < 999 ->
  int_base16 (phash (hashes r)) = None ->
  int_base16 (dhash (hashes r)) = None ->
  near_seed thr seed r = false.
Proof.
  intros Hthr Hp Hd. unfold near_seed.
  rewrite (PerceptualHashFacts.hamming_distance_invalid_r _ _ Hp),
          (PerceptualHashFacts.hamming_distance_invalid_r _ _ Hd).
  apply orb_false_iff. split; apply Z.leb_gt; exact Hthr.
Qed.

Lemma near_seed_unhashed_l thr seed r :
  thr < 999 ->
  int_base16 (phash (hashes seed)) = None ->
  int_base16 (dhash (hashes seed)) = None ->
  near_seed thr seed r = false.
Proof.
  intros Hthr Hp Hd. rewrite near_seed_sym. now apply near_seed_unhashed_r.
Qed.

(** X6: below the sentinel, a photo whose hashes cannot be read as
    hexadecimal is in no cluster. *)
Theorem unhashed_photo_never_clustered :
  forall photo_results hash_threshold name,
    hash_threshold < 999 ->
    (forall r, In r photo_results -> filename r = name ->
       int_base16 (phash (hashes r)) = None /\
       int_base16 (dhash (hashes r)) = None) ->
    Forall (fun cluster => name ∉ cluster)
           (cluster_near_duplicates photo_results hash_threshold).
Proof.
  intros photo_results thr name Hthr Hbad.
  destruct (cluster_near_duplicates_spec photo_results thr) as (_ & Hall & Hsizes).
  rewrite Forall_forall in Hall, Hsizes. apply Forall_forall.
  intros c Hc Hname. specialize (Hsizes c Hc).
  destruct (Hall c Hc) as (_ & seed & members & -> & Hseed & Hnear).
  apply elem_of_cons in Hname as [->|Hname].
  - destruct members as [|m members]; [simpl in Hsizes; lia|].
    apply Forall_cons in Hnear as [(r & Hr & _ & Hnear) _].
    destruct (Hbad seed Hseed eq_refl) as [Hp Hd].
    now rewrite (near_seed_unhashed_l thr seed r Hthr Hp Hd) in Hnear.
  - rewrite Forall_forall in Hnear.
    destruct (Hnear name Hname) as (r & Hr & Hn & Hnear').
    destruct (Hbad r Hr Hn) as [Hp Hd].
    now rewrite (near_seed_unhashed_r thr seed r Hthr Hp Hd) in Hnear'.
Qed.

Lemma unhashed_photo_never_clustered_witness :
  Forall (fun cluster => "c.jpg" ∉ cluster)
         (cluster_near_duplicates
            [photo_with_hashes "a.jpg" "00ff" "0f0f";
             photo_with_hashes "c.jpg" "" "";
             photo_with_hashes "b.jpg" "00fe" "0f0f"]
            default_hash_threshold).
Proof.
  apply unhashed_photo_never_clustered; [reflexivity|].
  intros r [<-|[<-|[<-|[]]]] Hn; try discriminate Hn.
  split; reflexivity.
Defined.

End NearDuplicateClusters.

(** ** The shape of the people clusters *)

Module PeopleClusters.

Import Float64 Float64Facts Pipeline Outcomes.
Local Open Scope string_scope.
Local Open Scope Z_scope.
Local Open Scope list_scope.
#[local] Set Warnings "-clear-no-such-hyp".

Lemma fold_left_invariant_In {A B} (P : A -> Prop) (f : A -> B -> A) l :
  (forall a b, In b l -> P a -> P (f a b)) ->
  forall a, P a -> P (fold_left f l a).
Proof.
  induction l as [|b l IH]; intros Hstep a Ha; simpl; trivial.
  apply IH.
  - intros a' b' Hb'. apply Hstep. now right.
  - apply Hstep; [now left|exact Ha].
Qed.

Lemma In_enumerate_from {A} (l : list A) : forall start i x,
  In (i, x) (enumerate_from start l) -> In x l.
Proof.
  unfold enumerate_from.
  induction l as [|y l IH]; intros start i x H; simpl in *; [contradiction|].
  destruct H as [[= _ ->]|H]; [now left|right]. now apply (IH (S start) i).
Qed.

Section People.

Variable face_distance : list float -> list float -> float.
Variable thr : float.
Variable all_faces : list Face.t.

Lemma people_scan_gathered pid face1 st entry :
  In entry.2 all_faces ->
  gathered face_distance thr all_faces pid face1 st.1 ->
  gathered face_distance thr all_faces pid face1
    (people_scan face_distance thr face1 st entry).1.
Proof.
  destruct st as [cluster processed], entry as [j face2]. simpl.
  intros Hin (Hid & Hnames & members & Hfaces & Hnear). unfold people_scan.
  case_bool_decide; [now repeat split; eauto|].
  destruct (fleb _ _) eqn:Hle; [|now repeat split; eauto].
  apply Qle_bool_iff in Hle.
  split; [exact Hid|]. simpl. split.
  - now rewrite Hnames, map_app.
  - exists (members ++ [face2]). rewrite Hfaces. split; [reflexivity|].
    apply Forall_app. split; [exact Hnear|]. constructor; [|constructor].
    now split.
Qed.

Lemma people_seed_gathered st entry :
  In entry.2 all_faces ->
  Forall (around_first_face face_distance thr all_faces) st.1 /\ numbered st.1 ->
  Forall (around_first_face face_distance thr all_faces)
         (people_seed face_distance thr all_faces st entry).1 /\
  numbered (people_seed face_distance thr all_faces st entry).1.
Proof.
  destruct st as [clusters processed], entry as [i face1]. simpl.
  intros Hin [Hall Hnum]. unfold people_seed.
  case_bool_decide; [now split|].
  set (start := {| person_id := Z.of_nat (length clusters);
                   photo_filenames := [Face.filename face1];
                   cluster_faces := [face1];
                   representative_face := face1 |}).
  assert (Hfold :
    gathered face_distance thr all_faces (Z.of_nat (length clusters)) face1
      (fold_left (people_scan face_distance thr face1)
                 (enumerate_from (i + 1) (drop (i + 1) all_faces))
                 (start, {[i]} ∪ processed)).1).
  { apply (fold_left_invariant_In
             (fun st => gathered face_distance thr all_faces (Z.of_nat (length clusters)) face1 st.1)).
    - intros a [j face2] Hb. apply people_scan_gathered. simpl.
      apply In_enumerate_from in Hb.
      apply list_elem_of_In. apply list_elem_of_In in Hb.
      eapply sublist_subseteq; [apply sublist_drop|exact Hb].
    - split; [reflexivity|]. split; [reflexivity|].
      exists []. split; [reflexivity|constructor]. }
  destruct (fold_left _ _ _) as [cluster processed'].
  destruct Hfold as (Hid & Hnames & members & Hfaces & Hnear). simpl in *.
  destruct (1 <? length (cluster_faces cluster))%nat; simpl; [|now split].
  split.
  - apply Forall_app. split; [exact Hall|]. constructor; [|constructor].
    split; [exact Hnames|]. exists face1, members. now repeat split.
  - unfold numbered in *. rewrite map_app, length_app, seq_app, map_app, Hnum.
    simpl. now rewrite Hid.
Qed.

End People.

Lemma cluster_people_gathered face_distance thr photo_results :
  Forall (around_first_face face_distance thr (collect_faces photo_results))
         (cluster_people face_distance photo_results thr) /\
  numbered (cluster_people face_distance photo_results thr).
Proof.
  unfold cluster_people.
  destruct (_ <? _)%nat; [split; [constructor|reflexivity]|].
  apply (fold_left_invariant_In
           (fun st => Forall (around_first_face face_distance thr
                                (collect_faces photo_results)) st.1
                      /\ numbered st.1)).
  - intros a [i face1] Hb. apply people_seed_gathered. simpl.
    now apply In_enumerate_from in Hb.
  - split; [constructor|reflexivity].
Qed.

(** X7: the person ids of the returned clusters are their positions. *)
Theorem cluster_people_ids_are_positions :
  forall (face_distance : list float -> list float -> float)
         (photo_results : list PhotoRecord) (face_distance_threshold : float),
    map person_id
        (cluster_people face_distance photo_results face_distance_threshold)
    = map Z.of_nat
          (seq 0 (length (cluster_people face_distance photo_results
                                         face_distance_threshold))).
Proof.
  intros face_distance photo_results thr.
  now apply (cluster_people_gathered face_distance thr photo_results).
Qed.

(** X8: in every person cluster the filenames follow the faces, and every
    face after the first is within the threshold of the first. *)
Theorem cluster_people_around_first_face :
  forall (face_distance : list float -> list float -> float)
         (photo_results : list PhotoRecord) (face_distance_threshold : float),
    Forall (around_first_face face_distance face_distance_threshold
                              (collect_faces photo_results))
           (cluster_people face_distance photo_results
                           face_distance_threshold).
Proof.
  intros face_distance photo_results thr.
  now apply (cluster_people_gathered face_distance thr photo_results).
Qed.

End PeopleClusters.

(** ** The shape of the scene clusters *)

Module SceneClusters.

Import Float64 Pipeline Outcomes SceneFacts EnumerateFacts.
Local Open Scope string_scope.
Local Open Scope Z_scope.
Local Open Scope list_scope.
#[local] Set Warnings "-clear-no-such-hyp".

Lemma names_with_snoc l labelled lab p :
  names_with l (labelled ++ [(lab, p)])
  = names_with l labelled ++ (if lab =? l then [filename p] else []).
Proof.
  unfold names_with. rewrite List.filter_app, map_app. simpl.
  now destruct (lab =? l).
Qed.

Lemma filter_none {A} (f : A -> bool) l :
  (forall x, In x l -> f x = false) -> List.filter f l = [].
Proof.
  induction l as [|x l IH]; intros H; simpl; trivial.
  rewrite (H x) by now left. apply IH. intros y Hy. apply H. now right.
Qed.

Lemma append_to_label_new label name clusters :
  ~ In label (map fst clusters) ->
  append_to_label label name clusters = clusters ++ [(label, [name])].
Proof.
  induction clusters as [|[l names] rest IH]; simpl; intros Hnot; trivial.
  destruct (Z.eqb_spec l label) as [->|Hne]; [tauto|].
  rewrite IH by tauto. reflexivity.
Qed.

Lemma append_to_label_old label name clusters :
  NoDup (map fst clusters) ->
  In label (map fst clusters) ->
  append_to_label label name clusters
  = map (fun c => if c.1 =? label then (c.1, c.2 ++ [name]) else c) clusters.
Proof.
  induction clusters as [|[l names] rest IH]; simpl; intros Hnd Hin;
    [contradiction|].
  apply NoDup_cons in Hnd as [Hl Hnd].
  destruct (Z.eqb_spec l label) as [->|Hne].
  - f_equal. symmetry. rewrite <- (map_id rest) at 2.
    apply map_ext_in. intros [l' names'] Hc. simpl.
    destruct (Z.eqb_spec l' label) as [->|]; trivial.
    exfalso. apply Hl. apply list_elem_of_In.
    change label with (fst (label, names')). now apply in_map.
  - f_equal. apply IH; trivial. destruct Hin; [contradiction|trivial].
Qed.

Lemma append_to_label_grouped labelled lab p clusters :
  lab <> -1 ->
  grouped labelled clusters ->
  grouped (labelled ++ [(lab, p)]) (append_to_label lab (filename p) clusters).
Proof.
  intros Hlab (Hnd & Hall & Hkeys).
  assert (Hdec : In lab (map fst clusters) \/ ~ In lab (map fst clusters)).
  { destruct (decide (lab ∈ map fst clusters)) as [H|H];
      [left|right]; now rewrite <- list_elem_of_In. }
  destruct Hdec as [Hin|Hnot].
  - rewrite append_to_label_old by trivial.
    assert (Ekeys : map fst (map (fun c : Z * list string =>
                       if c.1 =? lab then (c.1, c.2 ++ [filename p]) else c)
                     clusters) = map fst clusters).
    { rewrite map_map. apply map_ext. intros [l names]. simpl.
      now destruct (l =? lab). }
    split; [now rewrite Ekeys|]. split.
    + apply Forall_map. eapply Forall_impl; [exact Hall|].
      intros [l names] (H1 & H2 & H3). simpl in *.
      destruct (Z.eqb_spec l lab) as [->|Hne]; simpl.
      * split; trivial. split; [now destruct names|].
        rewrite names_with_snoc, Z.eqb_refl. now rewrite <- H3.
      * split; trivial. split; trivial.
        rewrite names_with_snoc.
        destruct (Z.eqb_spec lab l); [congruence|]. now rewrite app_nil_r.
    + rewrite Ekeys. intros lp [Hlp|[<-|[]]]%in_app_or Hne; auto.
  - rewrite append_to_label_new by trivial.
    assert (Hfresh : names_with lab labelled = []).
    { unfold names_with. rewrite filter_none; trivial.
      intros [l q] Hlq. simpl. destruct (Z.eqb_spec l lab) as [->|]; trivial.
      exfalso. apply Hnot. now apply (Hkeys (lab, q)). }
    split.
    + rewrite map_app. apply NoDup_app. split; trivial. split.
      * intros l Hl Hl'. apply list_elem_of_In in Hl'.
        destruct Hl' as [<-|[]]. now apply Hnot, list_elem_of_In.
      * apply NoDup_singleton.
    + split.
      * apply Forall_app. split.
        -- rewrite Forall_forall in Hall. apply Forall_forall.
           intros [l names] Hc. destruct (Hall _ Hc) as (H1 & H2 & H3).
           simpl in *. split; trivial. split; trivial.
           rewrite names_with_snoc.
           destruct (Z.eqb_spec lab l) as [->|]; [|now rewrite app_nil_r].
           exfalso. apply Hnot. apply list_elem_of_In in Hc.
           change l with (fst (l, names)). now apply in_map.
        -- constructor; [|constructor]. simpl. split; trivial.
           split; [discriminate|].
           now rewrite names_with_snoc, Z.eqb_refl, Hfresh.
      * rewrite map_app. intros lp [Hlp|[<-|[]]]%in_app_or Hne;
          apply in_or_app; [left; auto|right; now left].
Qed.

Lemma zip_snoc {A B} (l : list A) (x : A) : forall (k : list B) (y : B),
  k !! length l = Some y -> zip (l ++ [x]) k = zip l k ++ [(x, y)].
Proof.
  induction l as [|a l IH]; intros [|b k] y Hy; simpl in *; try discriminate.
  - injection Hy as ->. now destruct k.
  - f_equal. now apply IH.
Qed.

Lemma In_zip_r {A B} (l : list A) : forall (k : list B) x y,
  In (x, y) (zip l k) -> In y k.
Proof.
  induction l as [|a l IH]; intros [|b k] x y H; simpl in *; try contradiction.
  destruct H as [[= _ ->]|H]; [now left|right]. now apply (IH k x).
Qed.

Lemma group_labels valid_photos labels :
  (length labels <= length valid_photos)%nat ->
  exists clusters,
    fold_left (group_label valid_photos) (enumerate labels) (Some [])
    = Some clusters /\
    grouped (zip labels valid_photos) clusters.
Proof.
  induction labels as [|lab labels IH] using rev_ind; intros Hlen.
  - exists []. split; [reflexivity|].
    split; [constructor|]. split; [constructor|]. intros lp [].
  - rewrite length_app in Hlen. simpl in Hlen.
    destruct IH as (clusters & Hfold & Hgrouped); [lia|].
    destruct (lookup_lt_is_Some_2 valid_photos (length labels) ltac:(lia))
      as [p Hp].
    rewrite enumerate_snoc, fold_left_app, Hfold.
    rewrite (zip_snoc labels lab valid_photos p Hp).
    cbn [fold_left group_label mbind option_bind].
    destruct (Z.eqb_spec lab (-1)) as [->|Hne]; cbn [negb].
    + exists clusters. split; [reflexivity|].
      destruct Hgrouped as (Hnd & Hall & Hkeys).
      split; trivial. split.
      * eapply Forall_impl; [exact Hall|].
        intros [l names] (H1 & H2 & H3). simpl in *.
        split; trivial. split; trivial. rewrite names_with_snoc.
        destruct (Z.eqb_spec (-1) l); [congruence|]. now rewrite app_nil_r.
      * intros lp [Hlp|[<-|[]]]%in_app_or Hne; [auto|contradiction].
    + rewrite Hp. cbn [mbind option_bind].
      exists (append_to_label lab (filename p) clusters).
      split; [reflexivity|]. now apply append_to_label_grouped.
Qed.

(** X9: with two or more photos that have an embedding, and a clustering
    that gives no more labels than embeddings, [cluster_scenes] returns
    one cluster per label other than the noise label -1; a cluster
    holds the names of the photos with its label, in order, and is
    never empty; every name is that of a photo with an embedding. *)
Theorem cluster_scenes_groups_by_label :
  forall fit_predict photo_results similarity_threshold eps labels,
    (2 <= length (List.filter has_embedding photo_results))%nat ->
    fsub 1%Q similarity_threshold = Some eps ->
    fit_predict eps 2
      (map image_embedding (List.filter has_embedding photo_results))
    = Some labels ->
    (length labels <= length (List.filter has_embedding photo_results))%nat ->
    exists groups,
      cluster_scenes fit_predict photo_results similarity_threshold
      = Some (map snd groups) /\
      grouped (zip labels (List.filter has_embedding photo_results)) groups /\
      Forall (Forall (fun name =>
                exists p, In p photo_results /\ has_embedding p = true /\
                          filename p = name))
             (map snd groups).
Proof.
  intros fit_predict photo_results thr eps labels Htwo Heps Hfit Hlen.
  unfold cluster_scenes.
  destruct (Nat.ltb_spec (length (List.filter has_embedding photo_results)) 2);
    [lia|].
  rewrite Heps. cbn [mbind option_bind]. rewrite Hfit. cbn [mbind option_bind].
  destruct (group_labels _ labels Hlen) as (groups & -> & Hgrouped).
  cbn [mbind option_bind]. exists groups.
  split; [reflexivity|]. split; [exact Hgrouped|].
  destruct Hgrouped as (_ & Hall & _).
  apply Forall_map. eapply Forall_impl; [exact Hall|].
  intros [l names] (_ & _ & ->). simpl. unfold names_with.
  apply Forall_map, Forall_forall. intros [l' p] Hlp. simpl.
  apply list_elem_of_In, List.filter_In in Hlp as [Hlp _].
  apply In_zip_r, List.filter_In in Hlp as [Hp Hemb].
  exists p. now repeat split.
Qed.

Lemma cluster_scenes_groups_by_label_witness :
  exists groups : list (Z * list string),
    cluster_scenes example_labels
      [example_photo "a.jpg" "" "" [1%Q] [];
       example_photo "b.jpg" "" "" [0%Q] [];
       example_photo "c.jpg" "" "" [] [];
       example_photo "d.jpg" "" "" [1%Q] []]
      default_similarity_threshold
    = Some (map snd groups) /\
    map snd groups = [["a.jpg"; "d.jpg"]].
Proof.
  edestruct (cluster_scenes_groups_by_label example_labels
              [example_photo "a.jpg" "" "" [1%Q] [];
               example_photo "b.jpg" "" "" [0%Q] [];
               example_photo "c.jpg" "" "" [] [];
               example_photo "d.jpg" "" "" [1%Q] []]
              default_similarity_threshold)
    as (groups & Hrun & _);
    [ | vm_compute; reflexivity | reflexivity | | ].
  - simpl. lia.
  - simpl. lia.
  - exists groups. split; [exact Hrun|].
    assert (H : Some (map snd groups) = Some [["a.jpg"; "d.jpg"]]).
    { rewrite <- Hrun. vm_compute. reflexivity. }
    now injection H.
Defined.

End SceneClusters.

(** ** The Hamming distance as a metric *)

Module HammingFacts.

Import PerceptualHash Bits PerceptualHashFacts.
Local Open Scope string_scope.
Local Open Scope Z_scope.
#[local] Set Warnings "-clear-no-such-hyp".

Lemma count_bits_of_pos p : forall acc,
  count "1" (bits_of_pos p acc) = popcount_pos p + count "1" acc.
Proof.
  induction p as [p IH|p IH|]; intros acc; simpl.
  - rewrite IH. simpl. lia.
  - rewrite IH. simpl. lia.
  - reflexivity.
Qed.

Lemma count_bin z : count "1" (bin z) = popcount (Z.to_N (Z.abs z)).
Proof.
  destruct z as [|p|p]; trivial.
  - change (count "1" (bits_of_pos p "") = popcount_pos p).
    rewrite count_bits_of_pos. simpl. lia.
  - change (count "1" (bits_of_pos p "") = popcount_pos p).
    rewrite count_bits_of_pos. simpl. lia.
Qed.

Lemma popcount_pos_pos p : 0 < popcount_pos p.
Proof. induction p; simpl; lia. Qed.

Lemma popcount_nonneg n : 0 <= popcount n.
Proof. destruct n; simpl; [lia|]. pose proof (popcount_pos_pos p). lia. Qed.

Lemma popcount_zero n : popcount n = 0 <-> n = 0%N.
Proof.
  destruct n; simpl; [tauto|]. pose proof (popcount_pos_pos p).
  split; [lia|discriminate].
Qed.

Lemma popcount_step n :
  popcount n = Z.b2z (N.odd n) + popcount (N.div2 n).
Proof. destruct n as [|[p|p|]]; simpl; lia. Qed.

Lemma odd_lxor a b : N.odd (N.lxor a b) = xorb (N.odd a) (N.odd b).
Proof. rewrite <- !N.bit0_odd. apply N.lxor_spec. Qed.

Lemma div2_lxor a b : N.div2 (N.lxor a b) = N.lxor (N.div2 a) (N.div2 b).
Proof.
  apply N.bits_inj. intros n.
  rewrite N.lxor_spec, !N.div2_spec, !N.shiftr_spec', N.lxor_spec. reflexivity.
Qed.

Lemma popcount_triangle_fuel fuel : forall a b c,
  (a < 2 ^ N.of_nat fuel)%N -> (b < 2 ^ N.of_nat fuel)%N ->
  (c < 2 ^ N.of_nat fuel)%N ->
  popcount (N.lxor a c) <= popcount (N.lxor a b) + popcount (N.lxor b c).
Proof.
  induction fuel as [|fuel IH]; intros a b c Ha Hb Hc.
  - simpl in *. assert (a = 0%N) by lia. assert (b = 0%N) by lia.
    assert (c = 0%N) by lia. subst. simpl. lia.
  - rewrite (popcount_step (N.lxor a c)), (popcount_step (N.lxor a b)),
            (popcount_step (N.lxor b c)), !odd_lxor, !div2_lxor.
    assert (Hhalf : forall x, (x < 2 ^ N.of_nat (S fuel))%N ->
                              (N.div2 x < 2 ^ N.of_nat fuel)%N).
    { intros x Hx. rewrite Nat2N.inj_succ, N.pow_succ_r' in Hx.
      rewrite N.div2_div. apply N.Div0.div_lt_upper_bound. lia. }
    specialize (IH _ _ _ (Hhalf a Ha) (Hhalf b Hb) (Hhalf c Hc)).
    destruct (N.odd a), (N.odd b), (N.odd c); simpl; lia.
Qed.

Lemma below_pow2 (a : N) : (a < 2 ^ N.of_nat (N.to_nat a))%N.
Proof. rewrite N2Nat.id. apply N.pow_gt_lin_r. lia. Qed.

Lemma popcount_triangle a b c :
  popcount (N.lxor a c) <= popcount (N.lxor a b) + popcount (N.lxor b c).
Proof.
  apply (popcount_triangle_fuel (N.to_nat (N.max a (N.max b c)))).
  - eapply N.le_lt_trans; [|apply below_pow2]. lia.
  - eapply N.le_lt_trans; [|apply below_pow2]. lia.
  - eapply N.le_lt_trans; [|apply below_pow2]. lia.
Qed.

Lemma popcount_bound fuel : forall a,
  (a < 2 ^ N.of_nat fuel)%N -> popcount a <= Z.of_nat fuel.
Proof.
  induction fuel as [|fuel IH]; intros a Ha.
  - simpl in Ha. assert (a = 0%N) by lia. subst. simpl. lia.
  - rewrite popcount_step.
    assert (Hhalf : (N.div2 a < 2 ^ N.of_nat fuel)%N).
    { rewrite Nat2N.inj_succ, N.pow_succ_r' in Ha.
      rewrite N.div2_div. apply N.Div0.div_lt_upper_bound. lia. }
    specialize (IH _ Hhalf). destruct (N.odd a); simpl; lia.
Qed.

(** *** Hash strings of hexadecimal digits *)

Lemma hex_digit_code c :
  (digit_value c <? 16) = true ->
  0 <= digit_value c < 16 /\
  is_space c = false /\ is_underscore c = false /\
  (code c =? 43) = false /\ (code c =? 45) = false /\
  (code c =? 120) = false /\ (code c =? 88) = false.
Proof.
  unfold digit_value, is_space, is_underscore. intros H.
  assert (Hc : 0 <= code c) by (unfold code; lia).
  destruct ((48 <=? code c) && (code c <=? 57)) eqn:E1;
    [|destruct ((97 <=? code c) && (code c <=? 122)) eqn:E2;
      [|destruct ((65 <=? code c) && (code c <=? 90)) eqn:E3]];
    lia.
Qed.

Lemma scan_hex_digits s : forall acc,
  hex_digits s = true -> scan_digits s false acc = Some (hex_value acc s, "").
Proof.
  induction s as [|c s IH]; intros acc H; simpl in *; trivial.
  apply andb_true_iff in H as [Hc Hs].
  destruct (hex_digit_code c Hc) as (_ & _ & -> & _).
  rewrite Hc. now apply IH.
Qed.

Lemma hex_value_bound s : forall acc,
  hex_digits s = true -> 0 <= acc ->
  acc * 16 ^ Z.of_nat (String.length s) <= hex_value acc s
    < (acc + 1) * 16 ^ Z.of_nat (String.length s).
Proof.
  induction s as [|c s IH]; intros acc H Hacc.
  - simpl. lia.
  - cbn [hex_digits] in H. apply andb_true_iff in H as [Hc Hs].
    destruct (hex_digit_code c Hc) as (Hd & _).
    cbn [hex_value String.length]. rewrite Nat2Z.inj_succ, Z.pow_succ_r by lia.
    specialize (IH (acc * 16 + digit_value c) Hs ltac:(lia)).
    pose proof (Z.pow_pos_nonneg 16 (Z.of_nat (String.length s))
                  ltac:(lia) ltac:(lia)).
    nia.
Qed.

Lemma int_base16_hex_digits s :
  s <> "" -> hex_digits s = true ->
  int_base16 s = Some (hex_value 0 s) /\
  0 <= hex_value 0 s < 16 ^ Z.of_nat (String.length s).
Proof.
  intros Hne H. split; [|pose proof (hex_value_bound s 0 H); lia].
  destruct s as [|c s]; [contradiction|].
  pose proof H as H'. cbn [hex_digits] in H'.
  apply andb_true_iff in H' as [Hc Hs].
  destruct (hex_digit_code c Hc) as (_ & Hsp & Hu & Hplus & Hminus & _).
  unfold int_base16. cbn [skip_spaces]. rewrite Hsp.
  cbn [strip_sign]. rewrite Hplus, Hminus.
  assert (Ex : strip_0x (String c s) = String c s).
  { destruct s as [|c1 s]; trivial. cbn [strip_0x].
    cbn [hex_digits] in Hs. apply andb_true_iff in Hs as [Hc1 _].
    destruct (hex_digit_code c1 Hc1) as (_ & _ & _ & _ & _ & -> & ->).
    now rewrite andb_false_r. }
  rewrite Ex, Hc, (scan_hex_digits _ 0 H). cbn [skip_spaces]. f_equal. lia.
Qed.

Lemma hamming_distance_popcount h1 h2 a b :
  int_base16 h1 = Some a -> int_base16 h2 = Some b ->
  hamming_distance h1 h2 = popcount (Z.to_N (Z.abs (Z.lxor a b))).
Proof.
  intros Ha Hb. rewrite (hamming_distance_valid h1 h2 a b Ha Hb).
  apply count_bin.
Qed.

Lemma lxor_to_N a b :
  0 <= a -> 0 <= b ->
  Z.to_N (Z.abs (Z.lxor a b)) = N.lxor (Z.to_N a) (Z.to_N b).
Proof.
  intros Ha Hb. apply N2Z.inj.
  rewrite N2Z.inj_lxor, !Z2N.id; trivial.
  - apply Z.abs_eq. apply Z.lxor_nonneg. tauto.
  - apply Z.abs_nonneg.
Qed.

Lemma popcount_lxor_bound fuel : forall a b,
  (a < 2 ^ N.of_nat fuel)%N -> (b < 2 ^ N.of_nat fuel)%N ->
  popcount (N.lxor a b) <= Z.of_nat fuel.
Proof.
  induction fuel as [|fuel IH]; intros a b Ha Hb.
  - simpl in *. assert (a = 0%N) by lia. assert (b = 0%N) by lia.
    subst. simpl. lia.
  - rewrite popcount_step, div2_lxor.
    assert (Hhalf : forall x, (x < 2 ^ N.of_nat (S fuel))%N ->
                              (N.div2 x < 2 ^ N.of_nat fuel)%N).
    { intros x Hx. rewrite Nat2N.inj_succ, N.pow_succ_r' in Hx.
      rewrite N.div2_div. apply N.Div0.div_lt_upper_bound. lia. }
    specialize (IH _ _ (Hhalf a Ha) (Hhalf b Hb)).
    destruct (N.odd (N.lxor a b)); simpl; lia.
Qed.

(** X10: distances are never negative, and two strings that [int] reads
    are at distance zero exactly when they denote the same number. *)
Theorem hamming_distance_zero_iff_same_number :
  forall h1 h2 : string,
    0 <= hamming_distance h1 h2 /\
    forall a b, int_base16 h1 = Some a -> int_base16 h2 = Some b ->
                (hamming_distance h1 h2 = 0 <-> a = b).
Proof.
  intros h1 h2. split.
  - unfold hamming_distance.
    destruct (int_base16 h1) as [a|]; [|lia].
    destruct (int_base16 h2) as [b|]; [|lia].
    rewrite count_bin. apply popcount_nonneg.
  - intros a b Ha Hb. rewrite (hamming_distance_popcount h1 h2 a b Ha Hb).
    rewrite popcount_zero, <- (Z.lxor_eq_0_iff a b). lia.
Qed.

(** X11: on strings that denote numbers that are not negative, the
    distance satisfies the triangle inequality. *)
Theorem hamming_distance_triangle :
  forall (h1 h2 h3 : string) a b c,
    int_base16 h1 = Some a -> int_base16 h2 = Some b ->
    int_base16 h3 = Some c ->
    0 <= a -> 0 <= b -> 0 <= c ->
    hamming_distance h1 h3 <= hamming_distance h1 h2 + hamming_distance h2 h3.
Proof.
  intros h1 h2 h3 a b c H1 H2 H3 Ha Hb Hc.
  rewrite (hamming_distance_popcount h1 h3 a c H1 H3),
          (hamming_distance_popcount h1 h2 a b H1 H2),
          (hamming_distance_popcount h2 h3 b c H2 H3).
  rewrite !lxor_to_N by trivial. apply popcount_triangle.
Qed.

Lemma hamming_distance_triangle_witness :
  hamming_distance "00ff" "0f0f"
  <= hamming_distance "00ff" "ffff" + hamming_distance "ffff" "0f0f".
Proof.
  apply (hamming_distance_triangle "00ff" "ffff" "0f0f" 255 65535 3855);
    reflexivity || lia.
Defined.

(** X12: two strings of at most [n] hexadecimal digits are at distance at
    most [4 * n]. *)
Theorem hamming_distance_of_hex_digits_bounded :
  forall (h1 h2 : string) (n : nat),
    h1 <> "" -> h2 <> "" ->
    hex_digits h1 = true -> hex_digits h2 = true ->
    (String.length h1 <= n)%nat -> (String.length h2 <= n)%nat ->
    0 <= hamming_distance h1 h2 <= 4 * Z.of_nat n.
Proof.
  intros h1 h2 n Hne1 Hne2 Hx1 Hx2 Hl1 Hl2.
  destruct (int_base16_hex_digits h1 Hne1 Hx1) as [E1 [Ha0 Ha]].
  destruct (int_base16_hex_digits h2 Hne2 Hx2) as [E2 [Hb0 Hb]].
  rewrite (hamming_distance_popcount h1 h2 _ _ E1 E2), lxor_to_N by trivial.
  split; [apply popcount_nonneg|].
  assert (Hpow : forall k, (k <= n)%nat -> 16 ^ Z.of_nat k <= 2 ^ Z.of_nat (4 * n)).
  { intros k Hk. change 16 with (2 ^ 4). rewrite <- Z.pow_mul_r by lia.
    apply Z.pow_le_mono_r; lia. }
  assert (Hlt : forall v, 0 <= v < 2 ^ Z.of_nat (4 * n) ->
                          (Z.to_N v < 2 ^ N.of_nat (4 * n))%N).
  { intros v Hv. apply N2Z.inj_lt. rewrite Z2N.id by lia.
    rewrite N2Z.inj_pow, nat_N_Z. change (Z.of_N 2) with 2. lia. }
  replace (4 * Z.of_nat n) with (Z.of_nat (4 * n)) by lia.
  apply popcount_lxor_bound; apply Hlt.
  - specialize (Hpow _ Hl1). lia.
  - specialize (Hpow _ Hl2). lia.
Qed.

Lemma hamming_distance_of_hex_digits_bounded_witness :
  0 <= hamming_distance "00ff00ff00ff00ff" "0f0f0f0f0f0f0f0f" <= 4 * Z.of_nat 16.
Proof.
  apply hamming_distance_of_hex_digits_bounded;
    first [discriminate | reflexivity | simpl; lia].
Defined.

End HammingFacts.

(** ** More on the crops *)

Module CropResultFacts.

Import Float64 Float64Facts CropCalculator CropFacts Outcomes.
Local Open Scope string_scope.
Local Open Scope Z_scope.
Local Open Scope list_scope.
#[local] Set Warnings "-clear-no-such-hyp".

Ltac invert_binds H :=
  repeat (let x := fresh "x" in let E := fresh "E" in
          apply bind_Some in H as (x & E & H)).

Lemma face_crop_confidence faces iw ih cw ch hr r :
  face_crop faces iw ih cw ch hr = Some r ->
  exists best,
    max_by_key score faces = Some best /\
    fmul (Detection.confidence best) (Detection.quality_score best)
    = Some (confidence r).
Proof.
  unfold face_crop. intros H.
  apply bind_Some in H as (best & Hbest & H). exists best. split; trivial.
  invert_binds H.
  match type of H with
  | (let '(_, _) := ?p in _) = _ => destruct p
  end.
  invert_binds H. injection H as <-. simpl. assumption.
Qed.

Lemma person_crop_confidence persons iw ih cw ch r :
  person_crop persons iw ih cw ch = Some r ->
  exists best,
    max_by_key score persons = Some best /\
    fmul (Detection.confidence best) (Detection.quality_score best)
    = Some (confidence r).
Proof.
  unfold person_crop. intros H.
  apply bind_Some in H as (best & Hbest & H). exists best. split; trivial.
  invert_binds H. injection H as <-. simpl. assumption.
Qed.

Lemma score_symmetric d :
  detection_in_range d ->
  fmul (Detection.confidence d) (Detection.quality_score d) = score d /\
  exists k, score d = Some k /\ unit_interval k.
Proof.
  intros Hd. pose proof (score_eq d Hd) as Hs.
  destruct Hd as (_ & Hc & Hq).
  pose proof Hc as [Hc0 Hc1]. pose proof Hq as [Hq0 Hq1].
  assert (E : (Detection.confidence d * Detection.quality_score d
               == Detection.quality_score d * Detection.confidence d)%Q)
    by ring.
  split.
  - rewrite Hs. erewrite fmul_eq; [|bnd|reflexivity|reflexivity].
    now rewrite (round_ne_proper _ _ E).
  - eexists. split; [exact Hs|]. split.
    + apply round_ne_nonneg. nra.
    + assert (E1 : (round_ne 1 == 1)%Q) by (apply (round_ne_int 1); reflexivity).
      rewrite <- E1. apply round_ne_mono. nra.
Qed.

(** X13: the confidence of the result is the highest score among the
    detections of the strategy used, a number of [0, 1]; it is the float
    0.3 for the centre crop. *)
Theorem crop_confidence_is_best_score :
  forall image_path aw ah faces persons iw ih hr,
    aspect_term aw -> aspect_term ah ->
    image_dimension iw -> image_dimension ih ->
    Forall detection_in_range faces -> Forall detection_in_range persons ->
    unit_interval hr ->
    exists r,
      calculate_smart_crop image_path (aw, ah) faces persons iw ih hr = Some r /\
      unit_interval (confidence r) /\
      match faces, persons with
      | _ :: _, _ =>
          exists best, maximises_score best faces /\
                       score best = Some (confidence r)
      | [], _ :: _ =>
          exists best, maximises_score best persons /\
                       score best = Some (confidence r)
      | [], [] => confidence r = lit (3 # 10)
      end.
Proof.
  intros image_path aw ah faces persons iw ih hr
         Haw Hah Hiw Hih Hfaces Hpersons Hhr.
  destruct (crop_dimensions_spec aw ah iw ih Haw Hah Hiw Hih)
    as (cw & ch & Hdims & Hratio).
  assert (Hcw : 0 <= cw <= iw) by (unfold image_dimension in *; lia).
  assert (Hch : 0 <= ch <= ih) by (unfold image_dimension in *; lia).
  unfold calculate_smart_crop. rewrite Hdims. cbn [mbind option_bind].
  assert (Hbest : forall items best k,
             Forall detection_in_range items ->
             max_by_key score items = Some best ->
             fmul (Detection.confidence best) (Detection.quality_score best)
             = Some k ->
             unit_interval k /\ maximises_score best items /\
             score best = Some k).
  { intros items best k Hitems Hmax Hk.
    pose proof (max_by_key_maximises items best Hmax) as Hm.
    destruct Hm as [Hin Hm']. rewrite Forall_forall in Hitems.
    destruct (score_symmetric best (Hitems best ltac:(now apply list_elem_of_In)))
      as (Hsym & k' & Hk' & Hunit).
    rewrite Hsym, Hk' in Hk. injection Hk as <-.
    split; [exact Hunit|]. split; [now split|exact Hk']. }
  destruct faces as [|f faces]; [destruct persons as [|p persons]|].
  - eexists. split; [reflexivity|]. split; [|reflexivity].
    apply (unit_interval_lit (3 # 10)). split; lra.
  - destruct (person_crop_spec (p :: persons) iw ih cw ch
                ltac:(discriminate) Hpersons Hiw Hih Hcw Hch)
      as (best & r & Hmax & _ & Hr & _).
    exists r. split; [exact Hr|].
    destruct (person_crop_confidence _ _ _ _ _ _ Hr) as (best' & Hmax' & Hk).
    assert (best' = best) as -> by congruence.
    destruct (Hbest _ _ _ Hpersons Hmax Hk) as (Hu & Hm & Hs).
    split; [exact Hu|]. now exists best.
  - destruct (face_crop_spec (f :: faces) iw ih cw ch hr
                ltac:(discriminate) Hfaces Hiw Hih Hcw Hch Hhr)
      as (best & r & Hmax & _ & Hr & _).
    exists r. split; [exact Hr|].
    destruct (face_crop_confidence _ _ _ _ _ _ _ Hr) as (best' & Hmax' & Hk).
    assert (best' = best) as -> by congruence.
    destruct (Hbest _ _ _ Hfaces Hmax Hk) as (Hu & Hm & Hs).
    split; [exact Hu|]. now exists best.
Qed.

Lemma crop_confidence_is_best_score_witness :
  exists r,
    calculate_smart_crop "stage.jpg" (4, 5) [singer_face; drummer_face]
      [singer] 4000 3000 default_headroom_ratio = Some r /\
    unit_interval (confidence r) /\
    exists best, maximises_score best [singer_face; drummer_face] /\
                 score best = Some (confidence r).
Proof.
  apply (crop_confidence_is_best_score "stage.jpg" 4 5
           [singer_face; drummer_face] [singer] 4000 3000
           default_headroom_ratio); in_range.
Defined.

(** *** The square crop *)

Lemma round_ne_of_int_times_one n :
  exact_int n -> to_int (round_ne (inject_Z n * 1)) = n.
Proof.
  intros Hn.
  assert (E : (inject_Z n * 1 == inject_Z n)%Q) by ring.
  rewrite (round_ne_proper _ _ E).
  rewrite (to_int_proper _ _ (round_ne_int n Hn)). apply to_int_inject.
Qed.

Lemma round_ne_of_int_over_one n :
  exact_int n -> to_int (round_ne (inject_Z n / 1)) = n.
Proof.
  intros Hn.
  assert (E : (inject_Z n / 1 == inject_Z n)%Q) by (field).
  rewrite (round_ne_proper _ _ E).
  rewrite (to_int_proper _ _ (round_ne_int n Hn)). apply to_int_inject.
Qed.

Lemma wider_than_square iw ih :
  image_dimension iw -> image_dimension ih ->
  fltb 1 (round_ne (inject_Z iw / inject_Z ih)) = true <-> ih < iw.
Proof.
  unfold image_dimension. intros Hiw Hih.
  pose proof (inject_Z_pos ih ltac:(lia)) as Qih.
  assert (E1 : (round_ne 1 == 1)%Q) by (apply (round_ne_int 1); reflexivity).
  rewrite fltb_true. split.
  - intros H. destruct (Z_lt_le_dec ih iw) as [Hlt|Hle]; trivial. exfalso.
    assert (Hb : (inject_Z iw / inject_Z ih <= 1)%Q).
    { apply Qle_shift_div_r; trivial. rewrite Qmult_1_l, <- Zle_Qle. exact Hle. }
    apply round_ne_mono in Hb. lra.
  - intros Hlt.
    set (s := (2147483649 # 2147483648)%Q).
    assert (Es : round_ne s = s) by (vm_compute; reflexivity).
    assert (Hs1 : (1 < s)%Q) by reflexivity.
    assert (Hb : (s <= inject_Z iw / inject_Z ih)%Q).
    { apply Qle_shift_div_l; trivial.
      subst s. unfold Qle, Qmult, inject_Z. simpl. lia. }
    apply round_ne_mono in Hb. rewrite Es in Hb. lra.
Qed.

Lemma crop_dimensions_square iw ih :
  image_dimension iw -> image_dimension ih ->
  crop_dimensions (1, 1) iw ih = Some (Z.min iw ih, Z.min iw ih).
Proof.
  intros Hiw Hih. pose proof (wider_than_square iw ih Hiw Hih) as Hcmp.
  unfold image_dimension in *. unfold crop_dimensions.
  change (truediv 1 1) with (Some 1%Q). cbn [mbind option_bind].
  rewrite (ratio_truediv iw ih 31 31) by lia. cbn [mbind option_bind].
  destruct (fltb 1 _).
  - assert (ih < iw) by now apply Hcmp.
    rewrite (int_mul_float_eq 31 ih 1); try reflexivity.
    + cbn [mbind option_bind].
      rewrite round_ne_of_int_times_one by (unfold exact_int; lia).
      f_equal. f_equal; lia.
    + unfold exact_int. lia.
    + apply (bounded_mul 31 0); [apply bounded_inject; lia|].
      unfold bounded. vm_compute. discriminate.
  - assert (~ ih < iw) by (intros H; apply Hcmp in H; discriminate).
    rewrite (int_div_float_eq 31 iw 1); try reflexivity.
    + cbn [mbind option_bind].
      rewrite round_ne_of_int_over_one by (unfold exact_int; lia).
      f_equal. f_equal; lia.
    + unfold exact_int. lia.
    + discriminate.
    + change 1%Q with (inject_Z 1).
      apply bounded_div_int; [discriminate|apply bounded_inject; lia].
Qed.

(** X14: a 1:1 crop is a square whose side is the shorter side of the
    image. *)
Theorem square_crop_has_shorter_side :
  forall image_path faces persons iw ih hr,
    image_dimension iw -> image_dimension ih ->
    Forall detection_in_range faces -> Forall detection_in_range persons ->
    unit_interval hr ->
    exists r,
      calculate_smart_crop image_path (1, 1) faces persons iw ih hr = Some r /\
      Box.width (crop_box r) = Z.min iw ih /\
      Box.height (crop_box r) = Z.min iw ih.
Proof.
  intros image_path faces persons iw ih hr Hiw Hih Hfaces Hpersons Hhr.
  unfold calculate_smart_crop.
  rewrite (crop_dimensions_square iw ih Hiw Hih). cbn [mbind option_bind].
  assert (Hm : 0 <= Z.min iw ih <= iw /\ 0 <= Z.min iw ih <= ih)
    by (unfold image_dimension in *; lia).
  destruct Hm as [Hcw Hch].
  destruct faces as [|f faces]; [destruct persons as [|p persons]|].
  - eexists. split; [reflexivity|]. now split.
  - destruct (person_crop_spec (p :: persons) iw ih _ _
                ltac:(discriminate) Hpersons Hiw Hih Hcw Hch)
      as (best & r & _ & _ & Hr & _ & Hw & Hh & _).
    exists r. now repeat split.
  - destruct (face_crop_spec (f :: faces) iw ih _ _ hr
                ltac:(discriminate) Hfaces Hiw Hih Hcw Hch Hhr)
      as (best & r & _ & _ & Hr & _ & Hw & Hh & _).
    exists r. now repeat split.
Qed.

Lemma square_crop_has_shorter_side_witness :
  exists r,
    calculate_smart_crop "stage.jpg" (1, 1) [singer_face] [] 4000 3000
      default_headroom_ratio = Some r /\
    Box.width (crop_box r) = Z.min 4000 3000 /\
    Box.height (crop_box r) = Z.min 4000 3000.
Proof.
  apply square_crop_has_shorter_side; in_range.
Defined.

Lemma crop_dimensions_exact_ratio aw ah iw ih :
  aspect_term aw -> aspect_term ah ->
  image_dimension iw -> image_dimension ih ->
  iw * ah = ih * aw ->
  (round_ne (inject_Z aw / inject_Z ah) <= inject_Z aw / inject_Z ah)%Q ->
  crop_dimensions (aw, ah) iw ih = Some (iw, ih).
Proof.
  intros Haw Hah Hiw Hih Hexact Hdown.
  unfold aspect_term, image_dimension in *. unfold crop_dimensions.
  rewrite (ratio_truediv aw ah 16 16) by lia. cbn [mbind option_bind].
  rewrite (ratio_truediv iw ih 31 31) by lia. cbn [mbind option_bind].
  pose proof (inject_Z_pos aw ltac:(lia)) as Qaw.
  pose proof (inject_Z_pos ah ltac:(lia)) as Qah.
  pose proof (inject_Z_pos iw ltac:(lia)) as Qiw.
  pose proof (inject_Z_pos ih ltac:(lia)) as Qih.
  assert (Hcross : (inject_Z iw * inject_Z ah == inject_Z ih * inject_Z aw)%Q).
  { rewrite <- !inject_Z_mult. now rewrite Hexact. }
  assert (Eab : (inject_Z iw / inject_Z ih == inject_Z aw / inject_Z ah)%Q).
  { field_simplify_eq; [|lra]. rewrite Hcross. ring. }
  rewrite (round_ne_proper _ _ Eab).
  set (a := (inject_Z aw / inject_Z ah)%Q) in *. set (t := round_ne a) in *.
  assert (Htlo : (pow2 (-16) <= t)%Q)
    by (apply (ratio_rounded_lower aw ah 16 16); lia).
  pose proof (pow2_pos (-16)) as Hp16.
  assert (Ecmp : fltb t t = false) by (apply fltb_false; apply Qle_refl).
  rewrite Ecmp.
  rewrite (int_div_float_eq 47 iw t).
  - cbn [mbind option_bind]. f_equal. f_equal. apply Z.min_r.
    assert (Hq : (inject_Z ih <= inject_Z iw / t)%Q).
    { apply Qle_shift_div_l; [lra|].
      assert (Ea : (a * inject_Z ah == inject_Z aw)%Q) by (unfold a; field; lra).
      assert (Hta : (inject_Z ih * t <= inject_Z ih * a)%Q) by nra.
      assert (E : (inject_Z ih * a * inject_Z ah == inject_Z iw * inject_Z ah)%Q).
      { rewrite Hcross. rewrite <- Ea. ring. }
      assert (inject_Z ih * a == inject_Z iw)%Q by nra.
      lra. }
    apply round_ne_mono in Hq.
    rewrite (round_ne_int ih) in Hq by lia.
    set (h := round_ne (inject_Z iw / t)) in *.
    assert (Hh0 : (0 <= h)%Q) by lra.
    rewrite (to_int_nonneg h Hh0).
    rewrite <- (Qfloor_Z ih). now apply Qfloor_resp_le.
  - unfold exact_int. lia.
  - intros E. rewrite E in Htlo. lra.
  - apply (bounded_div 31 16).
    + apply bounded_inject; lia.
    + rewrite Qabs_pos by lra. exact Htlo.
  - reflexivity.
  - reflexivity.
Qed.

(** X15: a photo that has the target ratio exactly is kept whole: when
    the double of the ratio is not above the ratio itself (as for 16:9
    and 1:1), the crop is the whole image, whatever the detections. *)
Theorem exact_ratio_image_kept_whole :
  forall image_path aw ah faces persons iw ih,
    aspect_term aw -> aspect_term ah ->
    image_dimension iw -> image_dimension ih ->
    Forall detection_in_range faces -> Forall detection_in_range persons ->
    iw * ah = ih * aw ->
    (round_ne (inject_Z aw / inject_Z ah) <= inject_Z aw / inject_Z ah)%Q ->
    exists r,
      calculate_smart_crop image_path (aw, ah) faces persons iw ih
        default_headroom_ratio = Some r /\
      crop_box r = {| Box.x := 0; Box.y := 0;
                      Box.width := iw; Box.height := ih |}.
Proof.
  intros image_path aw ah faces persons iw ih Haw Hah Hiw Hih Hfaces Hpersons
         Hexact Hdown.
  unfold calculate_smart_crop.
  rewrite (crop_dimensions_exact_ratio aw ah iw ih) by assumption.
  cbn [mbind option_bind].
  assert (Hwhole : forall r,
            Box.width (crop_box r) = iw -> Box.height (crop_box r) = ih ->
            0 <= Box.x (crop_box r) <= iw - iw ->
            0 <= Box.y (crop_box r) <= ih - ih ->
            crop_box r = {| Box.x := 0; Box.y := 0;
                            Box.width := iw; Box.height := ih |}).
  { intros r Hw Hh Hx Hy. destruct (crop_box r) as [x y w h]. simpl in *.
    f_equal; lia. }
  assert (Hiw' : 0 <= iw <= iw) by (unfold image_dimension in Hiw; lia).
  assert (Hih' : 0 <= ih <= ih) by (unfold image_dimension in Hih; lia).
  destruct faces as [|f faces]; [destruct persons as [|p persons]|].
  - eexists. split; [reflexivity|]. unfold center_crop. simpl.
    rewrite !Z.sub_diag. reflexivity.
  - destruct (person_crop_spec (p :: persons) iw ih iw ih)
      as (best & r & _ & _ & Hr & _ & Hw & Hh & Hx & Hy & _);
      trivial; [discriminate|].
    exists r. split; [exact Hr|]. now apply Hwhole.
  - destruct (face_crop_spec (f :: faces) iw ih iw ih default_headroom_ratio)
      as (best & r & _ & _ & Hr & _ & Hw & Hh & Hx & Hy & _);
      trivial; [discriminate|apply unit_interval_lit; split; lra|].
    exists r. split; [exact Hr|]. now apply Hwhole.
Qed.

Lemma exact_ratio_image_kept_whole_witness :
  exists r,
    calculate_smart_crop "stage.jpg" (16, 9) [singer_face] [] 1920 1080
      default_headroom_ratio = Some r /\
    crop_box r = {| Box.x := 0; Box.y := 0;
                    Box.width := 1920; Box.height := 1080 |}.
Proof.
  apply (exact_ratio_image_kept_whole "stage.jpg" 16 9 [singer_face] []
           1920 1080).
  - unfold aspect_term. lia.
  - unfold aspect_term. lia.
  - unfold image_dimension. lia.
  - unfold image_dimension. lia.
  - repeat constructor; vm_compute; try reflexivity; discriminate.
  - constructor.
  - reflexivity.
  - vm_compute. discriminate.
Defined.

Lemma smart_crop_in_range image_path aw ah faces persons iw ih :
  aspect_term aw -> aspect_term ah ->
  image_dimension iw -> image_dimension ih ->
  Forall detection_in_range faces -> Forall detection_in_range persons ->
  exists c,
    calculate_smart_crop image_path (aw, ah) faces persons iw ih
      default_headroom_ratio = Some c /\
    box_inside (crop_box c) iw ih /\
    maximal_for_ratio (crop_box c) aw ah iw ih /\
    method c = expected_method faces persons.
Proof.
  intros Haw Hah Hiw Hih Hf Hp.
  destruct (calculate_smart_crop_spec image_path aw ah faces persons iw ih
              default_headroom_ratio Haw Hah Hiw Hih Hf Hp
              (unit_interval_lit (15 # 100) ltac:(split; lra)))
    as (c & Hc & Hin & Hmax & Hface & Hperson & Hcentre).
  exists c. repeat split; trivial; try apply Hin.
  destruct faces as [|f faces]; [destruct persons as [|p persons]|]; simpl.
  - now rewrite (Hcentre eq_refl eq_refl).
  - now apply Hperson.
  - now apply Hface.
Qed.

End CropResultFacts.

(** ** The record of a photo *)

Module PhotoFacts.

Import Float64 Float64Facts CropCalculator CropFacts Pipeline Outcomes CropResultFacts.
Local Open Scope string_scope.
Local Open Scope Z_scope.
Local Open Scope list_scope.
#[local] Set Warnings "-clear-no-such-hyp".

(** X16: a photo whose image opens, with sides and detections in range,
    fails only when the monochrome test raises; its record holds the
    three crops, each inside the photo and of the method that the
    priority order gives. *)
Theorem process_photo_crops :
  forall env image_path output_dir verbose w h,
    image_size env image_path = Some (w, h) ->
    image_dimension w -> image_dimension h ->
    Forall detection_in_range (detect_faces env image_path) ->
    Forall detection_in_range (detect_persons env image_path) ->
    (process_photo env image_path output_dir verbose = None <->
     detect_monochrome env image_path = None) /\
    forall r,
      process_photo env image_path output_dir verbose = Some r ->
      width r = w /\ height r = h /\
      faces r = detect_faces env image_path /\
      ((0 < length (faces r) <= 3)%nat -> persons r = []) /\
      dom (crops r) = ({["4:5"; "16:9"; "1:1"]} : gset string) /\
      map_Forall
        (fun _ c => box_inside (crop_box c) w h /\
                    method c = expected_method (faces r) (persons r))
        (crops r).
Proof.
  intros env image_path output_dir verbose w h Hsize Hw Hh Hfaces Hpersons.
  unfold process_photo. rewrite Hsize. cbn [mbind option_bind].
  set (faces := detect_faces env image_path) in *.
  set (persons := if (length faces =? 0)%nat || (3 <? length faces)%nat
                  then detect_persons env image_path else []).
  assert (Hp : Forall detection_in_range persons).
  { subst persons. destruct (_ || _); [exact Hpersons|constructor]. }
  destruct (smart_crop_in_range image_path 4 5 faces persons w h)
    as (c1 & E1 & B1 & _ & M1); trivial; try (split; reflexivity).
  destruct (smart_crop_in_range image_path 16 9 faces persons w h)
    as (c2 & E2 & B2 & _ & M2); trivial; try (split; reflexivity).
  destruct (smart_crop_in_range image_path 1 1 faces persons w h)
    as (c3 & E3 & B3 & _ & M3); trivial; try (split; reflexivity).
  cbn [ASPECT_RATIOS fold_left add_crop mbind option_bind fst snd].
  rewrite E1. cbn [mbind option_bind]. rewrite E2. cbn [mbind option_bind].
  rewrite E3. cbn [mbind option_bind].
  destruct (detect_monochrome env image_path) as [mono|];
    cbn [mbind option_bind].
  - split; [split; discriminate|].
    intros r [= <-]. cbn [width height crops Pipeline.faces Pipeline.persons].
    split; [reflexivity|]. split; [reflexivity|]. split; [reflexivity|].
    split.
    { intros Hlen. subst persons. fold faces in Hlen.
      destruct (Nat.eqb_spec (length faces) 0); [lia|].
      destruct (Nat.ltb_spec 3 (length faces)); [lia|]. reflexivity. }
    split.
    + rewrite !dom_insert_L, dom_empty_L. vm_compute str. set_solver.
    + apply map_Forall_insert_2; [now split|].
      apply map_Forall_insert_2; [now split|].
      apply map_Forall_insert_2; [now split|].
      apply map_Forall_empty.
  - split; [tauto|]. intros r [=].
Qed.

Lemma process_photo_crops_witness :
  (process_photo example_env "a.jpg" "out" false = None <->
   detect_monochrome example_env "a.jpg" = None) /\
  forall r,
    process_photo example_env "a.jpg" "out" false = Some r ->
    width r = 640 /\ height r = 480 /\
    faces r = detect_faces example_env "a.jpg" /\
    ((0 < length (faces r) <= 3)%nat -> persons r = []) /\
    dom (crops r) = ({["4:5"; "16:9"; "1:1"]} : gset string) /\
    map_Forall
      (fun _ c => box_inside (crop_box c) 640 480 /\
                  method c = expected_method (faces r) (persons r))
      (crops r).
Proof.
  apply process_photo_crops; try reflexivity; try (split; reflexivity);
    constructor.
Defined.

End PhotoFacts.

(** ** The detectors *)

Module DetectorFacts.

Import Float64 Float64Facts CropCalculator CropFacts Outcomes Detectors CropResultFacts.
Local Open Scope Z_scope.
Local Open Scope list_scope.
#[local] Set Warnings "-clear-no-such-hyp".

Lemma fl_Some x r : fl x = Some r -> r = round_ne x.
Proof. unfold fl. destruct (Qle_bool _ _); congruence. Qed.

Lemma min2_unit d : (0 <= d)%Q -> unit_interval (min2 1%Q d).
Proof.
  intros Hd. unfold min2, unit_interval. destruct (fltb d 1) eqn:E.
  - apply fltb_true in E. lra.
  - lra.
Qed.

Lemma clamp_unit x : unit_interval (min2 1%Q (max2 0%Q x)).
Proof.
  apply min2_unit. unfold max2. destruct (fltb 0 x) eqn:E.
  - apply fltb_true in E. lra.
  - lra.
Qed.

Lemma round_ne_one : round_ne 1%Q = 1%Q.
Proof. vm_compute. reflexivity. Qed.

Lemma round_ne_zero' : round_ne 0%Q = 0%Q.
Proof. vm_compute. reflexivity. Qed.

(** A weighted part of a score: [s * w] for a score [s] of [0, 1]. *)
Lemma weighted_part s w p :
  unit_interval s -> (0 <= w)%Q -> fmul s w = Some p ->
  (0 <= p <= round_ne w)%Q.
Proof.
  intros [Hs0 Hs1] Hw Hp. apply fl_Some in Hp. subst p. split.
  - apply round_ne_nonneg. nra.
  - apply round_ne_mono. nra.
Qed.

Lemma complement_unit m c :
  unit_interval m -> fsub 1%Q m = Some c -> unit_interval c.
Proof.
  intros [Hm0 Hm1] Hc. apply fl_Some in Hc. subst c. split.
  - apply round_ne_nonneg. lra.
  - rewrite <- round_ne_one at 2. apply round_ne_mono. lra.
Qed.

Lemma sum_of_parts a b s (wa wb : Q) :
  (0 <= a <= wa)%Q -> (0 <= b <= wb)%Q -> fadd a b = Some s ->
  (0 <= s <= round_ne (wa + wb))%Q.
Proof.
  intros Ha Hb Hs. apply fl_Some in Hs. subst s. split.
  - apply round_ne_nonneg. lra.
  - apply round_ne_mono. lra.
Qed.

Section Quality.

Variable square : float -> option float.
Variable np_sqrt : float -> option float.
Hypothesis np_sqrt_nonneg : forall x r, np_sqrt x = Some r -> (0 <= r)%Q.

Lemma distance_nonneg cx cy w h d :
  distance_from_center square np_sqrt cx cy w h = Some d -> (0 <= d)%Q.
Proof.
  unfold distance_from_center. intros H.
  repeat (let x := fresh "x" in let E := fresh "E" in
          apply bind_Some in H as (x & E & H)).
  now apply np_sqrt_nonneg in H.
Qed.

Lemma face_of_location_spec loc w h d :
  face_of_location square np_sqrt loc w h = Some d ->
  Detection.box d
  = {| Box.x := left loc; Box.y := top loc;
       Box.width := right loc - left loc;
       Box.height := bottom loc - top loc |} /\
  Detection.confidence d = 1%Q /\
  unit_interval (Detection.quality_score d).
Proof.
  unfold face_of_location. intros H.
  apply bind_Some in H as (cx & _ & H).
  apply bind_Some in H as (cy & _ & H).
  apply bind_Some in H as (dist & Hdist & H).
  apply bind_Some in H as (ratio & _ & H).
  apply bind_Some in H as (shifted & _ & H).
  apply bind_Some in H as (scaled & _ & H).
  apply bind_Some in H as (area_part & Harea & H).
  apply bind_Some in H as (centrality & Hcen & H).
  apply bind_Some in H as (cen_part & Hcp & H).
  apply bind_Some in H as (q & Hq & H).
  apply (inj Some) in H. subst d. simpl. split; [reflexivity|]. split; [reflexivity|].
  apply distance_nonneg in Hdist.
  pose proof (weighted_part _ (lit (7 # 10)) _ (clamp_unit scaled)
                ltac:(vm_compute; discriminate) Harea) as Ha.
  pose proof (complement_unit _ _ (min2_unit dist Hdist) Hcen) as Hc.
  pose proof (weighted_part _ (lit (3 # 10)) _ Hc
                ltac:(vm_compute; discriminate) Hcp) as Hb.
  pose proof (sum_of_parts _ _ _ _ _ Ha Hb Hq) as [Hq0 Hq1].
  split; [exact Hq0|].
  eapply Qle_trans; [exact Hq1|]. vm_compute. discriminate.
Qed.


Lemma ratio_nonneg area w h r :
  0 <= area -> 0 < w -> 0 < h -> truediv area (w * h) = Some r -> (0 <= r)%Q.
Proof.
  intros Ha Hw Hh H. unfold truediv in H.
  destruct (Z.eqb_spec (w * h) 0); [discriminate|].
  apply fl_Some in H. subst r. apply round_ne_nonneg.
  assert (Hq : (0 < inject_Z (w * h))%Q).
  { change 0%Q with (inject_Z 0). rewrite <- Zlt_Qlt. nia. }
  assert (Hn : (0 <= inject_Z area)%Q).
  { change 0%Q with (inject_Z 0). now rewrite <- Zle_Qle. }
  apply Qle_shift_div_l; [exact Hq|lra].
Qed.

Lemma face_of_bounding_box_spec x y width height score w h d :
  0 <= width -> 0 <= height -> 0 < w -> 0 < h ->
  (forall s, score = Some s -> unit_interval s) ->
  face_of_bounding_box square np_sqrt x y width height score w h = Some d ->
  Detection.box d = {| Box.x := x; Box.y := y;
                       Box.width := width; Box.height := height |} /\
  unit_interval (Detection.confidence d) /\
  unit_interval (Detection.quality_score d).
Proof.
  intros Hwidth Hheight Hw Hh Hscore. unfold face_of_bounding_box. intros H.
  apply bind_Some in H as (ratio & Hratio & H).
  apply bind_Some in H as (hw & _ & H).
  apply bind_Some in H as (cx & _ & H).
  apply bind_Some in H as (hh & _ & H).
  apply bind_Some in H as (cy & _ & H).
  apply bind_Some in H as (dist & Hdist & H).
  apply bind_Some in H as (centrality & Hcen & H).
  apply bind_Some in H as (area_part & Harea & H).
  apply bind_Some in H as (cen_part & Hcp & H).
  apply bind_Some in H as (q & Hq & H).
  apply (inj Some) in H. subst d. simpl. split; [reflexivity|].
  apply distance_nonneg in Hdist.
  apply ratio_nonneg in Hratio; [|nia|lia|lia].
  pose proof (weighted_part _ (lit (7 # 10)) _ (min2_unit ratio Hratio)
                ltac:(vm_compute; discriminate) Harea) as Ha.
  pose proof (complement_unit _ _ (min2_unit dist Hdist) Hcen) as Hc.
  pose proof (weighted_part _ (lit (3 # 10)) _ Hc
                ltac:(vm_compute; discriminate) Hcp) as Hb.
  pose proof (sum_of_parts _ _ _ _ _ Ha Hb Hq) as [Hq0 Hq1].
  split.
  - destruct score as [s|]; simpl; [now apply Hscore|].
    split; vm_compute; discriminate.
  - split; [exact Hq0|].
    eapply Qle_trans; [exact Hq1|]. vm_compute. discriminate.
Qed.

Lemma person_of_box_spec x y width height confidence w h d :
  0 <= width -> 0 <= height -> 0 < w -> 0 < h ->
  unit_interval confidence ->
  person_of_box square np_sqrt x y width height confidence w h = Some d ->
  Detection.box d = {| Box.x := x; Box.y := y;
                       Box.width := width; Box.height := height |} /\
  Detection.confidence d = confidence /\
  unit_interval (Detection.quality_score d).
Proof.
  intros Hwidth Hheight Hw Hh Hconf. unfold person_of_box. intros H.
  apply bind_Some in H as (ratio & Hratio & H).
  apply bind_Some in H as (hw & _ & H).
  apply bind_Some in H as (cx & _ & H).
  apply bind_Some in H as (hh & _ & H).
  apply bind_Some in H as (cy & _ & H).
  apply bind_Some in H as (dist & Hdist & H).
  apply bind_Some in H as (centrality & Hcen & H).
  apply bind_Some in H as (area_part & Harea & H).
  apply bind_Some in H as (cen_part & Hcp & H).
  apply bind_Some in H as (sum & Hsum & H).
  apply bind_Some in H as (conf_part & Hconfp & H).
  apply bind_Some in H as (q & Hq & H).
  apply (inj Some) in H. subst d. simpl.
  split; [reflexivity|]. split; [reflexivity|].
  apply distance_nonneg in Hdist.
  apply ratio_nonneg in Hratio; [|nia|lia|lia].
  pose proof (weighted_part _ (lit (6 # 10)) _ (min2_unit ratio Hratio)
                ltac:(vm_compute; discriminate) Harea) as Ha.
  pose proof (complement_unit _ _ (min2_unit dist Hdist) Hcen) as Hc.
  pose proof (weighted_part _ (lit (3 # 10)) _ Hc
                ltac:(vm_compute; discriminate) Hcp) as Hb.
  pose proof (sum_of_parts _ _ _ _ _ Ha Hb Hsum) as Hs.
  pose proof (weighted_part _ (lit (1 # 10)) _ Hconf
                ltac:(vm_compute; discriminate) Hconfp) as Hcpart.
  pose proof (sum_of_parts _ _ _ _ _ Hs Hcpart Hq) as [Hq0 Hq1].
  split; [exact Hq0|].
  eapply Qle_trans; [exact Hq1|]. vm_compute. discriminate.
Qed.

End Quality.

Section Usable.

Variable square : float -> option float.
Variable np_sqrt : float -> option float.
Hypothesis np_sqrt_nonneg : forall x r, np_sqrt x = Some r -> (0 <= r)%Q.
Variables w h : Z.
Hypothesis Hw : image_dimension w.
Hypothesis Hh : image_dimension h.

Lemma usable_box (d : Detection.t) x y width height :
  Detection.box d = {| Box.x := x; Box.y := y;
                       Box.width := width; Box.height := height |} ->
  0 <= x -> 0 <= y -> 0 <= width -> 0 <= height ->
  x + width <= w -> y + height <= h ->
  unit_interval (Detection.confidence d) ->
  unit_interval (Detection.quality_score d) ->
  usable w h d.
Proof using Hw Hh.
  intros Hbox Hx Hy Hwidth Hheight Hr Hb Hc Hq.
  unfold image_dimension in *.
  unfold usable, detection_in_range, box_in_range, box_inside, pixel.
  destruct Hc, Hq. rewrite Hbox. simpl. repeat split; trivial; lia.
Qed.

Lemma faces_of_locations_usable locs results :
  Forall (fun loc => location_inside loc w h) locs ->
  mapM (fun l => face_of_location square np_sqrt l w h) locs = Some results ->
  Forall (usable w h) results.
Proof using Hw Hh np_sqrt_nonneg.
  intros Hlocs Hres. apply mapM_Some in Hres.
  induction Hres as [|loc d locs results Hd _ IH]; [constructor|].
  apply Forall_cons in Hlocs as [(Hl & Hr & Ht & Hb) Hlocs].
  constructor; [|now apply IH].
  destruct (face_of_location_spec square np_sqrt np_sqrt_nonneg loc w h d Hd)
    as (Hbox & Hconf & Hq).
  eapply usable_box; try exact Hbox; try lia; trivial.
  rewrite Hconf. split; [discriminate|apply Qle_refl].
Qed.

Lemma detect_faces_mediapipe_usable imported model_exists detected :
  (forall boxes w' h', detected = Some (boxes, w', h') ->
     w' = w /\ h' = h /\ Forall (bounding_box_inside w h) boxes) ->
  Forall (usable w h)
         (detect_faces_mediapipe square np_sqrt imported model_exists detected).
Proof using Hw Hh np_sqrt_nonneg.
  intros Hdet. unfold detect_faces_mediapipe.
  destruct (negb imported); [constructor|].
  destruct (negb model_exists); [constructor|].
  destruct detected as [[[boxes w'] h']|]; [|constructor].
  destruct (Hdet boxes w' h' eq_refl) as (-> & -> & Hboxes). clear Hdet.
  destruct (mapM _ boxes) as [faces|] eqn:E; [|constructor]. simpl.
  apply mapM_Some in E.
  induction E as [|b d boxes faces Hd _ IH]; [constructor|].
  apply Forall_cons in Hboxes as [Hb Hboxes].
  constructor; [|now apply IH].
  destruct b as [[[[x y] width] height] score].
  destruct Hb as (Hx & Hy & Hwd & Hht & Hr & Hbt & Hs).
  unfold image_dimension in *.
  destruct (face_of_bounding_box_spec square np_sqrt np_sqrt_nonneg
              x y width height score w h d Hwd Hht ltac:(lia) ltac:(lia) Hs Hd)
    as (Hbox & Hconf & Hq).
  eapply usable_box; try exact Hbox; trivial.
Qed.

End Usable.

(** The result of a float operation whose exact value lies between two
    ints. *)
Lemma fl_between lo hi x :
  exact_int lo -> exact_int hi ->
  (inject_Z lo <= x <= inject_Z hi)%Q ->
  exists r, fl x = Some r /\ (inject_Z lo <= r <= inject_Z hi)%Q.
Proof.
  intros Hlo Hhi [H1 H2]. exists (round_ne x). split.
  - apply (fl_bounded 53); try reflexivity.
    unfold bounded. apply Qabs_Qle_condition.
    unfold exact_int in *.
    assert (Ha : (- pow2 53 <= inject_Z lo)%Q).
    { rewrite pow2_inject by lia. rewrite <- inject_Z_opp, <- Zle_Qle. lia. }
    assert (Hb : (inject_Z hi <= pow2 53)%Q).
    { rewrite pow2_inject by lia. rewrite <- Zle_Qle. lia. }
    split; lra.
  - pose proof (round_ne_int lo Hlo) as Elo.
    pose proof (round_ne_int hi Hhi) as Ehi.
    pose proof (round_ne_mono _ _ H1). pose proof (round_ne_mono _ _ H2).
    split; lra.
Qed.

Lemma exact_int_small n : Z.abs n <= 2 ^ 32 -> exact_int n.
Proof. unfold exact_int. lia. Qed.

Lemma unit_between s : unit_interval s -> (inject_Z 0 <= s <= inject_Z 1)%Q.
Proof. intros H. exact H. Qed.

Lemma fmul_unit s w :
  unit_interval s -> unit_interval w ->
  exists p, fmul s w = Some p /\ unit_interval p.
Proof.
  intros [Hs0 Hs1] [Hw0 Hw1]. unfold fmul.
  apply (fl_between 0 1); try (apply exact_int_small; lia).
  change (inject_Z 0) with 0%Q. change (inject_Z 1) with 1%Q. split; nra.
Qed.

Lemma fsub_complement m :
  unit_interval m -> exists c, fsub 1%Q m = Some c /\ unit_interval c.
Proof.
  intros [Hm0 Hm1]. unfold fsub.
  apply (fl_between 0 1); try (apply exact_int_small; lia).
  change (inject_Z 0) with 0%Q. change (inject_Z 1) with 1%Q. split; lra.
Qed.

Lemma fadd_defined a b :
  unit_interval a -> unit_interval b -> exists s, fadd a b = Some s.
Proof.
  intros [Ha0 Ha1] [Hb0 Hb1]. unfold fadd.
  destruct (fl_between 0 2 (a + b)) as (s & -> & _);
    try (apply exact_int_small; lia); eauto.
  change (inject_Z 0) with 0%Q. change (inject_Z 2) with 2%Q. split; lra.
Qed.

Lemma weight_unit q : unit_interval q -> unit_interval (lit q).
Proof. apply unit_interval_lit. Qed.

Section Total.

Variable square : float -> option float.
Variable np_sqrt : float -> option float.

(** What the theorems take of [x ** 2] and of [numpy.sqrt]: the square
    of a number of [-1, 1] is a number of [0, 1], and the square root
    of a number of [0, 2] is a number that is not negative. *)
Hypothesis square_unit :
  forall x, (-1 <= x <= 1)%Q -> exists r, square x = Some r /\ unit_interval r.
Hypothesis np_sqrt_defined :
  forall x, (0 <= x <= 2)%Q -> exists r, np_sqrt x = Some r /\ (0 <= r)%Q.

Lemma inject_Z_half n : (inject_Z n / inject_Z 2 == inject_Z n * (1 # 2))%Q.
Proof. field. Qed.

(** One axis of the distance: [((c - n / 2) / n) ** 2]. *)
Lemma axis_defined c n :
  image_dimension n -> (0 <= c <= inject_Z n)%Q ->
  exists s, unit_interval s /\
    forall (B : Type) (k : float -> option B),
      (half ← truediv n 2; d ← fsub c half; w ← of_int n;
       r ← fdiv d w; s ← square r; k s) = k s.
Proof using square_unit.
  intros Hn [Hc0 Hc1]. unfold image_dimension in Hn.
  assert (Hn1 : (1 <= inject_Z n)%Q).
  { change 1%Q with (inject_Z 1). rewrite <- Zle_Qle. lia. }
  unfold truediv. simpl.
  destruct (fl_between 0 n (inject_Z n / inject_Z 2))
    as (half & -> & Hh0 & Hh1); try (apply exact_int_small; lia).
  { rewrite inject_Z_half. change (inject_Z 0) with 0%Q. split; lra. }
  change (inject_Z 0) with 0%Q in Hh0. cbn [mbind option_bind]. unfold fsub.
  destruct (fl_between (- n) n (c - half))
    as (d & -> & Hd0 & Hd1); try (apply exact_int_small; lia).
  { rewrite inject_Z_opp. split; lra. }
  rewrite inject_Z_opp in Hd0. cbn [mbind option_bind].
  destruct (of_int_exact n) as [-> En]; [apply exact_int_small; lia|].
  cbn [mbind option_bind]. unfold fdiv.
  destruct (Qeq_bool (round_ne (inject_Z n)) 0) eqn:E0.
  { apply Qeq_bool_iff in E0. rewrite En in E0. lra. }
  destruct (fl_between (- 1) 1 (d / round_ne (inject_Z n)))
    as (r & -> & Hr0 & Hr1); try (apply exact_int_small; lia).
  { rewrite En. change (inject_Z (- 1)) with (- 1)%Q.
    change (inject_Z 1) with 1%Q. split.
    - apply Qle_shift_div_l; lra.
    - apply Qle_shift_div_r; lra. }
  cbn [mbind option_bind].
  change (inject_Z (- 1)) with (- 1)%Q in Hr0.
  change (inject_Z 1) with 1%Q in Hr1.
  destruct (square_unit r (conj Hr0 Hr1)) as (s & -> & Hs).
  exists s. split; [exact Hs|]. reflexivity.
Qed.

Lemma distance_defined cx cy w h :
  image_dimension w -> image_dimension h ->
  (0 <= cx <= inject_Z w)%Q -> (0 <= cy <= inject_Z h)%Q ->
  exists d, distance_from_center square np_sqrt cx cy w h = Some d /\
            (0 <= d)%Q.
Proof using square_unit np_sqrt_defined.
  intros Hw Hh Hx Hy. unfold distance_from_center.
  destruct (axis_defined cx w Hw Hx) as (sx & [Hsx0 Hsx1] & ->).
  destruct (axis_defined cy h Hh Hy) as (sy & [Hsy0 Hsy1] & ->).
  unfold fadd.
  destruct (fl_between 0 2 (sx + sy)) as (s & -> & Hs0 & Hs1);
    try (apply exact_int_small; lia).
  { change (inject_Z 0) with 0%Q. change (inject_Z 2) with 2%Q. split; lra. }
  cbn [mbind option_bind]. apply np_sqrt_defined. exact (conj Hs0 Hs1).
Qed.

(** The centre of a span of the image, as [(a + b) / 2]. *)
Lemma centre_defined a b n :
  image_dimension n -> 0 <= a -> a <= b -> b <= n ->
  exists c, truediv (a + b) 2 = Some c /\ (0 <= c <= inject_Z n)%Q.
Proof.
  intros Hn Ha Hab Hb. unfold image_dimension in Hn. unfold truediv. simpl.
  apply fl_between; try (apply exact_int_small; lia).
  rewrite inject_Z_half. change (inject_Z 0) with 0%Q.
  assert (0 <= inject_Z (a + b) <= inject_Z (2 * n))%Q as [H1 H2].
  { change 0%Q with (inject_Z 0). rewrite <- !Zle_Qle. lia. }
  rewrite inject_Z_mult in H2. change (inject_Z 2) with 2%Q in H2.
  split; lra.
Qed.

(** The centre of a span of the image, as [a + len / 2]. *)
Lemma centre_of_corner_defined a len n :
  image_dimension n -> 0 <= a -> 0 <= len -> a + len <= n ->
  forall (B : Type) (k : float -> option B),
  exists c, (0 <= c <= inject_Z n)%Q /\
    (half ← truediv len 2; c ← int_add_float a half; k c) = k c.
Proof.
  intros Hn Ha Hlen Hb B k. unfold image_dimension in Hn.
  unfold truediv. simpl.
  destruct (fl_between 0 len (inject_Z len / inject_Z 2))
    as (half & -> & Hh0 & Hh1); try (apply exact_int_small; lia).
  { rewrite inject_Z_half.
    assert (0 <= inject_Z len)%Q.
    { change 0%Q with (inject_Z 0). rewrite <- Zle_Qle. lia. }
    change (inject_Z 0) with 0%Q. split; lra. }
  cbn [mbind option_bind]. unfold int_add_float.
  destruct (of_int_exact a) as [-> Ea]; [apply exact_int_small; lia|].
  cbn [mbind option_bind]. unfold fadd.
  destruct (fl_between 0 n (round_ne (inject_Z a) + half))
    as (c & -> & Hc); try (apply exact_int_small; lia).
  { rewrite Ea. change (inject_Z 0) with 0%Q in *.
    assert (0 <= inject_Z a)%Q.
    { change 0%Q with (inject_Z 0). rewrite <- Zle_Qle. lia. }
    assert (inject_Z (a + len) <= inject_Z n)%Q by (rewrite <- Zle_Qle; lia).
    rewrite inject_Z_plus in *. split; lra. }
  exists c. split; [exact Hc|reflexivity].
Qed.

(** The share of the image that a box inside it takes. *)
Lemma ratio_defined area w h :
  image_dimension w -> image_dimension h -> 0 <= area <= w * h ->
  exists r, truediv area (w * h) = Some r /\ unit_interval r.
Proof.
  intros Hw Hh Ha. unfold image_dimension in *. unfold truediv.
  destruct (Z.eqb_spec (w * h) 0); [nia|].
  apply (fl_between 0 1); try (apply exact_int_small; lia).
  assert (Hq : (0 < inject_Z (w * h))%Q).
  { change 0%Q with (inject_Z 0). rewrite <- Zlt_Qlt. nia. }
  assert (0 <= inject_Z area <= inject_Z (w * h))%Q as [H1 H2].
  { change 0%Q with (inject_Z 0). rewrite <- !Zle_Qle. lia. }
  change (inject_Z 0) with 0%Q. change (inject_Z 1) with 1%Q. split.
  - apply Qle_shift_div_l; lra.
  - apply Qle_shift_div_r; lra.
Qed.

Lemma face_of_location_defined loc w h :
  image_dimension w -> image_dimension h -> location_inside loc w h ->
  is_Some (face_of_location square np_sqrt loc w h).
Proof using square_unit np_sqrt_defined.
  intros Hw Hh (Hl & Hr & Ht & Hb). unfold face_of_location.
  destruct (centre_defined (left loc) (right loc) w Hw)
    as (cx & -> & Hcx); try lia.
  destruct (centre_defined (top loc) (bottom loc) h Hh)
    as (cy & -> & Hcy); try lia.
  cbn [mbind option_bind].
  destruct (distance_defined cx cy w h Hw Hh Hcx Hcy) as (d & -> & Hd).
  cbn [mbind option_bind].
  destruct (ratio_defined ((right loc - left loc) * (bottom loc - top loc)) w h
              Hw Hh) as (ratio & -> & Hratio0 & Hratio1).
  { unfold image_dimension in *. nia. }
  cbn [mbind option_bind].
  change (fsub ratio (lit (5 # 100))) with (fl (ratio - lit (5 # 100))).
  assert (Hlit : unit_interval (lit (5 # 100))).
  { apply weight_unit. split; vm_compute; discriminate. }
  destruct Hlit as [Hlit0 Hlit1].
  destruct (fl_between (- 1) 1 (ratio - lit (5 # 100)))
    as (shifted & -> & Hs0 & Hs1); try (apply exact_int_small; lia).
  { change (inject_Z (- 1)) with (- 1)%Q. change (inject_Z 1) with 1%Q.
    split; lra. }
  cbn [mbind option_bind]. unfold fdiv.
  assert (Equarter : lit (25 # 100) = (1 # 4)%Q) by (vm_compute; reflexivity).
  rewrite Equarter.
  change (Qeq_bool (1 # 4) 0) with false. cbv iota.
  destruct (fl_between (- 4) 4 (shifted / (1 # 4)))
    as (scaled & -> & _); try (apply exact_int_small; lia).
  { change (inject_Z (- 1)) with (- 1)%Q in Hs0.
    change (inject_Z 1) with 1%Q in Hs1.
    change (inject_Z (- 4)) with (- 4)%Q. change (inject_Z 4) with 4%Q.
    split; [apply Qle_shift_div_l|apply Qle_shift_div_r]; lra. }
  cbn [mbind option_bind].
  destruct (fmul_unit (min2 1%Q (max2 0%Q scaled)) (lit (7 # 10)))
    as (area_part & -> & Harea).
  { apply clamp_unit. }
  { apply weight_unit. split; vm_compute; discriminate. }
  cbn [mbind option_bind].
  destruct (fsub_complement (min2 1%Q d) (min2_unit d Hd))
    as (centrality & -> & Hcen).
  cbn [mbind option_bind].
  destruct (fmul_unit centrality (lit (3 # 10)) Hcen)
    as (cen_part & -> & Hcp).
  { apply weight_unit. split; vm_compute; discriminate. }
  cbn [mbind option_bind].
  destruct (fadd_defined area_part cen_part Harea Hcp) as (q & ->).
  cbn [mbind option_bind]. eauto.
Qed.

Lemma face_of_bounding_box_defined x y width height score w h :
  image_dimension w -> image_dimension h ->
  0 <= x -> 0 <= y -> 0 <= width -> 0 <= height ->
  x + width <= w -> y + height <= h ->
  is_Some (face_of_bounding_box square np_sqrt x y width height score w h).
Proof using square_unit np_sqrt_defined.
  intros Hw Hh Hx Hy Hwidth Hheight Hr Hb. unfold face_of_bounding_box.
  destruct (ratio_defined (width * height) w h Hw Hh)
    as (ratio & -> & Hratio).
  { unfold image_dimension in *. nia. }
  cbn [mbind option_bind].
  edestruct (centre_of_corner_defined x width w Hw Hx Hwidth Hr)
    as (cx & Hcx & ->).
  edestruct (centre_of_corner_defined y height h Hh Hy Hheight Hb)
    as (cy & Hcy & ->).
  destruct (distance_defined cx cy w h Hw Hh Hcx Hcy) as (d & -> & Hd).
  cbn [mbind option_bind].
  destruct (fsub_complement (min2 1%Q d) (min2_unit d Hd))
    as (centrality & -> & Hcen).
  cbn [mbind option_bind].
  destruct (fmul_unit (min2 1%Q ratio) (lit (7 # 10)))
    as (area_part & -> & Harea).
  { apply min2_unit, Hratio. }
  { apply weight_unit. split; vm_compute; discriminate. }
  cbn [mbind option_bind].
  destruct (fmul_unit centrality (lit (3 # 10)) Hcen)
    as (cen_part & -> & Hcp).
  { apply weight_unit. split; vm_compute; discriminate. }
  cbn [mbind option_bind].
  destruct (fadd_defined area_part cen_part Harea Hcp) as (q & ->).
  cbn [mbind option_bind]. eauto.
Qed.

Lemma person_of_box_defined x y width height confidence w h :
  image_dimension w -> image_dimension h ->
  0 <= x -> 0 <= y -> 0 <= width -> 0 <= height ->
  x + width <= w -> y + height <= h -> unit_interval confidence ->
  is_Some (person_of_box square np_sqrt x y width height confidence w h).
Proof using square_unit np_sqrt_defined.
  intros Hw Hh Hx Hy Hwidth Hheight Hr Hb Hconf. unfold person_of_box.
  destruct (ratio_defined (width * height) w h Hw Hh)
    as (ratio & -> & Hratio).
  { unfold image_dimension in *. nia. }
  cbn [mbind option_bind].
  edestruct (centre_of_corner_defined x width w Hw Hx Hwidth Hr)
    as (cx & Hcx & ->).
  edestruct (centre_of_corner_defined y height h Hh Hy Hheight Hb)
    as (cy & Hcy & ->).
  destruct (distance_defined cx cy w h Hw Hh Hcx Hcy) as (d & Ed & Hd).
  rewrite Ed. cbn [mbind option_bind].
  destruct (fsub_complement (min2 1%Q d) (min2_unit d Hd))
    as (centrality & Ecen & Hcen).
  rewrite Ecen. cbn [mbind option_bind].
  destruct (fmul_unit (min2 1%Q ratio) (lit (6 # 10)))
    as (area_part & Earea & Harea).
  { apply min2_unit, Hratio. }
  { apply weight_unit. split; vm_compute; discriminate. }
  rewrite Earea. cbn [mbind option_bind].
  destruct (fmul_unit centrality (lit (3 # 10)) Hcen)
    as (cen_part & Ecp & Hcp).
  { apply weight_unit. split; vm_compute; discriminate. }
  rewrite Ecp. cbn [mbind option_bind].
  pose proof (weighted_part _ (lit (6 # 10)) _ (min2_unit ratio (proj1 Hratio))
                ltac:(vm_compute; discriminate) Earea) as Ha.
  pose proof (weighted_part _ (lit (3 # 10)) _ Hcen
                ltac:(vm_compute; discriminate) Ecp) as Hbp.
  destruct (fadd_defined area_part cen_part Harea Hcp) as (sum & Esum).
  rewrite Esum. cbn [mbind option_bind].
  pose proof (sum_of_parts _ _ _ _ _ Ha Hbp Esum) as [Hs0 Hs1].
  assert (Hsum : unit_interval sum).
  { split; [exact Hs0|]. eapply Qle_trans; [exact Hs1|].
    vm_compute. discriminate. }
  destruct (fmul_unit confidence (lit (1 # 10)) Hconf)
    as (conf_part & Econf & Hcpart).
  { apply weight_unit. split; vm_compute; discriminate. }
  rewrite Econf. cbn [mbind option_bind].
  destruct (fadd_defined sum conf_part Hsum Hcpart) as (q & ->).
  cbn [mbind option_bind]. eauto.
Qed.

End Total.

Lemma rounded_square_squares : squares rounded_square.
Proof.
  intros x [H0 H1]. unfold rounded_square.
  apply (fl_between 0 1); try (apply exact_int_small; lia).
  change (inject_Z 0) with 0%Q. change (inject_Z 1) with 1%Q. split; nra.
Qed.

Lemma sqrt_down_square_roots : square_roots sqrt_down.
Proof.
  split.
  - intros x r. unfold sqrt_down. destruct (Qle_bool 0 x); [|discriminate].
    intros H. apply fl_Some in H. subst r. apply round_ne_nonneg.
    apply Qle_shift_div_l; [reflexivity|].
    rewrite Qmult_0_l. change 0%Q with (inject_Z 0). rewrite <- Zle_Qle.
    apply Z.sqrt_nonneg.
  - intros x [H0 H2]. unfold sqrt_down.
    apply Qle_bool_iff in H0 as E. rewrite E. apply Qle_bool_iff in E.
    set (n := Qfloor (x * inject_Z (2 ^ 104))).
    assert (Hn : 0 <= n <= 2 ^ 105).
    { subst n. split.
      - rewrite <- (Qfloor_Z 0). apply Qfloor_resp_le.
        change (inject_Z 0) with 0%Q.
        apply Qmult_le_0_compat; [exact H0|discriminate].
      - rewrite <- (Qfloor_Z (2 ^ 105)). apply Qfloor_resp_le.
        change (inject_Z (2 ^ 105)) with (2 * inject_Z (2 ^ 104))%Q.
        apply Qmult_le_compat_r; [exact H2|discriminate]. }
    assert (Hs : 0 <= Z.sqrt n <= 2 ^ 53).
    { split; [apply Z.sqrt_nonneg|].
      change (2 ^ 53) with (Z.sqrt (2 ^ 106)). apply Z.sqrt_le_mono. lia. }
    destruct (fl_between 0 2 (inject_Z (Z.sqrt n) / inject_Z (2 ^ 52)))
      as (r & -> & _); try (apply exact_int_small; lia); eauto.
    destruct Hs as [Hs0 Hs1]. rewrite Zle_Qle in Hs0, Hs1.
    change (inject_Z 0) with 0%Q in *.
    split.
    + apply Qle_shift_div_l; [reflexivity|]. lra.
    + apply Qle_shift_div_r; [reflexivity|].
      change (inject_Z 2 * inject_Z (2 ^ 52))%Q with (inject_Z (2 ^ 53)).
      exact Hs1.
Qed.

Section DetectorFacts.

Variable square : float -> option float.
Variable np_sqrt : float -> option float.
Hypothesis Hsquare : squares square.
Hypothesis Hroots : square_roots np_sqrt.
Variables w h : Z.
Hypothesis Hw : image_dimension w.
Hypothesis Hh : image_dimension h.

Lemma np_sqrt_defined x :
  (0 <= x <= 2)%Q -> exists r, np_sqrt x = Some r /\ (0 <= r)%Q.
Proof using Hroots.
  intros Hx. destruct Hroots as [Hnonneg Hdef].
  destruct (Hdef x Hx) as [r Hr]. exists r. split; [exact Hr|].
  now apply (Hnonneg x).
Qed.

Lemma faces_of_locations locs :
  Forall (fun loc => location_inside loc w h) locs ->
  exists results,
    mapM (fun l => face_of_location square np_sqrt l w h) locs = Some results /\
    map Detection.box results = map box_of_location locs /\
    Forall (fun d => Detection.confidence d = 1%Q /\ usable w h d) results.
Proof using Hsquare Hroots Hw Hh.
  induction 1 as [|loc locs Hloc Hlocs (results & E & Hboxes & Hall)].
  - exists []. repeat split; constructor.
  - destruct (face_of_location_defined square np_sqrt Hsquare np_sqrt_defined
                loc w h Hw Hh Hloc) as [d Hd].
    exists (d :: results). rewrite mapM_Some. rewrite mapM_Some in E.
    destruct (face_of_location_spec square np_sqrt (proj1 Hroots) loc w h d Hd)
      as (Hbox & Hconf & Hq).
    split; [now constructor|]. split.
    + simpl. now rewrite Hbox, Hboxes.
    + constructor; [|exact Hall]. split; [exact Hconf|].
      destruct Hloc as (Hl & Hr & Ht & Hb).
      eapply (usable_box w h Hw Hh); try exact Hbox; try lia; trivial.
      rewrite Hconf. split; [discriminate|apply Qle_refl].
Qed.

Lemma faces_of_bounding_boxes boxes :
  Forall (bounding_box_inside w h) boxes ->
  exists faces,
    mapM (fun '(x, y, width, height, score) =>
            face_of_bounding_box square np_sqrt x y width height score w h)
         boxes = Some faces /\
    map (fun d => (Detection.box d, Detection.confidence d)) faces
    = map (fun '(x, y, width, height, score) =>
             ({| Box.x := x; Box.y := y;
                 Box.width := width; Box.height := height |},
              default (lit (5 # 10)) score)) boxes /\
    Forall (usable w h) faces.
Proof using Hsquare Hroots Hw Hh.
  induction 1 as [|b boxes Hb Hboxes (faces & E & Hmap & Hall)].
  - exists []. repeat split; constructor.
  - destruct b as [[[[x y] width] height] score].
    destruct Hb as (Hx & Hy & Hwd & Hht & Hr & Hbt & Hs).
    destruct (face_of_bounding_box_defined square np_sqrt Hsquare
                np_sqrt_defined x y width height score w h)
      as [d Hd]; trivial.
    exists (d :: faces). rewrite mapM_Some. rewrite mapM_Some in E.
    unfold image_dimension in Hw, Hh.
    pose proof Hd as Hspec.
    apply face_of_bounding_box_spec in Hspec
      as (Hbox & Hconf & Hq); trivial; try lia; [|exact (proj1 Hroots)].
    split; [now constructor|]. split.
    + simpl. rewrite Hmap. f_equal. rewrite Hbox. f_equal.
      unfold face_of_bounding_box in Hd.
      repeat (let v := fresh "v" in let Ev := fresh "Ev" in
              apply bind_Some in Hd as (v & Ev & Hd)).
      apply (inj Some) in Hd. now subst d.
    + constructor; [|exact Hall].
      eapply (usable_box w h); try exact Hbox; trivial.
Qed.

Lemma persons_of_boxes boxes :
  Forall (person_box_inside w h) boxes ->
  exists persons,
    mapM (fun '(cls, (x, y, width, height), confidence) =>
            person_of_box square np_sqrt x y width height confidence w h)
         boxes = Some persons /\
    map (fun d => (Detection.box d, Detection.confidence d)) persons
    = map (fun '(cls, (x, y, width, height), confidence) =>
             ({| Box.x := x; Box.y := y;
                 Box.width := width; Box.height := height |},
              confidence)) boxes /\
    Forall (usable w h) persons.
Proof using Hsquare Hroots Hw Hh.
  induction 1 as [|b boxes Hb Hboxes (persons & E & Hmap & Hall)].
  - exists []. repeat split; constructor.
  - destruct b as [[cls [[[x y] width] height]] confidence].
    destruct Hb as (Hx & Hy & Hwd & Hht & Hr & Hbt & Hc).
    destruct (person_of_box_defined square np_sqrt Hsquare
                np_sqrt_defined x y width height confidence w h)
      as [d Hd]; trivial.
    exists (d :: persons). rewrite mapM_Some. rewrite mapM_Some in E.
    unfold image_dimension in Hw, Hh.
    pose proof Hd as Hspec.
    apply person_of_box_spec in Hspec
      as (Hbox & Hconf & Hq); trivial; try lia; [|exact (proj1 Hroots)].
    split; [now constructor|]. split.
    + simpl. rewrite Hmap. f_equal. now rewrite Hbox, Hconf.
    + constructor; [|exact Hall].
      eapply (usable_box w h); try exact Hbox; trivial.
      now rewrite Hconf.
Qed.

End DetectorFacts.



Section Paths.

Variable square : float -> option float.
Variable np_sqrt : float -> option float.
Hypothesis np_sqrt_nonneg : forall x r, np_sqrt x = Some r -> (0 <= r)%Q.
Variables w h : Z.
Hypothesis Hw : image_dimension w.
Hypothesis Hh : image_dimension h.

Lemma detect_persons_usable inferred :
  inferred_inside w h inferred ->
  Forall (usable w h) (detect_persons square np_sqrt inferred).
Proof using np_sqrt_nonneg Hw Hh.
  unfold detect_persons, inferred_inside.
  destruct inferred as [[[boxes w'] h']|]; [|constructor].
  intros (-> & -> & Hboxes).
  destruct (mapM _ _) as [persons|] eqn:E; [|constructor]. simpl.
  apply mapM_Some in E. revert Hboxes.
  induction E as [|b d bs persons Hd _ IH]; [constructor|].
  intros Hbs. apply Forall_cons in Hbs as [Hb Hbs].
  constructor; [|now apply IH].
  destruct b as [[cls [[[x y] width] height]] confidence].
  destruct Hb as (Hx & Hy & Hwd & Hht & Hr & Hbt & Hc).
  unfold image_dimension in Hw, Hh.
  apply person_of_box_spec in Hd as (Hbox & Hconf & Hq);
    trivial; try lia.
  eapply (usable_box w h); try exact Hbox; trivial. now rewrite Hconf.
Qed.

Lemma detect_faces_usable fr mp located imported model_exists detected :
  located_inside w h located -> detected_inside w h detected ->
  Forall (usable w h)
    (detect_faces square np_sqrt fr mp located
       (detect_faces_mediapipe square np_sqrt imported model_exists detected)).
Proof using np_sqrt_nonneg Hw Hh.
  intros Hloc Hdet.
  assert (Hmp : Forall (usable w h)
                  (detect_faces_mediapipe square np_sqrt imported model_exists
                     detected)).
  { apply detect_faces_mediapipe_usable; trivial.
    intros boxes w' h' ->. exact Hdet. }
  assert (Hfb : Forall (usable w h)
                  (if mp
                   then detect_faces_mediapipe square np_sqrt imported
                          model_exists detected
                   else [])).
  { destruct mp; [exact Hmp|constructor]. }
  unfold detect_faces. destruct fr; [|exact Hfb].
  destruct located as [[[[|loc locs] w'] h']|]; try exact Hfb.
  destruct Hloc as (-> & -> & Hlocs).
  destruct (mapM _ _) as [results|] eqn:E; [|exact Hfb].
  now apply (faces_of_locations_usable square np_sqrt np_sqrt_nonneg w h Hw Hh
               (loc :: locs)).
Qed.

End Paths.

(** X17: with face_recognition available and at least one face located,
    all inside the image, [detect_faces] returns one detection per
    location, in the order of the locations: its box is the location's
    (left, top, right - left, bottom - top), its confidence is 1.0 and
    its quality score lies in [0, 1].  What MediaPipe would return is
    not used. *)
Theorem detect_faces_one_per_location :
  forall square np_sqrt w h mediapipe_available loc locs mediapipe,
    squares square -> square_roots np_sqrt ->
    image_dimension w -> image_dimension h ->
    Forall (fun l => location_inside l w h) (loc :: locs) ->
    map Detection.box
        (detect_faces square np_sqrt true mediapipe_available
           (Some (loc :: locs, w, h)) mediapipe)
    = map box_of_location (loc :: locs) /\
    Forall (fun d => Detection.confidence d = 1%Q /\ usable w h d)
           (detect_faces square np_sqrt true mediapipe_available
              (Some (loc :: locs, w, h)) mediapipe).
Proof.
  intros square np_sqrt w h mp loc locs mediapipe Hsq Hroots Hw Hh Hlocs.
  destruct (faces_of_locations square np_sqrt Hsq Hroots w h Hw Hh
              (loc :: locs) Hlocs) as (results & E & Hboxes & Hall).
  unfold detect_faces. rewrite E. split; assumption.
Qed.

Lemma detect_faces_one_per_location_witness :
  map Detection.box
      (detect_faces rounded_square sqrt_down true true
         (Some ([example_location], 3000, 2000)) [])
  = [box_of_location example_location] /\
  Forall (fun d => Detection.confidence d = 1%Q /\ usable 3000 2000 d)
         (detect_faces rounded_square sqrt_down true true
            (Some ([example_location], 3000, 2000)) []).
Proof.
  apply (detect_faces_one_per_location rounded_square sqrt_down 3000 2000
           true example_location [] []).
  - apply rounded_square_squares.
  - apply sqrt_down_square_roots.
  - unfold image_dimension. lia.
  - unfold image_dimension. lia.
  - repeat constructor; simpl; lia.
Defined.

(** X18: when MediaPipe imports, its model file exists and the detector
    returns bounding boxes inside the image, [_detect_faces_mediapipe]
    returns one detection per bounding box, in order, with that box and
    with the score of its first category as confidence, or 0.5 when it
    has no category; every quality score lies in [0, 1]. *)
Theorem detect_faces_mediapipe_one_per_box :
  forall square np_sqrt w h boxes,
    squares square -> square_roots np_sqrt ->
    image_dimension w -> image_dimension h ->
    Forall (bounding_box_inside w h) boxes ->
    map (fun d => (Detection.box d, Detection.confidence d))
        (detect_faces_mediapipe square np_sqrt true true
           (Some (boxes, w, h)))
    = map (fun '(x, y, width, height, score) =>
             ({| Box.x := x; Box.y := y;
                 Box.width := width; Box.height := height |},
              default (lit (5 # 10)) score)) boxes /\
    Forall (usable w h)
           (detect_faces_mediapipe square np_sqrt true true
              (Some (boxes, w, h))).
Proof.
  intros square np_sqrt w h boxes Hsq Hroots Hw Hh Hboxes.
  destruct (faces_of_bounding_boxes square np_sqrt Hsq Hroots w h Hw Hh
              boxes Hboxes) as (faces & E & Hmap & Hall).
  unfold detect_faces_mediapipe. cbn [negb]. rewrite E. split; assumption.
Qed.

Lemma detect_faces_mediapipe_one_per_box_witness :
  map (fun d => (Detection.box d, Detection.confidence d))
      (detect_faces_mediapipe rounded_square sqrt_down true true
         (Some ([example_bounding_box], 3000, 2000)))
  = [({| Box.x := 1200; Box.y := 400; Box.width := 600; Box.height := 600 |},
      lit (5 # 10))] /\
  Forall (usable 3000 2000)
         (detect_faces_mediapipe rounded_square sqrt_down true true
            (Some ([example_bounding_box], 3000, 2000))).
Proof.
  apply (detect_faces_mediapipe_one_per_box rounded_square sqrt_down 3000 2000
           [example_bounding_box]).
  - apply rounded_square_squares.
  - apply sqrt_down_square_roots.
  - unfold image_dimension. lia.
  - unfold image_dimension. lia.
  - constructor; [|constructor]. unfold example_bounding_box. simpl.
    repeat (split; [lia|]). intros s Hs. discriminate Hs.
Defined.

(** X19: when the model answers and its boxes of class 0 lie inside the
    image with a confidence in [0, 1], [detect_persons] returns one
    detection per box of class 0, in order, with that box and that
    confidence and a quality score in [0, 1]; boxes of other classes
    leave no trace. *)
Theorem detect_persons_one_per_person_box :
  forall square np_sqrt w h boxes,
    squares square -> square_roots np_sqrt ->
    image_dimension w -> image_dimension h ->
    Forall (person_box_inside w h) (List.filter (fun b => b.1.1 =? 0) boxes) ->
    map (fun d => (Detection.box d, Detection.confidence d))
        (detect_persons square np_sqrt (Some (boxes, w, h)))
    = map (fun '(cls, (x, y, width, height), confidence) =>
             ({| Box.x := x; Box.y := y;
                 Box.width := width; Box.height := height |},
              confidence))
          (List.filter (fun b => b.1.1 =? 0) boxes) /\
    Forall (usable w h) (detect_persons square np_sqrt (Some (boxes, w, h))).
Proof.
  intros square np_sqrt w h boxes Hsq Hroots Hw Hh Hboxes.
  destruct (persons_of_boxes square np_sqrt Hsq Hroots w h Hw Hh _ Hboxes)
    as (persons & E & Hmap & Hall).
  unfold detect_persons. rewrite E. split; assumption.
Qed.

Lemma detect_persons_one_per_person_box_witness :
  map (fun d => (Detection.box d, Detection.confidence d))
      (detect_persons rounded_square sqrt_down
         (Some (example_person_boxes, 3000, 2000)))
  = [({| Box.x := 1000; Box.y := 300;
         Box.width := 900; Box.height := 1600 |}, (1 # 2)%Q)] /\
  Forall (usable 3000 2000)
         (detect_persons rounded_square sqrt_down
            (Some (example_person_boxes, 3000, 2000))).
Proof.
  apply (detect_persons_one_per_person_box rounded_square sqrt_down 3000 2000
           example_person_boxes).
  - apply rounded_square_squares.
  - apply sqrt_down_square_roots.
  - unfold image_dimension. lia.
  - unfold image_dimension. lia.
  - repeat constructor; simpl; try lia; discriminate.
Defined.

(** X20: whichever way the detectors take (face_recognition, the
    MediaPipe fallback after no face or an error, or nothing at all),
    when the libraries report locations and boxes inside the image,
    every detection returned has its box inside the image and its
    scores in [0, 1]. *)
Theorem detections_inside_image :
  forall square np_sqrt w h face_recognition_available mediapipe_available
         located imported model_exists detected inferred,
    (forall x r, np_sqrt x = Some r -> (0 <= r)%Q) ->
    image_dimension w -> image_dimension h ->
    located_inside w h located -> detected_inside w h detected ->
    inferred_inside w h inferred ->
    Forall (usable w h)
      (detect_faces square np_sqrt face_recognition_available
         mediapipe_available located
         (detect_faces_mediapipe square np_sqrt imported model_exists
            detected)) /\
    Forall (usable w h) (detect_persons square np_sqrt inferred).
Proof.
  intros square np_sqrt w h fr mp located imported model_exists detected
         inferred Hroots Hw Hh Hloc Hdet Hinf.
  split.
  - now apply detect_faces_usable.
  - now apply detect_persons_usable.
Qed.

Lemma detections_inside_image_witness :
  Forall (usable 3000 2000)
    (detect_faces rounded_square sqrt_down true true None
       (detect_faces_mediapipe rounded_square sqrt_down true true
          (Some ([example_bounding_box], 3000, 2000)))) /\
  Forall (usable 3000 2000)
    (detect_persons rounded_square sqrt_down
       (Some (example_person_boxes, 3000, 2000))).
Proof.
  apply (detections_inside_image rounded_square sqrt_down 3000 2000).
  - apply sqrt_down_square_roots.
  - unfold image_dimension. lia.
  - unfold image_dimension. lia.
  - exact I.
  - split; [reflexivity|]. split; [reflexivity|].
    constructor; [|constructor]. unfold example_bounding_box. simpl.
    repeat (split; [lia|]). intros s Hs. discriminate Hs.
  - split; [reflexivity|]. split; [reflexivity|].
    repeat constructor; simpl; try lia; discriminate.
Defined.

(** X21: the detections of an image in range always give a crop: for
    every target ratio, [calculate_smart_crop] on what [detect_faces]
    and [detect_persons] return gives a crop inside the image, of the
    method that the priority order gives. *)
Theorem detections_give_crop_inside_image :
  forall square np_sqrt w h face_recognition_available mediapipe_available
         located imported model_exists detected inferred image_path aw ah,
    (forall x r, np_sqrt x = Some r -> (0 <= r)%Q) ->
    image_dimension w -> image_dimension h ->
    located_inside w h located -> detected_inside w h detected ->
    inferred_inside w h inferred ->
    aspect_term aw -> aspect_term ah ->
    exists c,
      calculate_smart_crop image_path (aw, ah)
        (detect_faces square np_sqrt face_recognition_available
           mediapipe_available located
           (detect_faces_mediapipe square np_sqrt imported model_exists
              detected))
        (detect_persons square np_sqrt inferred)
        w h default_headroom_ratio = Some c /\
      box_inside (crop_box c) w h /\
      method c
      = expected_method
          (detect_faces square np_sqrt face_recognition_available
             mediapipe_available located
             (detect_faces_mediapipe square np_sqrt imported model_exists
                detected))
          (detect_persons square np_sqrt inferred).
Proof.
  intros square np_sqrt w h fr mp located imported model_exists detected
         inferred image_path aw ah Hroots Hw Hh Hloc Hdet Hinf Haw Hah.
  destruct (smart_crop_in_range image_path aw ah
              (detect_faces square np_sqrt fr mp located
                 (detect_faces_mediapipe square np_sqrt imported model_exists
                    detected))
              (detect_persons square np_sqrt inferred) w h Haw Hah Hw Hh)
    as (c & Hc & Hin & _ & Hm).
  - eapply Forall_impl.
    + apply (detect_faces_usable square np_sqrt Hroots w h Hw Hh); assumption.
    + now intros d [Hd _].
  - eapply Forall_impl.
    + apply (detect_persons_usable square np_sqrt Hroots w h Hw Hh); assumption.
    + now intros d [Hd _].
  - exists c. auto.
Qed.

Lemma detections_give_crop_inside_image_witness :
  exists c,
    calculate_smart_crop "stage.jpg" (16, 9)
      (detect_faces rounded_square sqrt_down true true None
         (detect_faces_mediapipe rounded_square sqrt_down true true
            (Some ([example_bounding_box], 3000, 2000))))
      (detect_persons rounded_square sqrt_down
         (Some (example_person_boxes, 3000, 2000)))
      3000 2000 default_headroom_ratio = Some c /\
    box_inside (crop_box c) 3000 2000 /\
    method c
    = expected_method
        (detect_faces rounded_square sqrt_down true true None
           (detect_faces_mediapipe rounded_square sqrt_down true true
              (Some ([example_bounding_box], 3000, 2000))))
        (detect_persons rounded_square sqrt_down
           (Some (example_person_boxes, 3000, 2000))).
Proof.
  apply (detections_give_crop_inside_image rounded_square sqrt_down 3000 2000).
  - apply sqrt_down_square_roots.
  - unfold image_dimension. lia.
  - unfold image_dimension. lia.
  - exact I.
  - split; [reflexivity|]. split; [reflexivity|].
    constructor; [|constructor]. unfold example_bounding_box. simpl.
    repeat (split; [lia|]). intros s Hs. discriminate Hs.
  - split; [reflexivity|]. split; [reflexivity|].
    repeat constructor; simpl; try lia; discriminate.
  - unfold aspect_term. lia.
  - unfold aspect_term. lia.
Defined.

Lemma location_of_box_of_location loc :
  location_of_box (box_of_location loc) = loc.
Proof.
  destruct loc as [t r b l]. unfold location_of_box, box_of_location. simpl.
  f_equal; lia.
Qed.

Lemma combine_from (face_detections : list Detection.t) encodings k :
  map FaceEncoding.embedding
      (omap (combine face_detections) (Pipeline.enumerate_from k encodings))
  = take (length face_detections - k) encodings /\
  map detection_of
      (omap (combine face_detections) (Pipeline.enumerate_from k encodings))
  = take (length encodings) (drop k face_detections).
Proof.
  revert k. induction encodings as [|e encodings IH]; intros k.
  - simpl. now rewrite take_nil.
  - change (Pipeline.enumerate_from k (e :: encodings))
      with ((k, e) :: Pipeline.enumerate_from (S k) encodings).
    destruct (IH (S k)) as [IH1 IH2].
    assert (Estep : forall r,
              combine face_detections (k, e) = r ->
              omap (combine face_detections)
                   ((k, e) :: Pipeline.enumerate_from (S k) encodings)
              = match r with
                | Some y => y :: omap (combine face_detections)
                                   (Pipeline.enumerate_from (S k) encodings)
                | None => omap (combine face_detections)
                               (Pipeline.enumerate_from (S k) encodings)
                end) by (intros r <-; reflexivity).
    destruct (Nat.ltb_spec k (length face_detections)) as [Hk|Hk].
    + destruct (lookup_lt_is_Some_2 face_detections k Hk) as [d Hd].
      rewrite (Estep (Some {| FaceEncoding.embedding := e;
                              FaceEncoding.box := Detection.box d;
                              FaceEncoding.confidence := Detection.confidence d;
                              FaceEncoding.quality_score :=
                                Detection.quality_score d |})).
      2:{ unfold combine. apply Nat.ltb_lt in Hk. rewrite Hk, Hd. reflexivity. }
      cbn [map]. rewrite IH1, IH2. split.
      * replace (length face_detections - k)%nat
          with (S (length face_detections - S k)) by lia. reflexivity.
      * rewrite (drop_S _ _ _ Hd). cbn [length take]. f_equal. now destruct d.
    + rewrite (Estep None).
      2:{ unfold combine. apply Nat.ltb_ge in Hk. now rewrite Hk. }
      rewrite IH1, IH2.
      replace (length face_detections - S k)%nat with 0%nat by lia.
      replace (length face_detections - k)%nat with 0%nat by lia.
      rewrite !drop_ge by lia. now rewrite !take_nil.
Qed.

(** X22: the encodings of a photo pair up with its detections by
    position: result [i] holds encoding [i] with the box and the scores
    of detection [i], and there are as many results as the shorter of
    the two lists has entries; a photo without detections has no result. *)
Theorem face_encodings_pair_with_detections :
  forall face_detections embeddings,
    map FaceEncoding.embedding
        (get_face_encodings_for_photo face_detections embeddings)
    = take (length face_detections)
           (embeddings (Some (face_locations face_detections))) /\
    map detection_of
        (get_face_encodings_for_photo face_detections embeddings)
    = take (length (embeddings (Some (face_locations face_detections))))
           face_detections.
Proof.
  intros face_detections embeddings.
  destruct face_detections as [|d ds] eqn:E.
  - simpl. now rewrite take_nil.
  - rewrite <- E.
    assert (Hget : get_face_encodings_for_photo face_detections embeddings
                   = omap (combine face_detections)
                       (Pipeline.enumerate_from 0
                               (embeddings
                                  (Some (face_locations face_detections)))))
      by (subst; reflexivity).
    rewrite Hget.
    destruct (combine_from face_detections
                (embeddings (Some (face_locations face_detections))) 0)
      as [H1 H2].
    rewrite H1, H2. now rewrite Nat.sub_0_r.
Qed.

(** X23: the encoder is asked about the faces that were found: for the
    detections that [detect_faces] makes of face_recognition's
    locations, the locations that [get_face_encodings_for_photo] hands
    to [get_face_embeddings] are those locations again. *)
Theorem face_locations_round_trip :
  forall square np_sqrt w h mediapipe_available loc locs mediapipe,
    squares square -> square_roots np_sqrt ->
    image_dimension w -> image_dimension h ->
    Forall (fun l => location_inside l w h) (loc :: locs) ->
    face_locations
      (detect_faces square np_sqrt true mediapipe_available
         (Some (loc :: locs, w, h)) mediapipe)
    = loc :: locs.
Proof.
  intros square np_sqrt w h mp loc locs mediapipe Hsq Hroots Hw Hh Hlocs.
  destruct (faces_of_locations square np_sqrt Hsq Hroots w h Hw Hh
              (loc :: locs) Hlocs) as (results & E & Hboxes & _).
  unfold detect_faces. rewrite E. unfold face_locations.
  rewrite <- (map_map Detection.box location_of_box), Hboxes, map_map.
  rewrite <- (map_id (loc :: locs)) at 2. apply map_ext.
  apply location_of_box_of_location.
Qed.

Lemma face_locations_round_trip_witness :
  face_locations
    (detect_faces rounded_square sqrt_down true true
       (Some ([example_location], 3000, 2000)) [])
  = [example_location].
Proof.
  apply (face_locations_round_trip rounded_square sqrt_down 3000 2000
           true example_location [] []).
  - apply rounded_square_squares.
  - apply sqrt_down_square_roots.
  - unfold image_dimension. lia.
  - unfold image_dimension. lia.
  - repeat constructor; simpl; lia.
Defined.

End DetectorFacts.

(** ** The search for image files *)

Module ImageFilesFacts.

Import ImageFiles.
Local Open Scope string_scope.
Local Open Scope Z_scope.
Local Open Scope list_scope.

Lemma Entry_induction (P : Entry -> Prop) :
  (forall n p s i, P (File n p s i)) ->
  (forall n, P (Other n)) ->
  (forall n, P (Directory n PermissionDenied)) ->
  (forall n, P (Directory n Unreadable)) ->
  (forall n entries, Forall P entries -> P (Directory n (Listed entries))) ->
  forall e, P e.
Proof.
  intros HF HO HD HU HL. fix IH 1.
  intros [n p s i|n [entries| |]|n];
    [apply HF| |apply HD|apply HU|apply HO].
  apply HL. revert entries. fix IHentries 1.
  intros [|e entries]; constructor; [apply IH|apply IHentries].
Qed.

Section Facts.

Variable lower : string -> string.
Variables recursive skip_existing : bool.
Variable existing_filenames : option (gset string).

Lemma find_cons n entry rest :
  find_image_files lower recursive skip_existing existing_filenames
    (Directory n (Listed (entry :: rest)))
  = let find :=
      find_image_files lower recursive skip_existing existing_filenames in
    if is_metadata (name entry) then find (Directory n (Listed rest))
    else
      match entry with
      | Directory _ _ =>
          if recursive then
            sub_files ← find entry;
            files ← find (Directory n (Listed rest));
            Some (sub_files ++ files)
          else find (Directory n (Listed rest))
      | File entry_name path suffix image =>
          if kept lower skip_existing existing_filenames entry_name suffix
                  image
          then files ← find (Directory n (Listed rest)); Some (path :: files)
          else find (Directory n (Listed rest))
      | Other _ => find (Directory n (Listed rest))
      end.
Proof. destruct entry; reflexivity. Qed.

Lemma visited_cons n entry rest x :
  visited recursive (Directory n (Listed (entry :: rest))) x
  <-> (is_metadata (name entry) = false /\
       (x = entry \/ (recursive = true /\ visited recursive entry x)))
      \/ visited recursive (Directory n (Listed rest)) x.
Proof.
  split.
  - intros Hv. inversion Hv; subst.
    + match goal with H : In _ (_ :: _) |- _ => destruct H as [->|Hin] end.
      * left. auto.
      * right. now constructor.
    + match goal with H : In _ (_ :: _) |- _ => destruct H as [->|Hin] end.
      * left. auto.
      * right. eapply visited_below; eauto.
  - intros [[Hm [->|[Hr Hv]]]|Hv].
    + constructor; [now left|exact Hm].
    + eapply visited_below; eauto. now left.
    + inversion Hv; subst.
      * constructor; [now right|assumption].
      * eapply visited_below; eauto. now right.
Qed.

Ltac found a b c :=
  exists a, b, c; split; [|assumption]; intuition (auto; congruence).

Lemma find_image_files_spec dir :
  forall files,
    find_image_files lower recursive skip_existing existing_filenames dir
    = Some files ->
    forall p,
      In p files
      <-> exists n suffix image,
            visited recursive dir (File n p suffix image) /\
            kept lower skip_existing existing_filenames n suffix image = true.
Proof.
  set (find := find_image_files lower recursive skip_existing
                 existing_filenames).
  set (keeps := kept lower skip_existing existing_filenames).
  induction dir as [n p s i|n|n|n|n entries IH] using Entry_induction;
    intros files Hfind q; try discriminate.
  - injection Hfind as <-. split; [intros []|].
    intros (? & ? & ? & Hv & _). inversion Hv.
  - revert files Hfind.
    induction entries as [|entry rest IHrest]; intros files Hfind.
    + injection Hfind as <-. split; [intros []|].
      intros (? & ? & ? & Hv & _).
      inversion Hv; subst;
        match goal with H : In _ [] |- _ => destruct H end.
    + apply Forall_cons in IH as [IHentry IH]. specialize (IHrest IH).
      unfold find in Hfind. rewrite find_cons in Hfind. cbv zeta in Hfind.
      fold find in Hfind. fold keeps in Hfind.
      setoid_rewrite visited_cons.
      destruct (is_metadata (name entry)) eqn:Hm.
      { rewrite (IHrest files Hfind). split.
        - intros (a & b & c & Hv & Hk). found a b c.
        - intros (a & b & c & [[? _]|Hv] & Hk); [discriminate|].
          found a b c. }
      destruct entry as [n' p' s' i'|n' l'|n'].
      * destruct (keeps n' s' i') eqn:Hk.
        -- apply bind_Some in Hfind as (files' & Hrest & [= <-]).
           simpl. rewrite (IHrest files' Hrest). split.
           ++ intros [<-|(a & b & c & Hv & Hk')].
              ** exists n', s', i'. split; [left|exact Hk]. auto.
              ** found a b c.
           ++ intros (a & b & c & [[_ [E|[_ Hv]]]|Hv] & Hk').
              ** injection E as -> -> -> ->. now left.
              ** inversion Hv.
              ** right. found a b c.
        -- rewrite (IHrest files Hfind). split.
           ++ intros (a & b & c & Hv & Hk'). found a b c.
           ++ intros (a & b & c & [[_ [E|[_ Hv]]]|Hv] & Hk').
              ** injection E as -> -> -> ->. congruence.
              ** inversion Hv.
              ** found a b c.
      * destruct recursive eqn:Hr.
        -- apply bind_Some in Hfind as (sub & Hsub & Hfind).
           apply bind_Some in Hfind as (files' & Hrest & [= <-]).
           rewrite in_app_iff, (IHentry sub Hsub), (IHrest files' Hrest).
           split.
           ++ intros [(a & b & c & Hv & Hk)|(a & b & c & Hv & Hk)];
                found a b c.
           ++ intros (a & b & c & [[_ [E|[_ Hv]]]|Hv] & Hk').
              ** discriminate.
              ** left. found a b c.
              ** right. found a b c.
        -- rewrite (IHrest files Hfind). split.
           ++ intros (a & b & c & Hv & Hk'). found a b c.
           ++ intros (a & b & c & [[_ [E|[? _]]]|Hv] & Hk'); try discriminate.
              found a b c.
      * rewrite (IHrest files Hfind). split.
        -- intros (a & b & c & Hv & Hk'). found a b c.
        -- intros (a & b & c & [[_ [E|[_ Hv]]]|Hv] & Hk'); try discriminate.
           ++ inversion Hv.
           ++ found a b c.
Qed.

Lemma kept_wanted entry_name suffix image :
  kept lower skip_existing existing_filenames entry_name suffix image = true
  <-> wanted lower skip_existing existing_filenames entry_name suffix image.
Proof.
  unfold kept, wanted, valid_image, skipped.
  rewrite !andb_true_iff, bool_decide_eq_true, negb_true_iff. split.
  - intros [[Hext Himg] Hskip]. split; [exact Hext|]. split.
    + destruct image as [[width height]|]; [|discriminate].
      apply andb_true_iff in Himg as [H1 H2].
      exists width, height. split; [reflexivity|]. lia.
    + intros -> names -> Hne Hin. simpl in Hskip.
      rewrite andb_false_iff, negb_false_iff in Hskip.
      rewrite !bool_decide_eq_true, bool_decide_eq_false in Hskip.
      destruct Hskip as [Hskip|Hskip]; contradiction.
  - intros (Hext & (width & height & -> & H1 & H2) & Hskip).
    split; [split; [exact Hext|]|].
    + apply andb_true_iff. split; apply Z.ltb_lt; assumption.
    + destruct skip_existing; [|reflexivity]. simpl.
      destruct existing_filenames as [names|]; [|reflexivity].
      apply andb_false_iff.
      destruct (decide (names = ∅)) as [E|E].
      * left. rewrite negb_false_iff. now apply bool_decide_eq_true.
      * right. apply bool_decide_eq_false. now apply (Hskip eq_refl names).
Qed.

End Facts.

Section TwoSearches.

Variable lower : string -> string.
Variable recursive : bool.
Variables skip1 skip2 : bool.
Variables existing1 existing2 : option (gset string).

Lemma find_image_files_ext :
  (forall n suffix image,
     kept lower skip1 existing1 n suffix image
     = kept lower skip2 existing2 n suffix image) ->
  forall dir,
    find_image_files lower recursive skip1 existing1 dir
    = find_image_files lower recursive skip2 existing2 dir.
Proof.
  intros Hkept.
  induction dir as [n p s i|n|n|n|n entries IH] using Entry_induction;
    try reflexivity.
  induction entries as [|entry rest IHrest]; [reflexivity|].
  apply Forall_cons in IH as [IHentry IH]. specialize (IHrest IH).
  rewrite !find_cons. cbv zeta. rewrite IHrest, IHentry.
  destruct entry; try reflexivity. now rewrite Hkept.
Qed.

Lemma find_image_files_sublist :
  (forall n suffix image,
     kept lower skip1 existing1 n suffix image = true ->
     kept lower skip2 existing2 n suffix image = true) ->
  forall dir files,
    find_image_files lower recursive skip1 existing1 dir = Some files ->
    exists all,
      find_image_files lower recursive skip2 existing2 dir = Some all /\
      files `sublist_of` all.
Proof.
  intros Hkept.
  induction dir as [n p s i|n|n|n|n entries IH] using Entry_induction;
    intros files Hfind; try discriminate.
  - injection Hfind as <-. exists []. split; [reflexivity|constructor].
  - revert files Hfind.
    induction entries as [|entry rest IHrest]; intros files Hfind.
    + injection Hfind as <-. exists []. split; [reflexivity|constructor].
    + apply Forall_cons in IH as [IHentry IH]. specialize (IHrest IH).
      rewrite find_cons in Hfind. rewrite find_cons. cbv zeta in *.
      destruct (is_metadata (name entry)); [now apply IHrest|].
      destruct entry as [n' p' s' i'|n' l'|n']; [| |now apply IHrest].
      * destruct (kept lower skip1 existing1 n' s' i') eqn:Hk.
        -- rewrite (Hkept _ _ _ Hk).
           apply bind_Some in Hfind as (files' & Hrest & [= <-]).
           destruct (IHrest files' Hrest) as (all & -> & Hsub).
           exists (p' :: all). split; [reflexivity|now constructor].
        -- destruct (IHrest files Hfind) as (all & Hall & Hsub).
           rewrite Hall.
           destruct (kept lower skip2 existing2 n' s' i').
           ++ exists (p' :: all). split; [reflexivity|now constructor].
           ++ exists all. auto.
      * destruct recursive; [|now apply IHrest].
        apply bind_Some in Hfind as (sub & Hsub & Hfind).
        apply bind_Some in Hfind as (files' & Hrest & [= <-]).
        destruct (IHentry sub Hsub) as (all_sub & -> & Hs1).
        destruct (IHrest files' Hrest) as (all & -> & Hs2).
        exists (all_sub ++ all). split; [reflexivity|now apply sublist_app].
Qed.

End TwoSearches.

Lemma kept_without_skip lower existing existing' n suffix image :
  kept lower true existing n suffix image = true ->
  kept lower false existing' n suffix image = true.
Proof.
  unfold kept, skipped. rewrite !andb_true_iff. simpl. tauto.
Qed.

Lemma kept_empty_set lower existing n suffix image :
  kept lower true (Some ∅) n suffix image
  = kept lower false existing n suffix image.
Proof.
  unfold kept, skipped.
  rewrite (bool_decide_eq_true_2 (∅ =@{gset string} ∅) eq_refl). reflexivity.
Qed.

Lemma kept_no_set lower existing n suffix image :
  kept lower true None n suffix image
  = kept lower false existing n suffix image.
Proof. reflexivity. Qed.

(** X24: the search returns the paths of the wanted images and of
    nothing else: a path is in the result exactly when it is the path
    of a file that the search comes by (outside macOS metadata entries,
    below directories only when recursive) whose lowered suffix is one
    of the five image extensions, that opens as an image with positive
    sides, and whose name is not in the set of existing names when the
    skip is asked for with a set that is not empty. *)
Theorem find_image_files_returns_wanted_images :
  forall lower recursive skip_existing existing_filenames dir files,
    find_image_files lower recursive skip_existing existing_filenames dir
    = Some files ->
    forall p,
      In p files
      <-> exists n suffix image,
            visited recursive dir (File n p suffix image) /\
            wanted lower skip_existing existing_filenames n suffix image.
Proof.
  intros lower recursive skip_existing existing_filenames dir files Hfind p.
  rewrite (find_image_files_spec _ _ _ _ dir files Hfind p).
  split; intros (n & suffix & image & Hv & Hk); exists n, suffix, image;
    (split; [exact Hv|]);
    apply (kept_wanted lower skip_existing existing_filenames); exact Hk.
Qed.

Lemma find_image_files_returns_wanted_images_witness :
  In "photos/day2/c.tif"
     ["photos/a.JPG"; "photos/day2/b.png"; "photos/d.jpeg"]
  <-> exists n suffix image,
        visited true example_tree (File n "photos/day2/c.tif" suffix image) /\
        wanted ascii_lower false None n suffix image.
Proof.
  apply (find_image_files_returns_wanted_images ascii_lower true false None
           example_tree).
  reflexivity.
Defined.

(** X25: asking to skip existing files with an empty set of names, or
    with no set at all, skips nothing: the search gives what it gives
    without the skip. *)
Theorem find_image_files_empty_set_skips_nothing :
  forall lower recursive existing_filenames dir,
    find_image_files lower recursive true (Some ∅) dir
    = find_image_files lower recursive false existing_filenames dir /\
    find_image_files lower recursive true None dir
    = find_image_files lower recursive false existing_filenames dir.
Proof.
  intros lower recursive existing_filenames dir. split.
  - apply find_image_files_ext. intros. apply kept_empty_set.
  - apply find_image_files_ext. intros. apply kept_no_set.
Qed.

(** X26: skipping existing files only removes paths: when the search
    with the skip returns, so does the search without it, and the first
    result is the second with some paths left out, in the same
    order. *)
Theorem find_image_files_skip_removes_only :
  forall lower recursive existing_filenames dir files,
    find_image_files lower recursive true existing_filenames dir
    = Some files ->
    exists all,
      find_image_files lower recursive false existing_filenames dir
      = Some all /\
      files `sublist_of` all.
Proof.
  intros lower recursive existing_filenames dir files.
  apply find_image_files_sublist. intros n suffix image.
  apply kept_without_skip.
Qed.

Lemma find_image_files_skip_removes_only_witness :
  exists all,
    find_image_files ascii_lower true false (Some {["a.JPG"]}) example_tree
    = Some all /\
    ["photos/day2/b.png"; "photos/d.jpeg"] `sublist_of` all.
Proof.
  apply (find_image_files_skip_removes_only ascii_lower true
           (Some {["a.JPG"]}) example_tree).
  vm_compute. reflexivity.
Defined.

End ImageFilesFacts.

(** ** The entries of clusters.json *)

Module ClustersJsonFacts.

Import Float64 PerceptualHash Pipeline Outcomes ClustersJson NearDuplicateFacts SceneFacts NearDuplicateClusters SceneClusters.
Local Open Scope string_scope.
Local Open Scope Z_scope.
Local Open Scope list_scope.
#[local] Set Warnings "-clear-no-such-hyp".

Lemma cluster_entries_from (clusters : list (list string)) :
  Forall (fun c => c <> []) clusters ->
  forall start,
  exists entries,
    mapM cluster_entry (enumerate_from start clusters) = Some entries /\
    map entry_filenames entries = clusters /\
    map cluster_id entries
    = map Z.of_nat (seq start (length clusters)) /\
    Forall (fun e => head (entry_filenames e) = Some (representative_photo e))
           entries.
Proof.
  induction 1 as [|c clusters Hc _ IH]; intros start.
  - exists []. repeat split; constructor.
  - destruct (IH (S start)) as (entries & E & Hnames & Hids & Hreps).
    destruct c as [|first rest]; [contradiction|].
    exists ({| cluster_id := Z.of_nat start;
               entry_filenames := first :: rest;
               representative_photo := first |} :: entries).
    change (enumerate_from start ((first :: rest) :: clusters))
      with ((start, first :: rest) :: enumerate_from (S start) clusters).
    rewrite mapM_Some. rewrite mapM_Some in E.
    split; [constructor; [reflexivity|exact E]|].
    simpl. rewrite Hnames, Hids. repeat split. now constructor.
Qed.

(** X27: building clusters.json never fails on an empty cluster: every
    near-duplicate cluster and every scene has a first name, which
    becomes its representative photo; entry [i] carries the id [i] and
    the names of cluster [i].  (For scenes: when the clustering gives
    no more labels than there are embeddings.) *)
Theorem clusters_have_representatives :
  forall fit_predict photo_results hash_threshold similarity_threshold,
    (forall eps labels,
       fit_predict eps 2
         (map image_embedding (List.filter has_embedding photo_results))
       = Some labels ->
       (length labels
        <= length (List.filter has_embedding photo_results))%nat) ->
    (exists entries,
       cluster_entries (cluster_near_duplicates photo_results hash_threshold)
       = Some entries /\
       map entry_filenames entries
       = cluster_near_duplicates photo_results hash_threshold /\
       map cluster_id entries = map Z.of_nat (seq 0 (length entries)) /\
       Forall (fun e => head (entry_filenames e)
                        = Some (representative_photo e)) entries) /\
    (forall scenes,
       cluster_scenes fit_predict photo_results similarity_threshold
       = Some scenes ->
       exists entries,
         cluster_entries scenes = Some entries /\
         map entry_filenames entries = scenes /\
         map cluster_id entries = map Z.of_nat (seq 0 (length entries)) /\
         Forall (fun e => head (entry_filenames e)
                          = Some (representative_photo e)) entries).
Proof.
  intros fit_predict photo_results hash_threshold similarity_threshold Hfit.
  assert (Hentries : forall clusters : list (list string),
            Forall (fun c => c <> []) clusters ->
            exists entries,
              cluster_entries clusters = Some entries /\
              map entry_filenames entries = clusters /\
              map cluster_id entries = map Z.of_nat (seq 0 (length entries)) /\
              Forall (fun e => head (entry_filenames e)
                               = Some (representative_photo e)) entries).
  { intros clusters Hne.
    destruct (cluster_entries_from clusters Hne 0)
      as (entries & E & Hnames & Hids & Hreps).
    exists entries. split; [exact E|]. split; [exact Hnames|].
    split; [|exact Hreps].
    rewrite Hids. f_equal. f_equal. rewrite <- Hnames. now rewrite length_map. }
  split.
  - apply Hentries.
    destruct (cluster_near_duplicates_spec photo_results hash_threshold)
      as (_ & _ & Hsizes).
    eapply Forall_impl; [exact Hsizes|].
    intros c Hc ->. simpl in Hc. lia.
  - intros scenes Hscenes. apply Hentries.
    unfold cluster_scenes in Hscenes.
    destruct (length (List.filter has_embedding photo_results) <? 2)%nat.
    { injection Hscenes as <-. constructor. }
    apply bind_Some in Hscenes as (eps & _ & Hscenes).
    apply bind_Some in Hscenes as (labels & Hlabels & Hscenes).
    destruct (group_labels (List.filter has_embedding photo_results) labels
                (Hfit eps labels Hlabels))
      as (groups & Hfold & _ & Hall & _).
    rewrite Hfold in Hscenes. cbn [mbind option_bind] in Hscenes.
    injection Hscenes as <-.
    apply Forall_map. eapply Forall_impl; [exact Hall|].
    now intros g (_ & Hg & _).
Qed.

Lemma clusters_have_representatives_witness :
  (exists entries,
     cluster_entries
       (cluster_near_duplicates
          [example_photo "a.jpg" "ff00" "ff00" [1%Q] [];
           example_photo "b.jpg" "ff01" "ff00" [0%Q] [];
           example_photo "c.jpg" "00ff" "00ff" [1%Q] []] 10)
     = Some entries /\
     map entry_filenames entries
     = cluster_near_duplicates
         [example_photo "a.jpg" "ff00" "ff00" [1%Q] [];
          example_photo "b.jpg" "ff01" "ff00" [0%Q] [];
          example_photo "c.jpg" "00ff" "00ff" [1%Q] []] 10 /\
     map cluster_id entries = map Z.of_nat (seq 0 (length entries)) /\
     Forall (fun e => head (entry_filenames e)
                      = Some (representative_photo e)) entries) /\
  (forall scenes,
     cluster_scenes example_labels
       [example_photo "a.jpg" "ff00" "ff00" [1%Q] [];
        example_photo "b.jpg" "ff01" "ff00" [0%Q] [];
        example_photo "c.jpg" "00ff" "00ff" [1%Q] []]
       default_similarity_threshold
     = Some scenes ->
     exists entries,
       cluster_entries scenes = Some entries /\
       map entry_filenames entries = scenes /\
       map cluster_id entries = map Z.of_nat (seq 0 (length entries)) /\
       Forall (fun e => head (entry_filenames e)
                        = Some (representative_photo e)) entries).
Proof.
  apply (clusters_have_representatives example_labels
           [example_photo "a.jpg" "ff00" "ff00" [1%Q] [];
            example_photo "b.jpg" "ff01" "ff00" [0%Q] [];
            example_photo "c.jpg" "00ff" "00ff" [1%Q] []]
           10 default_similarity_threshold).
  intros eps labels [= <-]. simpl. lia.
Defined.

End ClustersJsonFacts.
